(** * WeatherMap.js: a shallow embedding of the terrain-evolution engine

    The class [WeatheringMap] of [src/WeatherMap.js] is embedded as follows.

    - JavaScript numbers are idealised as real numbers ([R]).  The two
      operations whose JavaScript result leaves the reals are guarded:
      a division by zero ([Infinity]/[NaN]) and the square root of a
      negative number ([NaN]) make the embedded function return [None].
      [calculateMineralReactivity] uses only [+], [*], [/] and [>], so it is
      written once over a small arithmetic interface and read both over [R]
      and over IEEE-754 binary64 ([PrimFloat]), JavaScript's number type.
    - Objects and arrays live in a heap ([gmap loc object]): a terrain model
      is an object holding a reference to the outer [elevationData] array,
      whose elements are references to the row arrays.  [x[i][j] -= v]
      updates the row array in place, so aliasing between the loaded dataset
      and a projected snapshot is visible in the model.
    - A run that raises a [TypeError], reads [undefined] where a number is
      needed, or leaves the reals, is [None].
    - [Math.random] is a stream of draws with a cursor.

    A statement proved over [R] is a statement in exact arithmetic: the
    binary64 result of the code can differ from it by rounding, so that a
    strict inequality or a sharp bound may be met with equality, or missed
    by a unit in the last place.  Such statements say so. *)

From Stdlib Require Import Reals Lra Lia ZArith List Permutation Sorted.
From Stdlib Require Floats.PrimFloat Numbers.Cyclic.Int63.Uint63.
From stdpp Require Import gmap strings list fin_maps.

Local Open Scope R_scope.

(** ** Heap model *)

Definition loc := positive.

(** The fields of a terrain model object
    ([{width, height, cellSize, elevationData}]). *)
Record terrain := Terrain {
  width : nat;
  height : nat;
  cellSize : R;
  elevationData : loc
}.

Inductive object :=
| OTerrain (t : terrain)        (* a terrain model object *)
| ORows (rows : list loc)       (* an array of references to row arrays *)
| ONums (cells : list R).       (* an array of numbers *)

Abbreviation heap := (gmap loc object).

Definition getTerrain (h : heap) (l : loc) : option terrain :=
  match h !! l with Some (OTerrain t) => Some t | _ => None end.

Definition getRows (h : heap) (l : loc) : option (list loc) :=
  match h !! l with Some (ORows rs) => Some rs | _ => None end.

Definition getNums (h : heap) (l : loc) : option (list R) :=
  match h !! l with Some (ONums cs) => Some cs | _ => None end.

(** [data[y][x]] read as a number. *)
Definition readCell (h : heap) (data : loc) (y x : nat) : option R :=
  rs ← getRows h data;
  r ← rs !! y;
  cs ← getNums h r;
  cs !! x.

(** [data[y][x] = f(data[y][x])], the shape of [-=] and [+=]. *)
Definition updateCell (h : heap) (data : loc) (y x : nat) (f : R → R)
  : option heap :=
  rs ← getRows h data;
  r ← rs !! y;
  cs ← getNums h r;
  v ← cs !! x;
  Some (<[r := ONums (<[x := f v]> cs)]> h).

(** Allocation of a new object at an unused location. *)
Definition alloc (h : heap) (o : object) : loc * heap :=
  let l := fresh (dom h) in (l, <[l := o]> h).

Fixpoint allocAll (h : heap) (os : list object) : list loc * heap :=
  match os with
  | [] => ([], h)
  | o :: os' =>
      let '(l, h1) := alloc h o in
      let '(ls, h2) := allocAll h1 os' in
      (l :: ls, h2)
  end.

(** [for (const a of l) body], threading the state and stopping at the first
    failure. *)
Fixpoint forEach {A S : Type} (l : list A) (body : A → S → option S) (s : S)
  : option S :=
  match l with
  | [] => Some s
  | a :: l' => s' ← body a s; forEach l' body s'
  end.

(** ** Number primitives *)

(** [a / b]; [None] when JavaScript yields [Infinity] or [NaN]. *)
Definition divide (a b : R) : option R :=
  if Req_dec_T b 0 then None else Some (a / b).

(** [Math.sqrt]; [None] when JavaScript yields [NaN]. *)
Definition Math_sqrt (x : R) : option R :=
  if Rle_dec 0 x then Some (sqrt x) else None.

(** [Math.atan2(y, x)] on the reals.  The reals have one zero: where the
    code passes [-0] for [y] and a negative [x], [Math.atan2] returns [-PI]
    and this function [PI].  [calculateAspect] does so when the north and
    south neighbours are equal and the east neighbour is lower than the
    west one; statements about the range of the aspect therefore include
    both ends. *)
Definition Math_atan2 (y x : R) : R :=
  if Rlt_dec 0 x then atan (y / x)
  else if Rlt_dec x 0 then
    (if Rle_dec 0 y then atan (y / x) + PI else atan (y / x) - PI)
  else if Rlt_dec 0 y then PI / 2
  else if Rlt_dec y 0 then - (PI / 2)
  else 0.

(** [Math.floor]. *)
Definition Math_floor (x : R) : R := IZR (Int_part x).

Definition Rleb (a b : R) : bool := if Rle_dec a b then true else false.

(** [Math.random]: the stream of draws and the number of draws made. *)
Record Random := MkRandom { stream : nat → R; drawn : nat }.

Definition Math_random (g : Random) : R * Random :=
  (stream g (drawn g), MkRandom (stream g) (S (drawn g))).

(** ** The class [WeatheringMap] *)

(** The fields of [this] read by the projection:
    [this.datasets.elevation] and [this.weatheringRates]. *)
Record WeatheringMap := {
  elevation : loc;
  physical : R;
  chemical : R;
  biological : R
}.

Section Methods.

Variable this : WeatheringMap.

Definition determineTimeSteps (maxYears : R) : list R :=
  if Rle_dec maxYears 100 then
    List.filter (λ t, Rleb t maxYears) [0; 10; 25; 50; 100]
  else if Rle_dec maxYears 1000 then
    List.filter (λ t, Rleb t maxYears) [0; 100; 250; 500; 1000]
  else
    List.filter (λ t, Rleb t maxYears) [0; 1000; 5000; 10000; 50000; 100000].

Definition calculateTotalWeatheringRate : R :=
  (physical this * 0.4 + chemical this * 0.4 + biological this * 0.2) / 1000.

Definition calculateElevationFactor (elev : R) : R :=
  let baseElevation := 500 in
  if Rlt_dec elev baseElevation then 1.0
  else
    let elevationDiff := elev - baseElevation in
    1.0 + (elevationDiff / 2000) * 0.5.

(** The edge test of [calculateSlope] and [calculateAspect]:
    [x === 0 || y === 0 || x === terrain[0].length - 1 ||
     y === terrain.length - 1], with its short circuit: [terrain[0]] is read
    only when [x] and [y] are non-zero. *)
Definition atEdge (h : heap) (data : loc) (x y : nat) : option bool :=
  if ((x =? 0)%nat || (y =? 0)%nat)%bool then Some true
  else
    rs ← getRows h data;
    r0 ← rs !! 0%nat;
    row0 ← getNums h r0;
    Some ((Z.of_nat x =? Z.of_nat (length row0) - 1)%Z
          || (Z.of_nat y =? Z.of_nat (length rs) - 1)%Z)%bool.

Definition calculateSlope (h : heap) (x y : nat) : option R :=
  ds ← getTerrain h (elevation this);
  let terrain := elevationData ds in
  let cellSize := cellSize ds in
  edge ← atEdge h terrain x y;
  if edge : bool then Some 0
  else
    zE ← readCell h terrain y (x + 1);
    zW ← readCell h terrain y (x - 1);
    dz_dx ← divide (zE - zW) (2 * cellSize);
    zS ← readCell h terrain (y + 1) x;
    zN ← readCell h terrain (y - 1) x;
    dz_dy ← divide (zS - zN) (2 * cellSize);
    Some (atan (sqrt (dz_dx * dz_dx + dz_dy * dz_dy)) * (180 / PI)).

Definition calculateAspect (h : heap) (x y : nat) : option R :=
  ds ← getTerrain h (elevation this);
  let terrain := elevationData ds in
  edge ← atEdge h terrain x y;
  if edge : bool then Some 0
  else
    zE ← readCell h terrain y (x + 1);
    zW ← readCell h terrain y (x - 1);
    let dz_dx := zE - zW in
    zS ← readCell h terrain (y + 1) x;
    zN ← readCell h terrain (y - 1) x;
    let dz_dy := zS - zN in
    Some (Math_atan2 (- dz_dy) dz_dx).

Definition calculateCellWeathering (h : heap) (x y : nat)
    (baseWeatheringIntensity : R) : option R :=
  slope ← calculateSlope h x y;
  aspect ← calculateAspect h x y;
  ds ← getTerrain h (elevation this);
  elev ← readCell h (elevationData ds) y x;
  let slopeFactor := 1 + (slope / 45) in
  let aspectFactor := 1 + (sin aspect * 0.2) in
  let elevationFactor := calculateElevationFactor elev in
  Some (baseWeatheringIntensity * slopeFactor * aspectFactor * elevationFactor).

(** [JSON.parse(JSON.stringify(elevationData))] reads every row and builds
    fresh row arrays and a fresh outer array; the object literal is a fresh
    object. *)
Definition cloneTerrainModel (h : heap) (originalTerrain : loc)
  : option (loc * heap) :=
  t ← getTerrain h originalTerrain;
  rs ← getRows h (elevationData t);
  contents ← mapM (getNums h) rs;
  let '(rs', h1) := allocAll h (ONums <$> contents) in
  let '(data', h2) := alloc h1 (ORows rs') in
  Some (alloc h2 (OTerrain (Terrain (width t) (height t) (cellSize t) data'))).

Definition calculateFlowDirections (h : heap) (terrainModel : loc) (g : Random)
  : option (list (list R) * Random) :=
  t ← getTerrain h terrainModel;
  let width := width t in
  let height := height t in
  let directions := replicate height (replicate width 0) in
  forEach (seq 0 height) (λ y,
    forEach (seq 0 width) (λ x '(directions, g),
      let '(r, g') := Math_random g in
      row ← directions !! y;
      Some (<[y := <[x := Math_floor (r * 8)]> row]> directions, g')))
    (directions, g).

Definition calculateFlowAccumulation (h : heap)
    (flowDirections : list (list R)) (terrainModel : loc)
  : option (list (list R)) :=
  t ← getTerrain h terrainModel;
  let width := width t in
  let height := height t in
  let accumulation := replicate height (replicate width 1) in
  Some accumulation.

(** [terrainModel.width], [.height] and [.elevationData] are read once:
    the passes assign to numbers of row arrays only, never to a field of the
    terrain object (lemma [updateCell_getTerrain]). *)
Definition applyErosion (h : heap) (terrainModel : loc)
    (flowAccumulation : list (list R)) (years : R) : option heap :=
  let erosionRate := 0.00005 * years in
  t ← getTerrain h terrainModel;
  forEach (seq 0 (height t)) (λ y,
    forEach (seq 0 (width t)) (λ x h,
      slope ← calculateSlope h x y;
      accRow ← flowAccumulation !! y;
      accumulation ← accRow !! x;
      root ← Math_sqrt accumulation;
      let erosionAmount := erosionRate * root * (slope / 45) in
      updateCell h (elevationData t) y x (λ v, v - erosionAmount)))
    h.

Definition applyDeposition (h : heap) (terrainModel : loc)
    (flowAccumulation : list (list R)) (years : R) : option heap :=
  let depositionRate := 0.00002 * years in
  t ← getTerrain h terrainModel;
  forEach (seq 0 (height t)) (λ y,
    forEach (seq 0 (width t)) (λ x h,
      slope ← calculateSlope h x y;
      accRow ← flowAccumulation !! y;
      accumulation ← accRow !! x;
      root ← Math_sqrt accumulation;
      let depositionAmount := depositionRate * root * (1 - slope / 90) in
      if Rlt_dec slope 10 then
        updateCell h (elevationData t) y x (λ v, v + Rmax 0 depositionAmount)
      else Some h))
    h.

Definition simulateErosion (h : heap) (terrainModel : loc) (years : R)
    (g : Random) : option (heap * Random) :=
  '(flowDirections, g') ← calculateFlowDirections h terrainModel g;
  flowAccumulation ← calculateFlowAccumulation h flowDirections terrainModel;
  h1 ← applyErosion h terrainModel flowAccumulation years;
  h2 ← applyDeposition h1 terrainModel flowAccumulation years;
  Some (h2, g').

(** The per-cell statement of [projectWeathering]'s double loop. *)
Definition weatherCell (weatheredTerrain : terrain)
    (weatheringIntensity : R) (x y : nat) (h : heap) : option heap :=
  cellWeathering ← calculateCellWeathering h x y weatheringIntensity;
  updateCell h (elevationData weatheredTerrain) y x (λ v, v - cellWeathering).

Definition projectWeathering (h : heap) (years : R) (g : Random)
  : option (loc * heap * Random) :=
  '(weatheredTerrain, h1) ← cloneTerrainModel h (elevation this);
  let totalWeatheringRate := calculateTotalWeatheringRate in
  let weatheringIntensity := years * totalWeatheringRate in
  t ← getTerrain h1 weatheredTerrain;
  h2 ← forEach (seq 0 (width t)) (λ x,
          forEach (seq 0 (height t)) (λ y,
            weatherCell t weatheringIntensity x y)) h1;
  '(h3, g') ← simulateErosion h2 weatheredTerrain years g;
  Some (weatheredTerrain, h3, g').

(** [models[timeStep] = this.projectWeathering(timeStep)] for each step; the
    result lists the entries of [models] in insertion order. *)
Definition generateWeatheringModels (h : heap) (years : R) (g : Random)
  : option (list (R * loc) * heap * Random) :=
  let timeSteps := determineTimeSteps years in
  forEach timeSteps (λ timeStep '(models, h, g),
    '(m, h', g') ← projectWeathering h timeStep g;
    Some (models ++ [(timeStep, m)], h', g'))
    ([], h, g).

End Methods.

(** ** Abstract view of a terrain in the heap *)

(** The numbers of a terrain, row by row ([elevationData[y][x]]). *)
Abbreviation grid := (list (list R)).

Definition cell (G : grid) (y x : nat) : option R :=
  row ← G !! y; row !! x.

(** The data-model invariant of a terrain grid: [elevationData] has
    [height] rows of [width] numbers. *)
Definition rect (W H : nat) (G : grid) : Prop :=
  length G = H ∧ Forall (λ row, length row = W) G.

(** In heap [h], the object at [l] is the terrain model [t], whose outer
    array holds the row references [rs], whose rows hold the numbers [G]. *)
Definition represents (h : heap) (l : loc) (t : terrain) (rs : list loc)
    (G : grid) : Prop :=
  getTerrain h l = Some t
  ∧ getRows h (elevationData t) = Some rs
  ∧ Forall2 (λ r row, getNums h r = Some row) rs G
  ∧ rect (width t) (height t) G.

(** The loaded elevation dataset is a well-formed terrain grid
    (dimensions match, [cellSize > 0]). *)
Definition wfDataset (this : WeatheringMap) (h : heap) (t : terrain)
    (rs : list loc) (G : grid) : Prop :=
  represents h (elevation this) t rs G ∧ 0 < cellSize t.

(** The terrain model at [l] was allocated after the heap [h0] was taken:
    its row arrays are pairwise distinct and none of them exists in [h0],
    and everything in [h0] is still in [h] as it was. *)
Definition owns (h0 h : heap) (l : loc) (t : terrain) (rs : list loc)
    (G : grid) : Prop :=
  h0 ⊆ h ∧ represents h l t rs G ∧ NoDup rs ∧ Forall (λ r, h0 !! r = None) rs.

(** The order in which [projectWeathering] visits the cells ([x] outer,
    [y] inner), and the order of the erosion and deposition passes
    ([y] outer, [x] inner); a cell is the pair [(x, y)]. *)
Definition columnMajor (W H : nat) : list (nat * nat) :=
  x ← seq 0 W; (λ y, (x, y)) <$> seq 0 H.

Definition rowMajor (W H : nat) : list (nat * nat) :=
  y ← seq 0 H; (λ x, (x, y)) <$> seq 0 W.

(** The grid after the cells [cs] were each rewritten by [F x y]. *)
Definition alterCells (F : nat → nat → R → R) (cs : list (nat * nat))
    (G : grid) : grid :=
  foldl (λ G '(x, y), alter (alter (F x y) x) y G) G cs.

(** [this] with [this.datasets.elevation] pointing to another terrain. *)
Definition withElevation (this : WeatheringMap) (l : loc) : WeatheringMap :=
  {| elevation := l; physical := physical this; chemical := chemical this;
     biological := biological this |}.

(** The property names every object literal inherits from
    [Object.prototype].  Looking one of them up in the tables
    [reactivityIndex] and [rockHardnessIndex] yields a function or an
    object, not [undefined]: it passes the test [if (reactivityIndex[mineral])]
    and makes the sum [NaN].  The tables below hold the own properties
    only, so every statement about arbitrary names excludes these. *)
Definition inheritedName (name : string) : bool :=
  bool_decide (name ∈ ["constructor"; "__defineGetter__"; "__defineSetter__";
                       "hasOwnProperty"; "__lookupGetter__";
                       "__lookupSetter__"; "isPrototypeOf";
                       "propertyIsEnumerable"; "toString"; "valueOf";
                       "__proto__"; "toLocaleString"]%string).

(** ** Arithmetic of [calculateMineralReactivity] *)

(** The operations [calculateMineralReactivity] performs on numbers.
    [decimal m d] is the decimal literal [m/d], [d] a power of ten;
    [truthy] is JavaScript's conversion of a number to a boolean. *)
Class Number (num : Type) := {
  decimal : Z → Z → num;
  plus : num → num → num;
  times : num → num → num;
  over : num → num → num;
  greater : num → num → bool;
  truthy : num → bool
}.

(** Exact arithmetic. *)
#[export] Instance realNumber : Number R := {|
  decimal m d := IZR m / IZR d;
  plus := Rplus;
  times := Rmult;
  over := Rdiv;
  greater a b := if Rlt_dec b a then true else false;
  truthy a := if Req_dec_T a 0 then false else true
|}.

(** IEEE-754 binary64, the arithmetic JavaScript performs.  A decimal
    literal denotes the double nearest to it, which the correctly rounded
    quotient of the two integers is. *)
#[export] Instance binary64 : Number PrimFloat.float := {|
  decimal m d :=
    PrimFloat.div (PrimFloat.of_uint63 (Uint63.of_Z m))
                  (PrimFloat.of_uint63 (Uint63.of_Z d));
  plus := PrimFloat.add;
  times := PrimFloat.mul;
  over := PrimFloat.div;
  greater a b := PrimFloat.ltb b a;
  truthy a := (negb (PrimFloat.eqb a PrimFloat.zero) && PrimFloat.eqb a a)%bool
|}.

Section MineralReactivity.
Context {num : Type} `{Number num}.

(** [reactivityIndex[mineral]] for a [mineral] that is not an
    [inheritedName]: the own properties of the object literal; [None] is
    [undefined]. *)
Definition reactivityIndex (mineral : string) : option num :=
  if String.eqb mineral "quartz" then Some (decimal 1 10)
  else if String.eqb mineral "feldspar" then Some (decimal 7 10)
  else if String.eqb mineral "mica" then Some (decimal 5 10)
  else if String.eqb mineral "calcite" then Some (decimal 9 10)
  else if String.eqb mineral "dolomite" then Some (decimal 8 10)
  else None.

(** [if (reactivityIndex[mineral])], for a [mineral] that is not an
    [inheritedName]. *)
Definition recognized (mineral : string) : option num :=
  match reactivityIndex mineral with
  | Some r => if truthy r then Some r else None
  | None => None
  end.

(** [mineralComposition] is given by its entries, in the order of
    [Object.entries]. *)
Definition calculateMineralReactivity
    (mineralComposition : list (string * num)) : num :=
  let '(totalReactivity, totalPercentage) :=
    fold_left (λ '(totalReactivity, totalPercentage) '(mineral, percentage),
      match recognized mineral with
      | Some r =>
          (plus totalReactivity (times r percentage),
           plus totalPercentage percentage)
      | None => (totalReactivity, totalPercentage)
      end)
      mineralComposition (decimal 0 1, decimal 0 1) in
  if greater totalPercentage (decimal 0 1)
  then over totalReactivity totalPercentage
  else decimal 5 10.

End MineralReactivity.

(** The entries of a composition whose mineral is in the reactivity table,
    each with its table reactivity. *)
Definition recognizedOnly (mineralComposition : list (string * R))
  : list (R * R) :=
  omap (λ '(mineral, percentage),
          r ← recognized mineral; Some (r, percentage)) mineralComposition.

Definition sumOf (l : list R) : R := foldr Rplus 0 l.

(** Numerator and denominator of the abundance-weighted average. *)
Definition weightedReactivity (mineralComposition : list (string * R)) : R :=
  sumOf ((λ '(r, p), r * p) <$> recognizedOnly mineralComposition).

Definition totalAbundance (mineralComposition : list (string * R)) : R :=
  sumOf (snd <$> recognizedOnly mineralComposition).

(** The composition [{quartz: 0.5, feldspar: 0.5}]. *)
Definition quartzFeldspar {num : Type} `{Number num} : list (string * num) :=
  [("quartz"%string, decimal 5 10); ("feldspar"%string, decimal 5 10)].

(** ** Notions used in the statements *)

(** The edge test on a grid of [W] by [H] cells. *)
Definition onEdge (W H x y : nat) : bool :=
  ((x =? 0)%nat || (y =? 0)%nat || (x + 1 =? W)%nat || (y + 1 =? H)%nat)%bool.

(** The values the code computes from the dataset as it stands in heap [h0]
    ([0] where the code fails). *)
Definition cellLoss (this : WeatheringMap) (h0 : heap) (intensity : R)
    (x y : nat) : R :=
  default 0 (calculateCellWeathering this h0 x y intensity).

Definition slopeAt (this : WeatheringMap) (h0 : heap) (x y : nat) : R :=
  default 0 (calculateSlope this h0 x y).

(** What the three passes do to the number of cell [(x, y)]. *)
Definition weathered (this : WeatheringMap) (h0 : heap) (intensity : R)
    (x y : nat) (v : R) : R :=
  v - cellLoss this h0 intensity x y.

Definition eroded (this : WeatheringMap) (h0 : heap) (years : R)
    (x y : nat) (v : R) : R :=
  v - 0.00005 * years * 1 * (slopeAt this h0 x y / 45).

Definition deposited (this : WeatheringMap) (h0 : heap) (years : R)
    (x y : nat) (v : R) : R :=
  if Rlt_dec (slopeAt this h0 x y) 10 then
    v + Rmax 0 (0.00002 * years * 1 * (1 - slopeAt this h0 x y / 90))
  else v.

(** The three passes of [projectWeathering] on the number of one cell. *)
Definition projected (this : WeatheringMap) (h0 : heap) (years : R)
    (x y : nat) (v : R) : R :=
  deposited this h0 years x y
    (eroded this h0 years x y
       (weathered this h0 (years * calculateTotalWeatheringRate this) x y v)).

(** [numsLe h1 h2]: the two heaps hold the same objects, except that every
    number stored in [h1] is at most the number stored at the same place in
    [h2]. *)
Definition numsLe (h1 h2 : heap) : Prop :=
  ∀ l, match h1 !! l, h2 !! l with
       | Some (ONums a), Some (ONums b) => Forall2 Rle a b
       | Some o1, Some o2 => o1 = o2
       | None, None => True
       | _, _ => False
       end.

(** The rows a pass writes to are rows of the snapshot, none of which
    existed in [h0]. *)
Definition framed (h0 : heap) (d : loc) (rs : list loc) (h : heap) : Prop :=
  h0 ⊆ h ∧ getRows h d = Some rs.

(** Follows the spec's words: three fixed ladders chosen by range. *)
Definition ladder (maxYears : R) : list R :=
  if Rle_dec maxYears 100 then [0; 10; 25; 50; 100]
  else if Rle_dec maxYears 1000 then [0; 100; 250; 500; 1000]
  else [0; 1000; 5000; 10000; 50000; 100000].

(** Follows the spec's words: the ladder filtered to values [<= maxYears]. *)
Definition selectTimeSteps (maxYears : R) : list R :=
  List.filter (λ t, Rleb t maxYears) (ladder maxYears).

(** Follows the spec's words: aspect from the centered differences divided
    by [2 * cellSize]. *)
Definition aspectRadians (this : WeatheringMap) (h : heap) (x y : nat)
  : option R :=
  ds ← getTerrain h (elevation this);
  let z := elevationData ds in
  edge ← atEdge h z x y;
  if edge : bool then Some 0
  else
    zE ← readCell h z y (x + 1);
    zW ← readCell h z y (x - 1);
    dzdx ← divide (zE - zW) (2 * cellSize ds);
    zS ← readCell h z (y + 1) x;
    zN ← readCell h z (y - 1) x;
    dzdy ← divide (zS - zN) (2 * cellSize ds);
    Some (Math_atan2 (- dzdy) dzdx).

(** A grid every cell of which holds [e]. *)
Definition flat (e : R) (G : grid) : Prop :=
  Forall (Forall (λ v, v = e)) G.

(** The array [Array(height).fill().map(() => Array(width).fill(1))]. *)
Definition ones (t : terrain) : grid :=
  replicate (height t) (replicate (width t) 1).

(** [simulateErosion] on the terrain [tm] runs the erosion pass to its end,
    then the deposition pass, and in each pass the slope of a cell is the
    one [calculateSlope] computes on the terrain [src] in the heap as it is
    when that pass starts. *)
Definition slopeSourced (this : WeatheringMap) (src : loc) (h : heap)
    (tm : loc) (years : R) (g : Random) : Prop :=
  ∃ t h1 h2 g',
    getTerrain h tm = Some t
    ∧ applyErosion this h tm (ones t) years = Some h1
    ∧ applyDeposition this h1 tm (ones t) years = Some h2
    ∧ simulateErosion this h tm years g = Some (h2, g')
    ∧ ∀ x y, (x < width t)%nat → (y < height t)%nat →
        ∃ v s v1 s1,
          readCell h (elevationData t) y x = Some v
          ∧ calculateSlope (withElevation this src) h x y = Some s
          ∧ readCell h1 (elevationData t) y x = Some v1
          ∧ v1 = v - 0.00005 * years * 1 * (s / 45)
          ∧ calculateSlope (withElevation this src) h1 x y = Some s1
          ∧ readCell h2 (elevationData t) y x
            = Some (if Rlt_dec s1 10
                    then v1 + Rmax 0 (0.00002 * years * 1 * (1 - s1 / 90))
                    else v1).

(** [simulateErosion] on the terrain [tm], in a heap [h] that holds the
    dataset [tb] of [this] as it was loaded in [h0]: the erosion pass runs
    to its end, then the deposition pass.  Neither pass writes to the
    dataset: nothing that was in [h0] is changed, the dataset object and
    every one of its cells read the same before, between and after the
    passes.  Hence the slope of a cell is one number [s], the slope of the
    dataset, in both passes. *)
Definition slopesOfDataset (this : WeatheringMap) (h0 : heap) (tb : terrain)
    (h : heap) (tm : loc) (years : R) (g : Random) : Prop :=
  ∃ t h1 h2 g',
    getTerrain h tm = Some t
    ∧ applyErosion this h tm (ones t) years = Some h1
    ∧ applyDeposition this h1 tm (ones t) years = Some h2
    ∧ simulateErosion this h tm years g = Some (h2, g')
    ∧ h0 ⊆ h ∧ h0 ⊆ h1 ∧ h0 ⊆ h2
    ∧ getTerrain h (elevation this) = Some tb
    ∧ getTerrain h1 (elevation this) = Some tb
    ∧ getTerrain h2 (elevation this) = Some tb
    ∧ ∀ x y, (x < width t)%nat → (y < height t)%nat →
        ∃ e s v,
          readCell h0 (elevationData tb) y x = Some e
          ∧ readCell h (elevationData tb) y x = Some e
          ∧ readCell h1 (elevationData tb) y x = Some e
          ∧ readCell h2 (elevationData tb) y x = Some e
          ∧ calculateSlope this h0 x y = Some s
          ∧ calculateSlope this h x y = Some s
          ∧ calculateSlope this h1 x y = Some s
          ∧ readCell h (elevationData t) y x = Some v
          ∧ readCell h1 (elevationData t) y x
            = Some (v - 0.00005 * years * 1 * (s / 45))
          ∧ readCell h2 (elevationData t) y x
            = Some (if Rlt_dec s 10
                    then v - 0.00005 * years * 1 * (s / 45)
                         + Rmax 0 (0.00002 * years * 1 * (1 - s / 90))
                    else v - 0.00005 * years * 1 * (s / 45)).

(** ** Example sessions *)

(** A 3 x 3 dataset with 1000 m cells, 500 m and 2500 m on either side of
    its centre, and all three weathering rates equal to 1. *)
Definition exampleMap : WeatheringMap :=
  {| elevation := 1%positive; physical := 1; chemical := 1; biological := 1 |}.

Definition exampleTerrain : terrain := Terrain 3 3 1000 2%positive.

Definition exampleRows : list loc := [3; 4; 5]%positive.

Definition exampleGrid : grid := [[0; 0; 0]; [500; 0; 2500]; [0; 0; 0]].

Definition exampleHeap : heap :=
  <[1%positive := OTerrain exampleTerrain]>
    (<[2%positive := ORows exampleRows]>
       (<[3%positive := ONums [0; 0; 0]]>
          (<[4%positive := ONums [500; 0; 2500]]>
             (<[5%positive := ONums [0; 0; 0]]> ∅)))).

(** A random source all of whose draws are 0. *)
Definition noRandom : Random := MkRandom (λ _, 0) 0.

(** [projectWeathering] returns a snapshot every cell of which holds [e]
    less [loss]. *)
Definition uniformLoss (this : WeatheringMap) (h0 : heap) (e years : R)
    (g : Random) (loss : R) : Prop :=
  ∃ w h' g' tw,
    projectWeathering this h0 years g = Some (w, h', g')
    ∧ getTerrain h' w = Some tw
    ∧ ∀ x y, (x < width tw)%nat → (y < height tw)%nat →
        readCell h' (elevationData tw) y x = Some (e - loss).

(** A flat 3 x 3 dataset at 2500 m, read by [exampleMap]. *)
Definition flatGrid : grid :=
  [[2500; 2500; 2500]; [2500; 2500; 2500]; [2500; 2500; 2500]].

Definition flatHeap : heap :=
  <[1%positive := OTerrain exampleTerrain]>
    (<[2%positive := ORows exampleRows]>
       (<[3%positive := ONums [2500; 2500; 2500]]>
          (<[4%positive := ONums [2500; 2500; 2500]]>
             (<[5%positive := ONums [2500; 2500; 2500]]> ∅)))).

(** ** The rate model and the loading of datasets

    [loadDatasets], the four fetchers and [createWeatheringMap] are [async]
    functions that await values computed on the spot: each [await] is
    sequencing, and the embedding is the function's body run in order.
    The output of [console.log] is not modelled. *)

(** The records returned by the dataset fetchers
    ([this.datasets.geology], [.climate], [.vegetation]), with the fields
    of the source. *)
Record geology := Geology {
  rockType : string;
  mineralComposition : list (string * R);
  faultLines : list unit;
  rockHardness : R
}.

Record climate := Climate {
  temperature : R;
  tempRange : R;
  precipitation : R;
  freezeThawCycles : R;
  pH : R;
  prevailingWindDirection : R;
  windSpeed : R
}.

Record vegetation := Vegetation {
  coverage : R;
  types : list string;
  rootDepth : R;
  leafAreaIndex : R
}.

(** [rockHardnessIndex[rockType]] for a [rockType] that is not an
    [inheritedName]: the own properties of the object literal. *)
Definition rockHardnessIndex (rockType : string) : option R :=
  if String.eqb rockType "granite" then Some 0.2
  else if String.eqb rockType "limestone" then Some 0.6
  else if String.eqb rockType "sandstone" then Some 0.8
  else if String.eqb rockType "shale" then Some 0.9
  else None.

(** [v || d] for a number or [undefined] [v]. *)
Definition orElse (v : option R) (d : R) : R :=
  match v with
  | Some r => if truthy r then r else d
  | None => d
  end.

Definition calculatePhysicalWeathering
    (tempRange freezeThawCycles precipitation : R) (rockType : string) : R :=
  let hardness := orElse (rockHardnessIndex rockType) 0.5 in
  let tempFactor := tempRange / 40 in
  let freezeThawFactor := freezeThawCycles / 100 in
  let precipFactor := precipitation / 2000 in
  (tempFactor * 0.4 + freezeThawFactor * 0.4 + precipFactor * 0.2) * hardness.

Definition calculateChemicalWeathering (precipitation temperature : R)
    (mineralComposition : list (string * R)) (pH : R) : R :=
  let tempFactor := Rmin (temperature / 30) 1 in
  let precipFactor := Rmin (precipitation / 2000) 1 in
  let mineralFactor := calculateMineralReactivity mineralComposition in
  let pHFactor := Rabs (pH - 7) / 7 in
  tempFactor * 0.3 + precipFactor * 0.3 + mineralFactor * 0.3 + pHFactor * 0.1.

Definition calculateBiologicalWeathering
    (vegetationCoverage rootDepth temperature : R) : R :=
  let coverageFactor := vegetationCoverage / 100 in
  let rootFactor := rootDepth / 10 in
  let tempFactor := 1 - Rabs (temperature - 25) / 25 in
  coverageFactor * 0.4 + rootFactor * 0.3 + tempFactor * 0.3.

(** [this] after [calculateWeatheringRates], for the datasets given. *)
Definition calculateWeatheringRates (elevationDataset : loc)
    (geo : geology) (cli : climate) (veg : vegetation)
  : WeatheringMap :=
  {| elevation := elevationDataset;
     physical :=
       calculatePhysicalWeathering (tempRange cli) (freezeThawCycles cli)
         (precipitation cli) (rockType geo);
     chemical :=
       calculateChemicalWeathering (precipitation cli) (temperature cli)
         (mineralComposition geo) (pH cli);
     biological :=
       calculateBiologicalWeathering (coverage veg) (rootDepth veg)
         (temperature cli) |}.

(** The mock fetchers. *)
Definition fetchGeologyData (lat lng radius : R) : geology :=
  Geology "limestone"
    [("calcite"%string, 0.8); ("quartz"%string, 0.1); ("feldspar"%string, 0.1)]
    [] 3.

Definition fetchClimateData (lat lng radius : R) : climate :=
  Climate 15 25 1000 30 6.5 270 5.

Definition fetchVegetationData (lat lng radius : R) : vegetation :=
  Vegetation 70 ["forest"%string; "shrub"%string] 3 2.3.

(** One cell of the mock terrain: a bell-shaped hill plus noise. *)
Definition mockElevation (gridSize : nat) (x y : nat) (g : Random)
  : R * Random :=
  let dx := INR x - INR gridSize / 2 in
  let dy := INR y - INR gridSize / 2 in
  let distanceFromCenter := sqrt (dx * dx + dy * dy) in
  let baseElevation := 100 in
  let hillHeight :=
    500 * exp (- distanceFromCenter * distanceFromCenter
               / (INR gridSize * 5)) in
  let '(r, g') := Math_random g in
  let noise := r * 10 in
  (baseElevation + hillHeight + noise, g').

(** [fetchElevationData]: the rows are built by [push] and become heap
    objects when the terrain object is returned. *)
Definition fetchElevationData (h : heap) (lat lng radius : R) (g : Random)
  : option (loc * heap * Random) :=
  let gridSize := 50%nat in
  let cellSize := (radius * 2) / INR gridSize in
  '(elevationData, g') ←
    forEach (seq 0 gridSize) (λ y '(elevationData, g),
      '(row, g') ←
        forEach (seq 0 gridSize) (λ x '(row, g),
          let '(e, g') := mockElevation gridSize x y g in
          Some (row ++ [e], g'))
          ([], g);
      Some (elevationData ++ [row], g'))
      ([], g);
  let '(rs, h1) := allocAll h (ONums <$> elevationData) in
  let '(data, h2) := alloc h1 (ORows rs) in
  let '(l, h3) := alloc h2 (OTerrain (Terrain gridSize gridSize cellSize data)) in
  Some (l, h3, g').

(** [loadDatasets]: the state of [this] (the fields the projection reads)
    after the four fetches and [calculateWeatheringRates]. *)
Definition loadDatasets (h : heap) (lat lng radius : R) (g : Random)
  : option (WeatheringMap * heap * Random) :=
  '(elev, h', g') ← fetchElevationData h lat lng radius g;
  let geo := fetchGeologyData lat lng radius in
  let cli := fetchClimateData lat lng radius in
  let veg := fetchVegetationData lat lng radius in
  Some (calculateWeatheringRates elev geo cli veg, h', g').

(** [generateColorLegend]. *)
Definition generateColorLegend : list (R * string) * list (R * string) :=
  ([(0, "#0077be"%string); (50, "#c2b280"%string); (100, "#567d46"%string);
    (300, "#8B4513"%string); (600, "#a9a9a9"%string);
    (1000, "#FFFFFF"%string)],
   [(0, "#FFFFFF"%string); (0.2, "#FFFF00"%string); (0.5, "#FFA500"%string);
    (1.0, "#FF0000"%string)]).

(** The object returned by [visualizeWeathering]. *)
Record Visualization := {
  vis_models : list (R * loc);
  vis_legend : list (R * string) * list (R * string);
  totalWeatheringRate : R;
  physicalRate : R;
  chemicalRate : R;
  biologicalRate : R
}.

Definition visualizeWeathering (this : WeatheringMap)
    (models : list (R * loc)) : Visualization :=
  {| vis_models := models;
     vis_legend := generateColorLegend;
     totalWeatheringRate := calculateTotalWeatheringRate this;
     physicalRate := physical this;
     chemicalRate := chemical this;
     biologicalRate := biological this |}.

(** [createWeatheringMap]: [loadDatasets] with its default radius 10, the
    models and the visualization. *)
Definition createWeatheringMap (h : heap) (latitude longitude years : R)
    (g : Random)
  : option (list (R * loc) * Visualization * WeatheringMap * heap * Random) :=
  '(map, h1, g1) ← loadDatasets h latitude longitude 10 g;
  '(models, h2, g2) ← generateWeatheringModels map h1 years g1;
  let visualization := visualizeWeathering map models in
  Some (models, visualization, map, h2, g2).

(** In heap [h], [w] is a terrain model that did not exist in [h0], with the
    dimensions of the dataset [tb], holding in every cell the dataset's
    number (as read in [h0]) after the three passes for [ts] years. *)
Definition snapshotOf (this : WeatheringMap) (h0 : heap) (tb : terrain)
    (h : heap) (ts : R) (w : loc) : Prop :=
  ∃ tw,
    getTerrain h w = Some tw
    ∧ width tw = width tb ∧ height tw = height tb
    ∧ cellSize tw = cellSize tb
    ∧ h0 !! w = None
    ∧ ∀ x y, (x < width tb)%nat → (y < height tb)%nat →
        ∃ v, readCell h0 (elevationData tb) y x = Some v
             ∧ readCell h (elevationData tw) y x
               = Some (projected this h0 ts x y v).

(** A composition with every abundance multiplied by [k]. *)
Definition scaleAbundances (k : R) (mineralComposition : list (string * R))
  : list (string * R) :=
  (λ '(mineral, percentage), (mineral, k * percentage)) <$> mineralComposition.

(** The numbers [fetchElevationData] computes: row [y], column [x] is made
    with the draw number [gridSize * y + x] from the state [g]. *)
Definition mockGrid (gridSize : nat) (g : Random) : grid :=
  (λ y, (λ x, (mockElevation gridSize x y
                 (MkRandom (stream g) (drawn g + gridSize * y + x))).1)
        <$> seq 0 gridSize)
  <$> seq 0 gridSize.

(** The draws of [Math.random] lie in [0, 1). *)
Definition unitDraws (g : Random) : Prop := ∀ n, 0 <= stream g n < 1.

(** One of the eight direction codes [0 .. 7]. *)
Definition directionCode (d : R) : Prop := ∃ k : Z, d = IZR k ∧ (0 <= k <= 7)%Z.

(** * Properties *)

(** ** Loops *)

Section ForEach.
Context {A S : Type}.
Implicit Types (l : list A) (body : A → S → option S).

Lemma forEach_app l1 l2 body s :
  forEach (l1 ++ l2) body s = forEach l1 body s ≫= forEach l2 body.
Proof.
  revert s. induction l1 as [|a l1 IH]; intros s; simpl; [done|].
  destruct (body a s) as [s'|]; simpl; [apply IH | done].
Qed.

Lemma forEach_invariant (P : S → Prop) l body s s' :
  (∀ a s1 s2, a ∈ l → P s1 → body a s1 = Some s2 → P s2) →
  P s → forEach l body s = Some s' → P s'.
Proof.
  revert s. induction l as [|a l IH]; intros s Hstep HP Hrun; simpl in Hrun.
  - by inversion Hrun; subst.
  - destruct (body a s) as [s1|] eqn:Hb; simplify_eq/=.
    apply (IH s1); [|by eapply Hstep; [left| |]|done].
    intros ? ? ? ?. apply Hstep. by right.
Qed.

Lemma forEach_ext l body1 body2 s :
  (∀ a s1, a ∈ l → body1 a s1 = body2 a s1) →
  forEach l body1 s = forEach l body2 s.
Proof.
  revert s. induction l as [|a l IH]; intros s Hext; simpl; [done|].
  rewrite Hext by left. destruct (body2 a s); simpl; [|done].
  apply IH. intros ? ? ?. apply Hext. by right.
Qed.

End ForEach.

(** A loop nest is a single loop over the pairs of indices. *)
Lemma forEach_nested {A B C S : Type} (mk : A → B → C) (xs : list A)
    (ys : list B) (body : C → S → option S) (s : S) :
  forEach xs (λ a, forEach ys (λ b, body (mk a b))) s
  = forEach (a ← xs; mk a <$> ys) body s.
Proof.
  revert s. induction xs as [|a xs IH]; intros s; simpl; [done|].
  rewrite forEach_app.
  assert (Hin : ∀ s0, forEach ys (λ b, body (mk a b)) s0
                      = forEach (mk a <$> ys) body s0).
  { clear. induction ys as [|b ys IH]; intros s0; simpl; [done|].
    destruct (body (mk a b) s0); simpl; [apply IH | done]. }
  rewrite Hin. destruct (forEach (mk a <$> ys) body s); simpl; [apply IH | done].
Qed.

(** A loop whose body never fails on states satisfying [P] returns. *)
Lemma forEach_total {A S : Type} (P : S → Prop) (l : list A)
    (body : A → S → option S) (s : S) :
  (∀ a s1, a ∈ l → P s1 → ∃ s2, body a s1 = Some s2 ∧ P s2) →
  P s → ∃ s', forEach l body s = Some s' ∧ P s'.
Proof.
  revert s. induction l as [|a l IH]; intros s Hstep HP.
  - by exists s.
  - destruct (Hstep a s) as (s1 & Hb & HP1); [left|done|].
    destruct (IH s1) as (s' & Hrun & HP'); [|done|].
    { intros ? ? ?. apply Hstep. by right. }
    exists s'. simpl. by rewrite Hb.
Qed.

(** ** Reading through a larger heap *)

Lemma getTerrain_weaken (h h' : heap) l t :
  getTerrain h l = Some t → h ⊆ h' → getTerrain h' l = Some t.
Proof.
  unfold getTerrain. intros H Hsub.
  destruct (h !! l) as [[]|] eqn:E; simplify_eq.
  by rewrite (lookup_weaken _ _ _ _ E Hsub).
Qed.

Lemma getRows_weaken (h h' : heap) l rs :
  getRows h l = Some rs → h ⊆ h' → getRows h' l = Some rs.
Proof.
  unfold getRows. intros H Hsub.
  destruct (h !! l) as [[]|] eqn:E; simplify_eq.
  by rewrite (lookup_weaken _ _ _ _ E Hsub).
Qed.

Lemma getNums_weaken (h h' : heap) l cs :
  getNums h l = Some cs → h ⊆ h' → getNums h' l = Some cs.
Proof.
  unfold getNums. intros H Hsub.
  destruct (h !! l) as [[]|] eqn:E; simplify_eq.
  by rewrite (lookup_weaken _ _ _ _ E Hsub).
Qed.

Lemma readCell_weaken (h h' : heap) d y x v :
  readCell h d y x = Some v → h ⊆ h' → readCell h' d y x = Some v.
Proof.
  unfold readCell. intros H Hsub.
  apply bind_Some in H as (rs & Hrs & H).
  apply bind_Some in H as (r & Hr & H).
  apply bind_Some in H as (cs & Hcs & H).
  rewrite (getRows_weaken _ _ _ _ Hrs Hsub). simpl. rewrite Hr. simpl.
  rewrite (getNums_weaken _ _ _ _ Hcs Hsub). done.
Qed.

Lemma atEdge_weaken (h h' : heap) d x y b :
  atEdge h d x y = Some b → h ⊆ h' → atEdge h' d x y = Some b.
Proof.
  unfold atEdge. intros H Hsub.
  destruct ((x =? 0)%nat || (y =? 0)%nat)%bool; [done|].
  apply bind_Some in H as (rs & Hrs & H).
  apply bind_Some in H as (r & Hr & H).
  apply bind_Some in H as (cs & Hcs & H).
  rewrite (getRows_weaken _ _ _ _ Hrs Hsub). simpl. rewrite Hr. simpl.
  rewrite (getNums_weaken _ _ _ _ Hcs Hsub). done.
Qed.

Ltac weaken_step H Hsub :=
  let a := fresh "a" in
  let Ha := fresh "Ha" in
  apply bind_Some in H as (a & Ha & H);
  first [ rewrite (getTerrain_weaken _ _ _ _ Ha Hsub)
        | rewrite (atEdge_weaken _ _ _ _ _ _ Ha Hsub)
        | rewrite (readCell_weaken _ _ _ _ _ _ Ha Hsub)
        | rewrite Ha ];
  simpl.

Lemma calculateSlope_weaken this (h h' : heap) x y s :
  calculateSlope this h x y = Some s → h ⊆ h' →
  calculateSlope this h' x y = Some s.
Proof.
  unfold calculateSlope. intros H Hsub.
  do 2 weaken_step H Hsub. destruct a0; [done|].
  by do 6 weaken_step H Hsub.
Qed.

Lemma calculateAspect_weaken this (h h' : heap) x y s :
  calculateAspect this h x y = Some s → h ⊆ h' →
  calculateAspect this h' x y = Some s.
Proof.
  unfold calculateAspect. intros H Hsub.
  do 2 weaken_step H Hsub. destruct a0; [done|].
  by do 4 weaken_step H Hsub.
Qed.

Lemma calculateCellWeathering_weaken this (h h' : heap) x y i c :
  calculateCellWeathering this h x y i = Some c → h ⊆ h' →
  calculateCellWeathering this h' x y i = Some c.
Proof.
  unfold calculateCellWeathering. intros H Hsub.
  apply bind_Some in H as (s & Hs & H).
  rewrite (calculateSlope_weaken _ _ _ _ _ _ Hs Hsub). simpl.
  apply bind_Some in H as (a & Ha & H).
  rewrite (calculateAspect_weaken _ _ _ _ _ _ Ha Hsub). simpl.
  by do 2 weaken_step H Hsub.
Qed.

(** ** In-place updates *)

Lemma updateCell_Some (h : heap) d y x f h' :
  updateCell h d y x f = Some h' ↔
  ∃ rs r cs v, getRows h d = Some rs ∧ rs !! y = Some r
    ∧ getNums h r = Some cs ∧ cs !! x = Some v
    ∧ h' = <[r := ONums (<[x := f v]> cs)]> h.
Proof.
  unfold updateCell. split.
  - intros H.
    apply bind_Some in H as (rs & Hrs & H).
    apply bind_Some in H as (r & Hr & H).
    apply bind_Some in H as (cs & Hcs & H).
    apply bind_Some in H as (v & Hv & H).
    exists rs, r, cs, v. by simplify_eq.
  - intros (rs & r & cs & v & -> & Hr & Hcs & Hv & ->). simpl.
    rewrite Hr. simpl. rewrite Hcs. simpl. by rewrite Hv.
Qed.

(** Overwriting an array of numbers by an array of numbers changes no
    terrain object and no outer array. *)
Lemma getTerrain_insert_nums (h : heap) r cs cs' l :
  getNums h r = Some cs →
  getTerrain (<[r := ONums cs']> h) l = getTerrain h l.
Proof.
  unfold getNums, getTerrain. intros H.
  destruct (decide (r = l)) as [->|Hne].
  - rewrite lookup_insert_eq. by destruct (h !! l) as [[]|].
  - by rewrite lookup_insert_ne.
Qed.

Lemma getRows_insert_nums (h : heap) r cs cs' l :
  getNums h r = Some cs →
  getRows (<[r := ONums cs']> h) l = getRows h l.
Proof.
  unfold getNums, getRows. intros H.
  destruct (decide (r = l)) as [->|Hne].
  - rewrite lookup_insert_eq. by destruct (h !! l) as [[]|].
  - by rewrite lookup_insert_ne.
Qed.

Lemma getNums_insert_eq (h : heap) r cs' :
  getNums (<[r := ONums cs']> h) r = Some cs'.
Proof. unfold getNums. by rewrite lookup_insert_eq. Qed.

Lemma getNums_insert_ne (h : heap) r o l :
  r ≠ l → getNums (<[r := o]> h) l = getNums h l.
Proof. unfold getNums. intros. by rewrite lookup_insert_ne. Qed.

Lemma updateCell_getTerrain (h : heap) d y x f h' l :
  updateCell h d y x f = Some h' → getTerrain h' l = getTerrain h l.
Proof.
  intros (rs & r & cs & v & _ & _ & Hcs & _ & ->)%updateCell_Some.
  by eapply getTerrain_insert_nums.
Qed.

Lemma updateCell_getRows (h : heap) d y x f h' l :
  updateCell h d y x f = Some h' → getRows h' l = getRows h l.
Proof.
  intros (rs & r & cs & v & _ & _ & Hcs & _ & ->)%updateCell_Some.
  by eapply getRows_insert_nums.
Qed.

Lemma list_insert_as_alter (f : R → R) (cs : list R) x v :
  cs !! x = Some v → <[x := f v]> cs = alter f x cs.
Proof.
  intros Hv. apply list_eq. intros i.
  rewrite list_lookup_alter. destruct (decide (x = i)) as [->|Hne].
  - rewrite list_lookup_insert_eq by by eapply lookup_lt_Some.
    by rewrite Hv.
  - by rewrite list_lookup_insert_ne.
Qed.

(** ** Terrains in the heap *)

Lemma represents_weaken (h h' : heap) l t rs G :
  represents h l t rs G → h ⊆ h' → represents h' l t rs G.
Proof.
  intros (Ht & Hrs & Hrows & Hrect) Hsub. repeat split.
  - by eapply getTerrain_weaken.
  - by eapply getRows_weaken.
  - eapply Forall2_impl; [exact Hrows|]. intros r row Hn. exact (getNums_weaken _ _ _ _ Hn Hsub).
  - apply Hrect.
  - apply Hrect.
Qed.

Lemma represents_row (h : heap) l t rs G y :
  represents h l t rs G → (y < height t)%nat →
  ∃ r row, rs !! y = Some r ∧ G !! y = Some row
           ∧ getNums h r = Some row ∧ length row = width t.
Proof.
  intros (Ht & Hrs & Hrows & HH & HW) Hy.
  destruct (lookup_lt_is_Some_2 G y) as [row Hrow]; [lia|].
  destruct (Forall2_lookup_r _ _ _ _ _ Hrows Hrow) as (r & Hr & Hnums).
  exists r, row. repeat split; try done.
  by eapply (proj1 (Forall_lookup _ _) HW).
Qed.

Lemma represents_readCell (h : heap) l t rs G y x :
  represents h l t rs G → (x < width t)%nat → (y < height t)%nat →
  ∃ v, cell G y x = Some v ∧ readCell h (elevationData t) y x = Some v.
Proof.
  intros Hrep Hx Hy.
  destruct (represents_row _ _ _ _ _ _ Hrep Hy) as (r & row & Hr & Hrow & Hn & Hlen).
  destruct (lookup_lt_is_Some_2 row x) as [v Hv]; [lia|].
  destruct Hrep as (Ht & Hrs & _).
  exists v. unfold cell, readCell. rewrite Hrow, Hrs. simpl.
  rewrite Hr. simpl. rewrite Hn. done.
Qed.

Lemma represents_readCell_cell (h : heap) l t rs G y x :
  represents h l t rs G → readCell h (elevationData t) y x = cell G y x.
Proof.
  intros (Ht & Hrs & Hrows & _). unfold readCell, cell. rewrite Hrs. simpl.
  destruct (rs !! y) as [r|] eqn:Hr; simpl.
  - destruct (Forall2_lookup_l _ _ _ _ _ Hrows Hr) as (row & Hrow & Hn).
    by rewrite Hrow, Hn.
  - apply lookup_ge_None in Hr. rewrite (Forall2_length _ _ _ Hrows) in Hr.
    apply lookup_ge_None in Hr. by rewrite Hr.
Qed.

Lemma owns_updateCell (h0 h : heap) l t rs G x y f :
  owns h0 h l t rs G → (x < width t)%nat → (y < height t)%nat →
  ∃ h', updateCell h (elevationData t) y x f = Some h'
        ∧ owns h0 h' l t rs (alter (alter f x) y G).
Proof.
  intros (Hsub & Hrep & Hnd & Hfresh) Hx Hy.
  destruct (represents_row _ _ _ _ _ _ Hrep Hy) as (r & row & Hr & Hrow & Hn & Hlen).
  destruct (lookup_lt_is_Some_2 row x) as [v Hv]; [lia|].
  destruct Hrep as (Ht & Hrs & Hrows & HH & HW).
  eexists. split.
  { apply updateCell_Some. by exists rs, r, row, v. }
  rewrite (list_insert_as_alter _ _ _ _ Hv).
  split; [|split; [|done]].
  { apply insert_subseteq_r; [|done].
    by eapply (proj1 (Forall_lookup _ _) Hfresh). }
  split; [|split; [|split]].
  - by rewrite (getTerrain_insert_nums _ _ _ _ _ Hn).
  - by rewrite (getRows_insert_nums _ _ _ _ _ Hn).
  - apply Forall2_same_length_lookup. split.
    { rewrite length_alter. by eapply Forall2_length. }
    intros i r' row' Hr' Hrow'.
    rewrite list_lookup_alter in Hrow'.
    destruct (decide (y = i)) as [<-|Hne].
    + rewrite Hrow in Hrow'. simplify_eq/=. apply getNums_insert_eq.
    + rewrite getNums_insert_ne.
      * exact (Forall2_lookup_lr _ _ _ _ _ _ Hrows Hr' Hrow').
      * intros ->. apply Hne. exact (NoDup_lookup _ _ _ _ Hnd Hr Hr').
  - split; [by rewrite length_alter|].
    apply Forall_lookup. intros i row' Hrow'.
    rewrite list_lookup_alter in Hrow'.
    destruct (decide (y = i)) as [<-|Hne].
    + rewrite Hrow in Hrow'. simplify_eq/=. by rewrite length_alter.
    + by eapply (proj1 (Forall_lookup _ _) HW).
Qed.

(** ** Allocation and cloning *)

Lemma alloc_spec (h : heap) o l h' :
  alloc h o = (l, h') → h !! l = None ∧ h' = <[l := o]> h.
Proof.
  unfold alloc. intros [= <- <-]. split; [|done].
  apply not_elem_of_dom, is_fresh.
Qed.

Lemma allocAll_spec (h : heap) os ls h' :
  allocAll h os = (ls, h') →
  h ⊆ h' ∧ NoDup ls ∧ Forall (λ l, h !! l = None) ls
  ∧ Forall2 (λ l o, h' !! l = Some o) ls os.
Proof.
  revert h ls h'. induction os as [|o os IH]; intros h ls h' Hrun.
  - simpl in Hrun. simplify_eq. split; [done|]. split; [constructor|]. split; constructor.
  - cbn [allocAll] in Hrun. destruct (alloc h o) as [l h1] eqn:Ha.
    destruct (allocAll h1 os) as [ls' h2] eqn:Hrest. simplify_eq.
    apply alloc_spec in Ha as [Hl ->].
    destruct (IH _ _ _ Hrest) as (Hsub & Hnd & Hfresh & Hall).
    assert (Hsub0 : h ⊆ <[l:=o]> h) by by apply insert_subseteq.
    split; [|split; [|split]].
    + etrans; [exact Hsub0 | exact Hsub].
    + constructor; [|done]. intros Hin.
      apply (proj1 (Forall_forall _ _) Hfresh) in Hin.
      by rewrite lookup_insert_eq in Hin.
    + constructor; [done|].
      eapply Forall_impl; [exact Hfresh|]. intros l' Hl'. simpl in Hl'.
      by eapply lookup_weaken_None.
    + constructor; [|done].
      eapply lookup_weaken; [|exact Hsub]. apply lookup_insert_eq.
Qed.

Lemma cloneTerrainModel_Some (h0 : heap) l w h1 :
  cloneTerrainModel h0 l = Some (w, h1) →
  ∃ t rs G rs' d',
    getTerrain h0 l = Some t
    ∧ getRows h0 (elevationData t) = Some rs
    ∧ Forall2 (λ r row, getNums h0 r = Some row) rs G
    ∧ h0 ⊆ h1
    ∧ getTerrain h1 w = Some (Terrain (width t) (height t) (cellSize t) d')
    ∧ getRows h1 d' = Some rs'
    ∧ Forall2 (λ r row, getNums h1 r = Some row) rs' G
    ∧ NoDup rs' ∧ Forall (λ r, h0 !! r = None) rs'.
Proof.
  unfold cloneTerrainModel. intros H.
  apply bind_Some in H as (t & Ht & H).
  apply bind_Some in H as (rs & Hrs & H).
  apply bind_Some in H as (G & HG & H).
  apply mapM_Some in HG.
  destruct (allocAll h0 (ONums <$> G)) as [rs' ha] eqn:Hall.
  destruct (alloc ha (ORows rs')) as [d' hb] eqn:Hd.
  destruct (alloc hb _) as [w' hc] eqn:Hw. simplify_eq.
  apply allocAll_spec in Hall as (Hsub & Hnd & Hfresh & Hrows).
  apply alloc_spec in Hd as [Hd ->].
  apply alloc_spec in Hw as [Hw ->].
  assert (Hsub1 : ha ⊆ <[d':=ORows rs']> ha) by by apply insert_subseteq.
  assert (Hsub2 : <[d':=ORows rs']> ha ⊆ <[w:=OTerrain (Terrain (width t) (height t) (cellSize t) d')]> (<[d':=ORows rs']> ha))
    by by apply insert_subseteq.
  exists t, rs, G, rs', d'. repeat split; try done.
  - etrans; [exact Hsub|]. etrans; [exact Hsub1 | exact Hsub2].
  - unfold getTerrain. by rewrite lookup_insert_eq.
  - eapply getRows_weaken; [|exact Hsub2]. unfold getRows.
    by rewrite lookup_insert_eq.
  - apply Forall2_fmap_r in Hrows.
    eapply Forall2_impl; [exact Hrows|]. intros r row Hr. simpl in Hr.
    unfold getNums.
    by rewrite (lookup_weaken _ _ _ _ (lookup_weaken _ _ _ _ Hr Hsub1) Hsub2).
Qed.

Lemma cloneTerrainModel_total (h0 : heap) l t rs G :
  represents h0 l t rs G → is_Some (cloneTerrainModel h0 l).
Proof.
  intros (Ht & Hrs & Hrows & _). unfold cloneTerrainModel.
  rewrite Ht. simpl. rewrite Hrs. simpl.
  apply mapM_Some in Hrows. rewrite Hrows. simpl.
  destruct (allocAll h0 (ONums <$> G)) as [rs' ha].
  destruct (alloc ha (ORows rs')) as [d' hb]. by eexists.
Qed.

(** Cloning a well-formed terrain yields a terrain with the same numbers,
    owned by the clone. *)
Lemma cloneTerrainModel_owns (h0 : heap) l t rs G :
  represents h0 l t rs G →
  ∃ w h1 t' rs',
    cloneTerrainModel h0 l = Some (w, h1)
    ∧ owns h0 h1 w t' rs' G
    ∧ width t' = width t ∧ height t' = height t ∧ cellSize t' = cellSize t.
Proof.
  intros Hrep. destruct (cloneTerrainModel_total _ _ _ _ _ Hrep) as [[w h1] Hc].
  destruct (cloneTerrainModel_Some _ _ _ _ Hc)
    as (t0 & rs0 & G0 & rs' & d' & Ht & Hrs & Hrows & Hsub & Hw & Hd & Hrows' & Hnd & Hfresh).
  destruct Hrep as (Ht' & Hrs' & Hrows0 & Hrect). simplify_eq.
  assert (G0 = G) as ->.
  { apply mapM_Some in Hrows, Hrows0. congruence. }
  exists w, h1, (Terrain (width t) (height t) (cellSize t) d'), rs'.
  repeat split; try done; apply Hrect.
Qed.

(** ** Slope, aspect and cell weathering on a well-formed dataset *)

Lemma atan_nonneg u : 0 <= u → 0 <= atan u.
Proof.
  intros [Hu | <-]; [|rewrite atan_0; lra].
  left. rewrite <- atan_0. by apply atan_increasing.
Qed.

Lemma degrees_pos : 0 < 180 / PI.
Proof. apply Rdiv_lt_0_compat; [lra | apply PI_RGT_0]. Qed.

Lemma calculateSlope_nonneg this (h : heap) x y s :
  calculateSlope this h x y = Some s → 0 <= s.
Proof.
  unfold calculateSlope. intros H.
  apply bind_Some in H as (ds & _ & H).
  apply bind_Some in H as ([] & _ & H); [simplify_eq; lra|].
  do 6 apply bind_Some in H as (? & _ & H). simplify_eq.
  apply Rmult_le_pos; [|left; apply degrees_pos].
  apply atan_nonneg, sqrt_pos.
Qed.

Lemma atEdge_represents (h : heap) l t rs G x y :
  represents h l t rs G → (x < width t)%nat → (y < height t)%nat →
  atEdge h (elevationData t) x y = Some (onEdge (width t) (height t) x y).
Proof.
  intros Hrep Hx Hy. unfold atEdge, onEdge.
  destruct ((x =? 0)%nat || (y =? 0)%nat)%bool eqn:E; [done|].
  assert (H0 : (0 < height t)%nat) by lia.
  destruct (represents_row _ _ _ _ _ _ Hrep H0) as (r0 & row0 & Hr0 & _ & Hn0 & Hlen0).
  destruct Hrep as (_ & Hrs & Hrows & HH & _).
  rewrite Hrs. simpl. rewrite Hr0. simpl. rewrite Hn0. simpl.
  rewrite Hlen0, (Forall2_length _ _ _ Hrows), HH. f_equal.
  f_equal.
  - destruct (x + 1 =? width t)%nat eqn:E1.
    + apply Nat.eqb_eq in E1. apply Z.eqb_eq. lia.
    + apply Nat.eqb_neq in E1. apply Z.eqb_neq. lia.
  - destruct (y + 1 =? height t)%nat eqn:E1.
    + apply Nat.eqb_eq in E1. apply Z.eqb_eq. lia.
    + apply Nat.eqb_neq in E1. apply Z.eqb_neq. lia.
Qed.

Lemma onEdge_false W H x y :
  onEdge W H x y = false →
  ((1 <= x ∧ x + 1 < W ∨ W <= x) ∧ (1 <= y ∧ y + 1 < H ∨ H <= y))%nat.
Proof.
  unfold onEdge. intros E.
  repeat (apply orb_false_iff in E as [E ?]).
  repeat match goal with H : (_ =? _)%nat = false |- _ => apply Nat.eqb_neq in H end.
  lia.
Qed.

Lemma divide_Some a b : b ≠ 0 → divide a b = Some (a / b).
Proof. unfold divide. intros. by destruct (Req_dec_T b 0). Qed.

(** The four neighbours of an interior cell. *)
Lemma represents_neighbours (h : heap) l t rs G x y :
  represents h l t rs G → (x < width t)%nat → (y < height t)%nat →
  onEdge (width t) (height t) x y = false →
  ∃ zE zW zS zN,
    readCell h (elevationData t) y (x + 1) = Some zE
    ∧ readCell h (elevationData t) y (x - 1) = Some zW
    ∧ readCell h (elevationData t) (y + 1) x = Some zS
    ∧ readCell h (elevationData t) (y - 1) x = Some zN
    ∧ cell G y (x + 1) = Some zE ∧ cell G y (x - 1) = Some zW
    ∧ cell G (y + 1) x = Some zS ∧ cell G (y - 1) x = Some zN.
Proof.
  intros Hrep Hx Hy He. apply onEdge_false in He.
  destruct (represents_readCell _ _ _ _ _ y (x + 1) Hrep) as (zE & ? & ?); [lia..|].
  destruct (represents_readCell _ _ _ _ _ y (x - 1) Hrep) as (zW & ? & ?); [lia..|].
  destruct (represents_readCell _ _ _ _ _ (y + 1) x Hrep) as (zS & ? & ?); [lia..|].
  destruct (represents_readCell _ _ _ _ _ (y - 1) x Hrep) as (zN & ? & ?); [lia..|].
  by exists zE, zW, zS, zN.
Qed.

Section Dataset.
Context (this : WeatheringMap) (h : heap) (t : terrain) (rs : list loc)
        (G : grid).
Hypothesis wf : wfDataset this h t rs G.

Lemma calculateSlope_edge x y :
  (x < width t)%nat → (y < height t)%nat →
  onEdge (width t) (height t) x y = true →
  calculateSlope this h x y = Some 0.
Proof using wf.
  intros Hx Hy He. destruct wf as [Hrep Hcs]. unfold calculateSlope.
  rewrite (proj1 Hrep). simpl.
  rewrite (atEdge_represents _ _ _ _ _ _ _ Hrep Hx Hy), He. done.
Qed.

Lemma calculateSlope_interior x y :
  (x < width t)%nat → (y < height t)%nat →
  onEdge (width t) (height t) x y = false →
  ∃ zE zW zS zN,
    cell G y (x + 1) = Some zE ∧ cell G y (x - 1) = Some zW
    ∧ cell G (y + 1) x = Some zS ∧ cell G (y - 1) x = Some zN
    ∧ calculateSlope this h x y =
        Some (atan (sqrt ((zE - zW) / (2 * cellSize t) * ((zE - zW) / (2 * cellSize t))
                          + (zS - zN) / (2 * cellSize t) * ((zS - zN) / (2 * cellSize t))))
              * (180 / PI)).
Proof using wf.
  intros Hx Hy He. destruct wf as [Hrep Hcs].
  destruct (represents_neighbours _ _ _ _ _ _ _ Hrep Hx Hy He)
    as (zE & zW & zS & zN & HE & HW & HS & HN & ? & ? & ? & ?).
  exists zE, zW, zS, zN. repeat split; try done.
  unfold calculateSlope. rewrite (proj1 Hrep). simpl.
  rewrite (atEdge_represents _ _ _ _ _ _ _ Hrep Hx Hy), He. simpl.
  rewrite HE, HW. simpl. rewrite divide_Some by lra. simpl.
  rewrite HS, HN. simpl. rewrite divide_Some by lra. done.
Qed.

Lemma calculateAspect_edge x y :
  (x < width t)%nat → (y < height t)%nat →
  onEdge (width t) (height t) x y = true →
  calculateAspect this h x y = Some 0.
Proof using wf.
  intros Hx Hy He. destruct wf as [Hrep Hcs]. unfold calculateAspect.
  rewrite (proj1 Hrep). simpl.
  rewrite (atEdge_represents _ _ _ _ _ _ _ Hrep Hx Hy), He. done.
Qed.

Lemma calculateAspect_interior x y :
  (x < width t)%nat → (y < height t)%nat →
  onEdge (width t) (height t) x y = false →
  ∃ zE zW zS zN,
    cell G y (x + 1) = Some zE ∧ cell G y (x - 1) = Some zW
    ∧ cell G (y + 1) x = Some zS ∧ cell G (y - 1) x = Some zN
    ∧ calculateAspect this h x y = Some (Math_atan2 (- (zS - zN)) (zE - zW)).
Proof using wf.
  intros Hx Hy He. destruct wf as [Hrep Hcs].
  destruct (represents_neighbours _ _ _ _ _ _ _ Hrep Hx Hy He)
    as (zE & zW & zS & zN & HE & HW & HS & HN & ? & ? & ? & ?).
  exists zE, zW, zS, zN. repeat split; try done.
  unfold calculateAspect. rewrite (proj1 Hrep). simpl.
  rewrite (atEdge_represents _ _ _ _ _ _ _ Hrep Hx Hy), He. simpl.
  rewrite HE, HW. simpl. rewrite HS, HN. done.
Qed.

Lemma calculateSlope_total x y :
  (x < width t)%nat → (y < height t)%nat →
  is_Some (calculateSlope this h x y).
Proof using wf.
  intros Hx Hy. destruct (onEdge (width t) (height t) x y) eqn:He.
  - rewrite calculateSlope_edge by done. by eexists.
  - destruct (calculateSlope_interior x y Hx Hy He)
      as (? & ? & ? & ? & _ & _ & _ & _ & ->). by eexists.
Qed.

Lemma calculateAspect_total x y :
  (x < width t)%nat → (y < height t)%nat →
  is_Some (calculateAspect this h x y).
Proof using wf.
  intros Hx Hy. destruct (onEdge (width t) (height t) x y) eqn:He.
  - rewrite calculateAspect_edge by done. by eexists.
  - destruct (calculateAspect_interior x y Hx Hy He)
      as (? & ? & ? & ? & _ & _ & _ & _ & ->). by eexists.
Qed.

Lemma calculateCellWeathering_total x y i :
  (x < width t)%nat → (y < height t)%nat →
  ∃ slope aspect elev,
    calculateSlope this h x y = Some slope
    ∧ calculateAspect this h x y = Some aspect
    ∧ cell G y x = Some elev
    ∧ calculateCellWeathering this h x y i =
        Some (i * (1 + slope / 45) * (1 + sin aspect * 0.2)
              * calculateElevationFactor elev).
Proof using wf.
  intros Hx Hy.
  destruct (calculateSlope_total x y Hx Hy) as [s Hs].
  destruct (calculateAspect_total x y Hx Hy) as [a Ha].
  destruct wf as [Hrep Hcs].
  destruct (represents_readCell _ _ _ _ _ y x Hrep Hx Hy) as (v & Hv & Hr).
  exists s, a, v. repeat split; try done.
  unfold calculateCellWeathering. rewrite Hs, Ha. simpl.
  rewrite (proj1 Hrep). simpl. by rewrite Hr.
Qed.

End Dataset.

(** ** Grids rewritten cell by cell *)

Lemma cell_alter (f : R → R) x0 y0 (G : grid) y x :
  cell (alter (alter f x0) y0 G) y x
  = if decide (x = x0 ∧ y = y0) then f <$> cell G y x else cell G y x.
Proof.
  unfold cell. rewrite list_lookup_alter.
  destruct (decide (y0 = y)) as [->|Hy].
  - destruct (G !! y) as [row|]; simpl.
    + rewrite list_lookup_alter. destruct (decide (x0 = x)) as [->|Hx].
      * by rewrite decide_True.
      * rewrite decide_False; [done|]. intros [? _]. by apply Hx.
    + by destruct (decide _).
  - rewrite decide_False; [done|]. intros [_ ?]. by apply Hy.
Qed.

Lemma alterCells_cons F x y cs (G : grid) :
  alterCells F ((x, y) :: cs) G = alterCells F cs (alter (alter (F x y) x) y G).
Proof. done. Qed.

Lemma cell_alterCells F cs (G : grid) y x :
  NoDup cs →
  cell (alterCells F cs G) y x
  = if decide ((x, y) ∈ cs) then F x y <$> cell G y x else cell G y x.
Proof.
  intros Hnd. revert G. induction Hnd as [|[x0 y0] cs Hnotin Hnd IH]; intros G.
  - done.
  - rewrite alterCells_cons, IH, cell_alter.
    destruct (decide (x = x0 ∧ y = y0)) as [[-> ->]|Hne].
    + rewrite decide_False by done. rewrite decide_True by left. done.
    + destruct (decide ((x, y) ∈ cs)) as [Hin|Hout].
      * rewrite decide_True by by right. done.
      * rewrite decide_False; [done|].
        intros [?|?]%elem_of_cons; [|done]. apply Hne. by simplify_eq.
Qed.

Lemma elem_of_columnMajor W H x y :
  (x, y) ∈ columnMajor W H ↔ (x < W ∧ y < H)%nat.
Proof.
  unfold columnMajor. rewrite list_elem_of_bind. split.
  - intros (x' & Hin & Hx'). apply list_elem_of_fmap in Hin as (y' & ? & Hy').
    apply elem_of_seq in Hx', Hy'. simplify_eq. lia.
  - intros [Hx Hy]. exists x. split.
    + apply list_elem_of_fmap. exists y. split; [done|]. apply elem_of_seq. lia.
    + apply elem_of_seq. lia.
Qed.

Lemma elem_of_rowMajor W H x y :
  (x, y) ∈ rowMajor W H ↔ (x < W ∧ y < H)%nat.
Proof.
  unfold rowMajor. rewrite list_elem_of_bind. split.
  - intros (y' & Hin & Hy'). apply list_elem_of_fmap in Hin as (x' & ? & Hx').
    apply elem_of_seq in Hx', Hy'. simplify_eq. lia.
  - intros [Hx Hy]. exists y. split.
    + apply list_elem_of_fmap. exists x. split; [done|]. apply elem_of_seq. lia.
    + apply elem_of_seq. lia.
Qed.

Lemma NoDup_columnMajor W H : NoDup (columnMajor W H).
Proof.
  unfold columnMajor. apply NoDup_bind.
  - intros x1 x2 [x y] _ _ (? & ? & _)%list_elem_of_fmap
      (? & ? & _)%list_elem_of_fmap. by simplify_eq.
  - intros x _. apply NoDup_fmap_2; [|apply NoDup_seq].
    intros ? ? ?. by simplify_eq.
  - apply NoDup_seq.
Qed.

Lemma NoDup_rowMajor W H : NoDup (rowMajor W H).
Proof.
  unfold rowMajor. apply NoDup_bind.
  - intros x1 x2 [x y] _ _ (? & ? & _)%list_elem_of_fmap
      (? & ? & _)%list_elem_of_fmap. by simplify_eq.
  - intros x _. apply NoDup_fmap_2; [|apply NoDup_seq].
    intros ? ? ?. by simplify_eq.
  - apply NoDup_seq.
Qed.

(** After every cell of the rectangle was rewritten once, in any order
    without repetition, each cell holds its rewritten value. *)
Lemma cell_alterCells_all F cs W H (G : grid) y x :
  NoDup cs → (∀ x y, (x, y) ∈ cs ↔ (x < W ∧ y < H)%nat) →
  (x < W)%nat → (y < H)%nat →
  cell (alterCells F cs G) y x = F x y <$> cell G y x.
Proof.
  intros Hnd Hall Hx Hy. rewrite cell_alterCells by done.
  rewrite decide_True; [done|]. by apply Hall.
Qed.

(** ** A loop over cells of an owned terrain *)

Lemma forEach_cells (h0 : heap) l t rs
    (body : nat * nat → heap → option heap) F cs :
  (∀ x y h G, (x, y) ∈ cs → owns h0 h l t rs G →
     ∃ h', body (x, y) h = Some h'
           ∧ owns h0 h' l t rs (alter (alter (F x y) x) y G)) →
  ∀ h G, owns h0 h l t rs G →
    ∃ h', forEach cs body h = Some h' ∧ owns h0 h' l t rs (alterCells F cs G).
Proof.
  induction cs as [|[x y] cs IH]; intros Hbody h G Hown.
  - by exists h.
  - destruct (Hbody x y h G) as (h1 & Hb & Hown1); [left|done|].
    destruct (IH (λ x y h G Hin, Hbody x y h G (list_elem_of_further _ _ _ Hin))
                h1 _ Hown1) as (h' & Hrun & Hown').
    exists h'. simpl. rewrite Hb. done.
Qed.

Lemma Math_sqrt_1 : Math_sqrt 1 = Some 1.
Proof.
  unfold Math_sqrt. destruct (Rle_dec 0 1); [by rewrite sqrt_1 | lra].
Qed.

Lemma alter_ext_cell (f g : R → R) x y (G : grid) :
  (∀ v, f v = g v) → alter (alter f x) y G = alter (alter g x) y G.
Proof.
  intros Hfg. apply list_alter_ext; [|done].
  intros row _. apply list_alter_ext; [|done]. intros. apply Hfg.
Qed.

Lemma alter_id_cell (f : R → R) x y (G : grid) :
  (∀ v, f v = v) → alter (alter f x) y G = G.
Proof.
  intros Hf. apply list_alter_id. intros row.
  apply list_alter_id. intros v. apply Hf.
Qed.

Lemma forEach_columnMajor {S : Type} (body : nat → nat → S → option S) W H s :
  forEach (seq 0 W) (λ x, forEach (seq 0 H) (λ y, body x y)) s
  = forEach (columnMajor W H) (λ c, body c.1 c.2) s.
Proof.
  exact (forEach_nested (λ x y, (x, y)) (seq 0 W) (seq 0 H)
           (λ c, body c.1 c.2) s).
Qed.

Lemma forEach_rowMajor {S : Type} (body : nat → nat → S → option S) W H s :
  forEach (seq 0 H) (λ y, forEach (seq 0 W) (λ x, body x y)) s
  = forEach (rowMajor W H) (λ c, body c.1 c.2) s.
Proof.
  exact (forEach_nested (λ y x, (x, y)) (seq 0 H) (seq 0 W)
           (λ c, body c.1 c.2) s).
Qed.

Lemma lookup_replicate_cell (W H : nat) (a : R) x y :
  (x < W)%nat → (y < H)%nat →
  replicate H (replicate W a) !! y = Some (replicate W a)
  ∧ replicate W a !! x = Some a.
Proof. intros. split; by apply lookup_replicate_2. Qed.

Section Passes.
Context (this : WeatheringMap) (h0 : heap) (tb : terrain) (rsb : list loc)
        (G0 : grid).
Hypothesis wf : wfDataset this h0 tb rsb G0.
Context (w : loc) (tw : terrain) (rs : list loc).
Hypothesis Hwidth : width tw = width tb.
Hypothesis Hheight : height tw = height tb.

Lemma wfDataset_weaken h : h0 ⊆ h → wfDataset this h tb rsb G0.
Proof using wf.
  intros Hsub. destruct wf as [Hrep Hcs]. split; [|done].
  by eapply represents_weaken.
Qed.

Lemma weatherCell_spec intensity h G x y :
  owns h0 h w tw rs G → (x < width tw)%nat → (y < height tw)%nat →
  ∃ h', weatherCell this tw intensity x y h = Some h'
        ∧ owns h0 h' w tw rs (alter (alter (weathered this h0 intensity x y) x) y G).
Proof using wf Hwidth Hheight.
  intros Hown Hx Hy.
  destruct (calculateCellWeathering_total this h0 tb rsb G0 wf x y intensity)
    as (s & a & e & _ & _ & _ & Hc); [lia..|].
  unfold weatherCell.
  rewrite (calculateCellWeathering_weaken _ _ _ _ _ _ _ Hc (proj1 Hown)). simpl.
  destruct (owns_updateCell _ _ _ _ _ _ x y
              (λ v, v - intensity * (1 + s / 45) * (1 + sin a * 0.2)
                        * calculateElevationFactor e) Hown Hx Hy)
    as (h' & Hu & Hown').
  exists h'. split; [done|].
  erewrite alter_ext_cell; [exact Hown'|].
  intros v. unfold weathered, cellLoss. by rewrite Hc.
Qed.

Lemma weatherLoop_spec intensity cs h G :
  (∀ x y, (x, y) ∈ cs → (x < width tw ∧ y < height tw)%nat) →
  owns h0 h w tw rs G →
  ∃ h', forEach cs (λ c, weatherCell this tw intensity c.1 c.2) h = Some h'
        ∧ owns h0 h' w tw rs (alterCells (weathered this h0 intensity) cs G).
Proof using wf Hwidth Hheight.
  intros Hcs. apply forEach_cells. intros x y h1 G1 Hin Hown1.
  destruct (Hcs _ _ Hin). by apply weatherCell_spec.
Qed.

Lemma applyErosion_spec years h G :
  owns h0 h w tw rs G →
  ∃ h', applyErosion this h w
          (replicate (height tw) (replicate (width tw) 1)) years = Some h'
        ∧ owns h0 h' w tw rs
            (alterCells (eroded this h0 years)
               (rowMajor (width tw) (height tw)) G).
Proof using wf Hwidth Hheight.
  intros Hown. unfold applyErosion.
  rewrite (proj1 (proj1 (proj2 Hown))). simpl.
  rewrite forEach_rowMajor.
  apply forEach_cells; [|done]. intros x y h1 G1 [Hx Hy]%elem_of_rowMajor Hown1.
  destruct (calculateSlope_total this h0 tb rsb G0 wf x y) as [s Hs]; [lia..|].
  cbn [fst snd].
  rewrite (calculateSlope_weaken _ _ _ _ _ _ Hs (proj1 Hown1)). simpl.
  destruct (lookup_replicate_cell (width tw) (height tw) 1 x y Hx Hy)
    as [Hrow Hacc].
  rewrite Hrow. simpl. rewrite Hacc. simpl. rewrite Math_sqrt_1. simpl.
  destruct (owns_updateCell _ _ _ _ _ _ x y
              (λ v, v - 0.00005 * years * 1 * (s / 45)) Hown1 Hx Hy)
    as (h' & Hu & Hown').
  exists h'. split; [done|].
  erewrite alter_ext_cell; [exact Hown'|].
  intros v. unfold eroded, slopeAt. by rewrite Hs.
Qed.

Lemma applyDeposition_spec years h G :
  owns h0 h w tw rs G →
  ∃ h', applyDeposition this h w
          (replicate (height tw) (replicate (width tw) 1)) years = Some h'
        ∧ owns h0 h' w tw rs
            (alterCells (deposited this h0 years)
               (rowMajor (width tw) (height tw)) G).
Proof using wf Hwidth Hheight.
  intros Hown. unfold applyDeposition.
  rewrite (proj1 (proj1 (proj2 Hown))). simpl.
  rewrite forEach_rowMajor.
  apply forEach_cells; [|done]. intros x y h1 G1 [Hx Hy]%elem_of_rowMajor Hown1.
  destruct (calculateSlope_total this h0 tb rsb G0 wf x y) as [s Hs]; [lia..|].
  cbn [fst snd].
  rewrite (calculateSlope_weaken _ _ _ _ _ _ Hs (proj1 Hown1)). simpl.
  destruct (lookup_replicate_cell (width tw) (height tw) 1 x y Hx Hy)
    as [Hrow Hacc].
  rewrite Hrow. simpl. rewrite Hacc. simpl. rewrite Math_sqrt_1. simpl.
  destruct (Rlt_dec s 10) as [Hflat|Hsteep].
  - destruct (owns_updateCell _ _ _ _ _ _ x y
                (λ v, v + Rmax 0 (0.00002 * years * 1 * (1 - s / 90)))
                Hown1 Hx Hy)
      as (h' & Hu & Hown').
    exists h'. split; [done|].
    erewrite alter_ext_cell; [exact Hown'|].
    intros v. unfold deposited, slopeAt. rewrite Hs. simpl.
    by destruct (Rlt_dec s 10).
  - exists h1. split; [done|].
    rewrite alter_id_cell; [done|]. intros v.
    unfold deposited, slopeAt. rewrite Hs. simpl.
    by destruct (Rlt_dec s 10).
Qed.

End Passes.


(** ** Flow directions and accumulation *)

Lemma calculateFlowDirections_total (h : heap) tm t g :
  getTerrain h tm = Some t →
  ∃ dirs g', calculateFlowDirections h tm g = Some (dirs, g')
             ∧ stream g' = stream g.
Proof.
  intros Ht. unfold calculateFlowDirections. rewrite Ht. simpl.
  rewrite forEach_rowMajor.
  destruct (forEach_total
    (λ s : list (list R) * Random,
       length s.1 = height t ∧ stream s.2 = stream g)
    (rowMajor (width t) (height t))
    (λ c '(directions, g0),
       let '(r, g') := Math_random g0 in
       row ← directions !! c.2;
       Some (<[c.2 := <[c.1 := Math_floor (r * 8)]> row]> directions, g'))
    (replicate (height t) (replicate (width t) 0), g))
    as ([dirs g'] & Hrun & _ & Hg').
  - intros [x y] [dirs g0] [Hx Hy]%elem_of_rowMajor [Hlen Hg0]. simpl in *.
    destruct (lookup_lt_is_Some_2 dirs y) as [row Hrow]; [lia|].
    rewrite Hrow. simpl. eexists. split; [done|]. simpl.
    by rewrite length_insert.
  - simpl. by rewrite length_replicate.
  - exists dirs, g'. split; [|done]. exact Hrun.
Qed.

Lemma calculateFlowDirections_None (h : heap) tm g :
  getTerrain h tm = None → calculateFlowDirections h tm g = None.
Proof. intros Ht. unfold calculateFlowDirections. by rewrite Ht. Qed.

(** The accumulation array is read from the terrain's dimensions alone: it
    is [1] in every cell, whatever the flow directions are. *)
Lemma calculateFlowAccumulation_ones (h : heap) dirs tm t :
  getTerrain h tm = Some t →
  calculateFlowAccumulation h dirs tm
  = Some (replicate (height t) (replicate (width t) 1)).
Proof. intros Ht. unfold calculateFlowAccumulation. by rewrite Ht. Qed.

Lemma simulateErosion_random this (h : heap) tm years g1 g2 :
  fst <$> simulateErosion this h tm years g1
  = fst <$> simulateErosion this h tm years g2.
Proof.
  unfold simulateErosion.
  destruct (getTerrain h tm) as [t|] eqn:Ht.
  - destruct (calculateFlowDirections_total h tm t g1 Ht) as (d1 & g1' & -> & _).
    destruct (calculateFlowDirections_total h tm t g2 Ht) as (d2 & g2' & -> & _).
    simpl. rewrite !(calculateFlowAccumulation_ones _ _ _ _ Ht). simpl.
    destruct (applyErosion _ _ _ _ _) as [h1|]; simpl; [|done].
    by destruct (applyDeposition _ _ _ _ _).
  - by rewrite !calculateFlowDirections_None.
Qed.

Section Projection.
Context (this : WeatheringMap) (h0 : heap) (tb : terrain) (rsb : list loc)
        (G0 : grid).
Hypothesis wf : wfDataset this h0 tb rsb G0.

Lemma simulateErosion_spec w tw rs years g h G :
  width tw = width tb → height tw = height tb →
  owns h0 h w tw rs G →
  ∃ h' g', simulateErosion this h w years g = Some (h', g')
    ∧ stream g' = stream g
    ∧ owns h0 h' w tw rs
        (alterCells (deposited this h0 years) (rowMajor (width tw) (height tw))
           (alterCells (eroded this h0 years)
              (rowMajor (width tw) (height tw)) G)).
Proof using wf.
  intros HW HH Hown. unfold simulateErosion.
  pose proof (proj1 (proj1 (proj2 Hown))) as Ht.
  destruct (calculateFlowDirections_total h w tw g Ht) as (d & g' & -> & Hg').
  simpl. rewrite (calculateFlowAccumulation_ones _ _ _ _ Ht). simpl.
  destruct (applyErosion_spec this h0 tb rsb G0 wf w tw rs HW HH years h G Hown)
    as (h1 & -> & Hown1).
  simpl.
  destruct (applyDeposition_spec this h0 tb rsb G0 wf w tw rs HW HH years h1 _ Hown1)
    as (h2 & -> & Hown2).
  simpl. by exists h2, g'.
Qed.

(** [projectWeathering] returns, and the snapshot it returns is owned by the
    call: every cell holds the dataset's number after the three passes. *)
Lemma projectWeathering_spec years g :
  ∃ w h' g' tw rs,
    projectWeathering this h0 years g = Some (w, h', g')
    ∧ stream g' = stream g
    ∧ width tw = width tb ∧ height tw = height tb
    ∧ cellSize tw = cellSize tb
    ∧ owns h0 h' w tw rs
        (alterCells (deposited this h0 years) (rowMajor (width tw) (height tw))
           (alterCells (eroded this h0 years) (rowMajor (width tw) (height tw))
              (alterCells
                 (weathered this h0 (years * calculateTotalWeatheringRate this))
                 (columnMajor (width tw) (height tw)) G0))).
Proof using wf.
  destruct (cloneTerrainModel_owns h0 (elevation this) tb rsb G0 (proj1 wf))
    as (w & h1 & tw & rs & Hclone & Hown & HW & HH & Hcs).
  unfold projectWeathering. rewrite Hclone. simpl.
  rewrite (proj1 (proj1 (proj2 Hown))). simpl.
  rewrite forEach_columnMajor.
  destruct (weatherLoop_spec this h0 tb rsb G0 wf w tw rs HW HH
              (years * calculateTotalWeatheringRate this)
              (columnMajor (width tw) (height tw)) h1 G0)
    as (h2 & -> & Hown2); [|done|].
  { intros x y. apply elem_of_columnMajor. }
  simpl.
  destruct (simulateErosion_spec w tw rs years g h2 _ HW HH Hown2)
    as (h3 & g' & -> & Hg' & Hown3).
  simpl. by exists w, h3, g', tw, rs.
Qed.

Lemma projectWeathering_cells years g :
  ∃ w h' g' tw,
    projectWeathering this h0 years g = Some (w, h', g')
    ∧ h0 ⊆ h'
    ∧ getTerrain h' w = Some tw
    ∧ width tw = width tb ∧ height tw = height tb
    ∧ cellSize tw = cellSize tb
    ∧ ∀ x y, (x < width tb)%nat → (y < height tb)%nat →
        ∃ v, readCell h0 (elevationData tb) y x = Some v
             ∧ readCell h' (elevationData tw) y x
               = Some (projected this h0 years x y v).
Proof using wf.
  destruct (projectWeathering_spec years g)
    as (w & h' & g' & tw & rs & Hrun & _ & HW & HH & Hcs & Hown).
  exists w, h', g', tw. repeat split; try done.
  - apply Hown.
  - apply Hown.
  - intros x y Hx Hy.
    destruct (represents_readCell _ _ _ _ _ y x (proj1 wf) Hx Hy) as (v & Hv & Hr).
    exists v. split; [done|].
    rewrite (represents_readCell_cell _ _ _ _ _ _ _ (proj1 (proj2 Hown))).
    rewrite (cell_alterCells_all _ _ (width tw) (height tw));
      [|apply NoDup_rowMajor|apply elem_of_rowMajor|lia|lia].
    rewrite (cell_alterCells_all _ _ (width tw) (height tw));
      [|apply NoDup_rowMajor|apply elem_of_rowMajor|lia|lia].
    rewrite (cell_alterCells_all _ _ (width tw) (height tw));
      [|apply NoDup_columnMajor|apply elem_of_columnMajor|lia|lia].
    by rewrite Hv.
Qed.

End Projection.

(** ** Monotone heaps *)

Lemma Forall2_Rle_refl (a : list R) : Forall2 Rle a a.
Proof. induction a; constructor; [lra | done]. Qed.

Lemma Forall2_Rle_trans (a b c : list R) :
  Forall2 Rle a b → Forall2 Rle b c → Forall2 Rle a c.
Proof.
  intros Hab. revert c. induction Hab; intros c Hbc; inversion Hbc; subst;
    constructor; [lra | auto].
Qed.

Lemma numsLe_refl h : numsLe h h.
Proof.
  intros l. destruct (h !! l) as [[]|]; first [done | apply Forall2_Rle_refl].
Qed.

Lemma numsLe_trans h1 h2 h3 : numsLe h1 h2 → numsLe h2 h3 → numsLe h1 h3.
Proof.
  intros H12 H23 l. specialize (H12 l). specialize (H23 l).
  destruct (h1 !! l) as [[]|], (h2 !! l) as [[]|], (h3 !! l) as [[]|];
    simplify_eq; try done.
  by eapply Forall2_Rle_trans.
Qed.

Lemma numsLe_getRows h1 h2 l : numsLe h1 h2 → getRows h1 l = getRows h2 l.
Proof.
  intros H. specialize (H l). unfold getRows.
  destruct (h1 !! l) as [[]|], (h2 !! l) as [[]|]; simplify_eq; done.
Qed.

Lemma numsLe_readCell_l h1 h2 d y x v :
  numsLe h1 h2 → readCell h1 d y x = Some v →
  ∃ v', readCell h2 d y x = Some v' ∧ v <= v'.
Proof.
  intros Hle. unfold readCell. rewrite (numsLe_getRows _ _ _ Hle).
  destruct (getRows h2 d) as [rs|]; simpl; [|done].
  destruct (rs !! y) as [r|]; simpl; [|done].
  specialize (Hle r). unfold getNums.
  destruct (h1 !! r) as [[]|], (h2 !! r) as [[]|]; simplify_eq; try done.
  simpl. intros Hv.
  destruct (Forall2_lookup_l _ _ _ _ _ Hle Hv) as (v' & Hv' & ?). eauto.
Qed.

Lemma numsLe_readCell_r h1 h2 d y x v :
  numsLe h1 h2 → readCell h2 d y x = Some v →
  ∃ v', readCell h1 d y x = Some v' ∧ v' <= v.
Proof.
  intros Hle. unfold readCell. rewrite (numsLe_getRows _ _ _ Hle).
  destruct (getRows h2 d) as [rs|]; simpl; [|done].
  destruct (rs !! y) as [r|]; simpl; [|done].
  specialize (Hle r). unfold getNums.
  destruct (h1 !! r) as [[]|], (h2 !! r) as [[]|]; simplify_eq; try done.
  simpl. intros Hv.
  destruct (Forall2_lookup_r _ _ _ _ _ Hle Hv) as (v' & Hv' & ?). eauto.
Qed.

Lemma Forall2_Rle_insert_l (cs : list R) x v v' :
  cs !! x = Some v → v' <= v → Forall2 Rle (<[x := v']> cs) cs.
Proof.
  intros Hv Hle. apply Forall2_same_length_lookup. split.
  { by rewrite length_insert. }
  intros i a b Ha Hb. destruct (decide (x = i)) as [->|Hne].
  - rewrite list_lookup_insert_eq in Ha by by eapply lookup_lt_Some.
    simplify_eq. done.
  - rewrite list_lookup_insert_ne in Ha by done. simplify_eq. lra.
Qed.

Lemma Forall2_Rle_insert_r (cs : list R) x v v' :
  cs !! x = Some v → v <= v' → Forall2 Rle cs (<[x := v']> cs).
Proof.
  intros Hv Hle. apply Forall2_same_length_lookup. split.
  { by rewrite length_insert. }
  intros i a b Ha Hb. destruct (decide (x = i)) as [->|Hne].
  - rewrite list_lookup_insert_eq in Hb by by eapply lookup_lt_Some.
    simplify_eq. done.
  - rewrite list_lookup_insert_ne in Hb by done. simplify_eq. lra.
Qed.

Lemma updateCell_numsLe_l (h : heap) d y x f h' :
  (∀ v, f v <= v) → updateCell h d y x f = Some h' → numsLe h' h.
Proof.
  intros Hf (rs & r & cs & v & _ & _ & Hcs & Hv & ->)%updateCell_Some l.
  unfold getNums in Hcs.
  destruct (decide (r = l)) as [->|Hne].
  - rewrite lookup_insert_eq. destruct (h !! l) as [[]|]; simplify_eq.
    by eapply Forall2_Rle_insert_l.
  - rewrite lookup_insert_ne by done. apply numsLe_refl.
Qed.

Lemma updateCell_numsLe_r (h : heap) d y x f h' :
  (∀ v, v <= f v) → updateCell h d y x f = Some h' → numsLe h h'.
Proof.
  intros Hf (rs & r & cs & v & _ & _ & Hcs & Hv & ->)%updateCell_Some l.
  unfold getNums in Hcs.
  destruct (decide (r = l)) as [->|Hne].
  - rewrite lookup_insert_eq. destruct (h !! l) as [[]|]; simplify_eq.
    by eapply Forall2_Rle_insert_r.
  - rewrite lookup_insert_ne by done. apply numsLe_refl.
Qed.

Lemma Math_sqrt_nonneg a r : Math_sqrt a = Some r → 0 <= r.
Proof.
  unfold Math_sqrt. destruct (Rle_dec 0 a); intros; simplify_eq.
  apply sqrt_pos.
Qed.

Lemma applyErosion_numsLe this (h : heap) tm acc years h' :
  0 <= years → applyErosion this h tm acc years = Some h' → numsLe h' h.
Proof.
  intros Hyears. unfold applyErosion. intros Hrun.
  apply bind_Some in Hrun as (t & _ & Hrun).
  revert Hrun. apply (forEach_invariant (λ s, numsLe s h)); [|apply numsLe_refl].
  intros y h1 h2 _ Hle1. apply (forEach_invariant (λ s, numsLe s h)); [|done].
  intros x h3 h4 _ Hle3 Hbody.
  apply bind_Some in Hbody as (s & Hs%calculateSlope_nonneg & Hbody).
  apply bind_Some in Hbody as (row & _ & Hbody).
  apply bind_Some in Hbody as (a & _ & Hbody).
  apply bind_Some in Hbody as (root & Hroot%Math_sqrt_nonneg & Hbody).
  eapply numsLe_trans; [|exact Hle3].
  eapply updateCell_numsLe_l; [|exact Hbody].
  intros v. simpl.
  assert (0 <= 0.00005 * years * root * (s / 45)); [|lra].
  apply Rmult_le_pos; [apply Rmult_le_pos; [apply Rmult_le_pos|]|]; lra.
Qed.

Lemma applyDeposition_numsLe this (h : heap) tm acc years h' :
  applyDeposition this h tm acc years = Some h' → numsLe h h'.
Proof.
  unfold applyDeposition. intros Hrun.
  apply bind_Some in Hrun as (t & _ & Hrun).
  revert Hrun. apply (forEach_invariant (λ s, numsLe h s)); [|apply numsLe_refl].
  intros y h1 h2 _ Hle1. apply (forEach_invariant (λ s, numsLe h s)); [|done].
  intros x h3 h4 _ Hle3 Hbody.
  apply bind_Some in Hbody as (s & _ & Hbody).
  apply bind_Some in Hbody as (row & _ & Hbody).
  apply bind_Some in Hbody as (a & _ & Hbody).
  apply bind_Some in Hbody as (root & _ & Hbody).
  destruct (Rlt_dec s 10); [|by simplify_eq].
  eapply numsLe_trans; [exact Hle3|].
  eapply updateCell_numsLe_r; [|exact Hbody].
  intros v. simpl. pose proof (Rmax_l 0 (0.00002 * years * root * (1 - s / 90))).
  lra.
Qed.

(** ** Frame: what a projection leaves untouched *)

Lemma updateCell_framed (h0 h : heap) d rs y x f h' :
  Forall (λ r, h0 !! r = None) rs →
  framed h0 d rs h → updateCell h d y x f = Some h' → framed h0 d rs h'.
Proof.
  intros Hfresh [Hsub Hrs] Hu.
  split; [|by rewrite (updateCell_getRows _ _ _ _ _ _ _ Hu)].
  apply updateCell_Some in Hu as (rs' & r & cs & v & Hrs' & Hr & _ & _ & ->).
  simplify_eq. apply insert_subseteq_r; [|done].
  by eapply (proj1 (Forall_lookup _ _) Hfresh).
Qed.

Lemma applyErosion_framed this (h0 h : heap) tm t rs acc years h' :
  Forall (λ r, h0 !! r = None) rs →
  getTerrain h tm = Some t →
  framed h0 (elevationData t) rs h →
  applyErosion this h tm acc years = Some h' →
  framed h0 (elevationData t) rs h'.
Proof.
  intros Hfresh Ht Hfr. unfold applyErosion. rewrite Ht. simpl.
  apply (forEach_invariant (framed h0 (elevationData t) rs)); [|done].
  intros y h1 h2 _ Hfr1.
  apply (forEach_invariant (framed h0 (elevationData t) rs)); [|done].
  intros x h3 h4 _ Hfr3 Hbody.
  do 4 apply bind_Some in Hbody as (? & _ & Hbody).
  by eapply updateCell_framed.
Qed.

Lemma applyDeposition_framed this (h0 h : heap) tm t rs acc years h' :
  Forall (λ r, h0 !! r = None) rs →
  getTerrain h tm = Some t →
  framed h0 (elevationData t) rs h →
  applyDeposition this h tm acc years = Some h' →
  framed h0 (elevationData t) rs h'.
Proof.
  intros Hfresh Ht Hfr. unfold applyDeposition. rewrite Ht. simpl.
  apply (forEach_invariant (framed h0 (elevationData t) rs)); [|done].
  intros y h1 h2 _ Hfr1.
  apply (forEach_invariant (framed h0 (elevationData t) rs)); [|done].
  intros x h3 h4 _ Hfr3 Hbody.
  apply bind_Some in Hbody as (s & _ & Hbody).
  do 3 apply bind_Some in Hbody as (? & _ & Hbody).
  destruct (Rlt_dec s 10); [|by simplify_eq].
  by eapply updateCell_framed.
Qed.

Lemma forEach_getTerrain {A : Type} (l : list A)
    (body : A → heap → option heap) (h h' : heap) tm :
  (∀ a h1 h2, body a h1 = Some h2 → getTerrain h2 tm = getTerrain h1 tm) →
  forEach l body h = Some h' → getTerrain h' tm = getTerrain h tm.
Proof.
  intros Hbody. apply (forEach_invariant (λ s, getTerrain s tm = getTerrain h tm));
    [|done].
  intros a h1 h2 _ <- Hb. by eapply Hbody.
Qed.

Lemma applyErosion_getTerrain this (h : heap) tm acc years h' l :
  applyErosion this h tm acc years = Some h' →
  getTerrain h' l = getTerrain h l.
Proof.
  unfold applyErosion. intros Hrun.
  apply bind_Some in Hrun as (t & _ & Hrun). revert Hrun.
  apply forEach_getTerrain. intros y h1 h2.
  apply forEach_getTerrain. intros x h3 h4 Hbody.
  do 4 apply bind_Some in Hbody as (? & _ & Hbody).
  by eapply updateCell_getTerrain.
Qed.

Lemma projectWeathering_frame this (h0 : heap) years g w h' g' :
  projectWeathering this h0 years g = Some (w, h', g') → h0 ⊆ h'.
Proof.
  unfold projectWeathering. intros Hrun.
  apply bind_Some in Hrun as ([w1 h1] & Hclone & Hrun).
  apply bind_Some in Hrun as (tw & Htw & Hrun).
  apply bind_Some in Hrun as (h2 & Hloop & Hrun).
  apply bind_Some in Hrun as ([h3 g3] & Hsim & Hrun). simplify_eq.
  destruct (cloneTerrainModel_Some _ _ _ _ Hclone)
    as (t & rs & G & rs' & d' & _ & _ & _ & Hsub & Hw & Hd & _ & _ & Hfresh).
  rewrite Htw in Hw. simplify_eq. simpl in *.
  assert (Hfr1 : framed h0 d' rs' h1) by done.
  assert (Hfr2 : framed h0 d' rs' h2).
  { revert Hloop. apply (forEach_invariant (framed h0 d' rs')); [|done].
    intros x h4 h5 _ Hfr4. apply (forEach_invariant (framed h0 d' rs')); [|done].
    intros y h6 h7 _ Hfr6 Hbody. unfold weatherCell in Hbody.
    apply bind_Some in Hbody as (c & _ & Hbody). simpl in Hbody.
    by eapply updateCell_framed. }
  assert (Htw2 : getTerrain h2 w
                 = Some (Terrain (width t) (height t) (cellSize t) d')).
  { rewrite <- Htw. revert Hloop.
    apply forEach_getTerrain. intros x h4 h5.
    apply forEach_getTerrain. intros y h6 h7 Hbody. unfold weatherCell in Hbody.
    apply bind_Some in Hbody as (c & _ & Hbody).
    by eapply updateCell_getTerrain. }
  unfold simulateErosion in Hsim.
  apply bind_Some in Hsim as ([dirs g1] & _ & Hsim).
  apply bind_Some in Hsim as (acc & _ & Hsim).
  apply bind_Some in Hsim as (h4 & Hero & Hsim).
  apply bind_Some in Hsim as (h5 & Hdep & Hsim). simplify_eq.
  pose proof (applyErosion_framed _ _ _ _ _ _ _ _ _ Hfresh Htw2 Hfr2 Hero) as Hfr4.
  rewrite <- (applyErosion_getTerrain _ _ _ _ _ _ w Hero) in Htw2.
  by destruct (applyDeposition_framed _ _ _ _ _ _ _ _ _ Hfresh Htw2 Hfr4 Hdep).
Qed.

Lemma generateWeatheringModels_frame this (h0 : heap) years g models h' g' :
  generateWeatheringModels this h0 years g = Some (models, h', g') → h0 ⊆ h'.
Proof.
  unfold generateWeatheringModels.
  apply (forEach_invariant
           (λ s : list (R * loc) * heap * Random, h0 ⊆ s.1.2)); [|done].
  intros ts [[m h1] g1] [[m2 h2] g2] _ Hsub Hbody. simpl in *.
  apply bind_Some in Hbody as ([[w h3] g3] & Hp & Hbody). simplify_eq.
  etrans; [exact Hsub|]. by eapply projectWeathering_frame.
Qed.

(** ** Randomness does not reach the elevations *)

Lemma projectWeathering_random this (h : heap) years g1 g2 :
  fst <$> projectWeathering this h years g1
  = fst <$> projectWeathering this h years g2.
Proof.
  unfold projectWeathering.
  destruct (cloneTerrainModel h (elevation this)) as [[w h1]|]; simpl; [|done].
  destruct (getTerrain h1 w) as [t|]; simpl; [|done].
  destruct (forEach _ _ h1) as [h2|]; simpl; [|done].
  pose proof (simulateErosion_random this h2 w years g1 g2) as Hsim.
  destruct (simulateErosion this h2 w years g1) as [[h3 g1']|],
           (simulateErosion this h2 w years g2) as [[h3' g2']|];
    simpl in *; by simplify_eq.
Qed.

Lemma generateWeatheringModels_random this (h : heap) years g1 g2 :
  fst <$> generateWeatheringModels this h years g1
  = fst <$> generateWeatheringModels this h years g2.
Proof.
  unfold generateWeatheringModels.
  set (body := λ (timeStep : R) '(models, h, g),
         '(m, h', g') ← projectWeathering this h timeStep g;
         Some (models ++ [(timeStep, m)], h', g')).
  assert (Hgen : ∀ l (models : list (R * loc)) h g1 g2,
            fst <$> forEach l body (models, h, g1)
            = fst <$> forEach l body (models, h, g2)); [|apply Hgen].
  clear. induction l as [|ts l IH]; intros models h g1 g2; simpl; [done|].
  pose proof (projectWeathering_random this h ts g1 g2) as Hp.
  destruct (projectWeathering this h ts g1) as [[[w h1] g1']|],
           (projectWeathering this h ts g2) as [[[w' h1'] g2']|];
    simpl in *; simplify_eq; [|done].
  apply IH.
Qed.

(** ** Time steps *)

Lemma filter_StronglySorted (P : R → bool) (l : list R) :
  StronglySorted Rlt l → StronglySorted Rlt (List.filter P l).
Proof.
  induction 1 as [|a l Hs IH Hall]; simpl; [constructor|].
  destruct (P a); [|done]. constructor; [done|].
  apply Forall_forall. intros b Hb%list_elem_of_In.
  apply filter_In in Hb as [Hb _].
  by apply (proj1 (Forall_forall _ _) Hall), list_elem_of_In.
Qed.

Lemma ladder_sorted maxYears : StronglySorted Rlt (ladder maxYears).
Proof.
  unfold ladder.
  destruct (Rle_dec maxYears 100); [|destruct (Rle_dec maxYears 1000)];
    repeat (constructor; [|repeat (constructor; [lra|]); constructor]);
    constructor.
Qed.

Lemma Rleb_true a b : Rleb a b = true ↔ a <= b.
Proof. unfold Rleb. destruct (Rle_dec a b); split; (done || lra). Qed.

Lemma determineTimeSteps_select maxYears :
  determineTimeSteps maxYears = selectTimeSteps maxYears.
Proof.
  unfold determineTimeSteps, selectTimeSteps, ladder.
  by destruct (Rle_dec maxYears 100); [|destruct (Rle_dec maxYears 1000)].
Qed.

(** ** Aspect *)

Lemma Math_atan2_scale (k y x : R) :
  0 < k → Math_atan2 (y / k) (x / k) = Math_atan2 y x.
Proof.
  intros Hk. unfold Math_atan2.
  assert (Hq : x ≠ 0 → y / k / (x / k) = y / x) by (intros; field; lra).
  assert (Hik : 0 < / k) by (apply Rinv_0_lt_compat; lra).
  assert (Hsign : ∀ z, (0 < z ↔ 0 < z / k) ∧ (z < 0 ↔ z / k < 0)).
  { intros z. unfold Rdiv. repeat split; intros; nra. }
  destruct (Hsign x) as [Hx1 Hx2]. destruct (Hsign y) as [Hy1 Hy2].
  assert (Hy3 : 0 <= y ↔ 0 <= y / k).
  { split; intros ?; apply Rnot_lt_le; intros ?%Hy2; lra. }
  destruct (Rlt_dec 0 (x / k)), (Rlt_dec 0 x); try tauto.
  { rewrite Hq by lra. done. }
  destruct (Rlt_dec (x / k) 0), (Rlt_dec x 0); try tauto.
  { rewrite Hq by lra.
    destruct (Rle_dec 0 (y / k)), (Rle_dec 0 y); tauto || done. }
  destruct (Rlt_dec 0 (y / k)), (Rlt_dec 0 y); try tauto.
  destruct (Rlt_dec (y / k) 0), (Rlt_dec y 0); tauto || done.
Qed.

Lemma calculateAspect_aspectRadians this (h : heap) ds x y :
  getTerrain h (elevation this) = Some ds → 0 < cellSize ds →
  calculateAspect this h x y = aspectRadians this h x y.
Proof.
  intros Hds Hcs. unfold calculateAspect, aspectRadians. rewrite Hds. simpl.
  destruct (atEdge h (elevationData ds) x y) as [[]|]; simpl; try done.
  destruct (readCell h (elevationData ds) y (x + 1)) as [zE|]; simpl; [|done].
  destruct (readCell h (elevationData ds) y (x - 1)) as [zW|]; simpl; [|done].
  rewrite divide_Some by lra. simpl.
  destruct (readCell h (elevationData ds) (y + 1) x) as [zS|]; simpl; [|done].
  destruct (readCell h (elevationData ds) (y - 1) x) as [zN|]; simpl; [|done].
  rewrite divide_Some by lra. simpl. f_equal.
  replace (- ((zS - zN) / (2 * cellSize ds)))
    with (- (zS - zN) / (2 * cellSize ds)) by (field; lra).
  symmetry. apply Math_atan2_scale. lra.
Qed.

Lemma calculateSlope_withElevation this (h : heap) x y :
  calculateSlope (withElevation this (elevation this)) h x y
  = calculateSlope this h x y.
Proof. done. Qed.

Section SimulateErosion.
Context (this : WeatheringMap) (h0 : heap) (tb : terrain) (rsb : list loc)
        (G0 : grid).
Hypothesis wf : wfDataset this h0 tb rsb G0.

Lemma simulateErosion_slopeSourced w tw rs years g h G :
  width tw = width tb → height tw = height tb →
  owns h0 h w tw rs G →
  slopeSourced this (elevation this) h w years g.
Proof using wf.
  intros HW HH Hown.
  pose proof (proj1 (proj1 (proj2 Hown))) as Ht.
  destruct (applyErosion_spec this h0 tb rsb G0 wf w tw rs HW HH years h G Hown)
    as (h1 & Hero & Hown1).
  destruct (applyDeposition_spec this h0 tb rsb G0 wf w tw rs HW HH years h1 _ Hown1)
    as (h2 & Hdep & Hown2).
  destruct (calculateFlowDirections_total h w tw g Ht) as (d & g' & Hd & _).
  exists tw, h1, h2, g'. split; [done|]. split; [done|]. split; [done|].
  split.
  { unfold simulateErosion. rewrite Hd. simpl.
    rewrite (calculateFlowAccumulation_ones _ _ _ _ Ht). simpl.
    unfold ones in Hero, Hdep. rewrite Hero. simpl. by rewrite Hdep. }
  intros x y Hx Hy.
  destruct (calculateSlope_total this h0 tb rsb G0 wf x y) as [s Hs]; [lia..|].
  destruct (represents_readCell _ _ _ _ _ y x (proj1 (proj2 Hown)) Hx Hy)
    as (v & Hv & Hr).
  exists v, s, (v - 0.00005 * years * 1 * (s / 45)), s.
  split; [done|]. split.
  { rewrite calculateSlope_withElevation.
    exact (calculateSlope_weaken _ _ _ _ _ _ Hs (proj1 Hown)). }
  split.
  { rewrite (represents_readCell_cell _ _ _ _ _ _ _ (proj1 (proj2 Hown1))).
    rewrite (cell_alterCells_all _ _ (width tw) (height tw));
      [|apply NoDup_rowMajor|apply elem_of_rowMajor|lia|lia].
    rewrite Hv. simpl. unfold eroded, slopeAt. by rewrite Hs. }
  split; [done|]. split.
  { rewrite calculateSlope_withElevation.
    exact (calculateSlope_weaken _ _ _ _ _ _ Hs (proj1 Hown1)). }
  rewrite (represents_readCell_cell _ _ _ _ _ _ _ (proj1 (proj2 Hown2))).
  rewrite (cell_alterCells_all _ _ (width tw) (height tw));
    [|apply NoDup_rowMajor|apply elem_of_rowMajor|lia|lia].
  rewrite (cell_alterCells_all _ _ (width tw) (height tw));
    [|apply NoDup_rowMajor|apply elem_of_rowMajor|lia|lia].
  rewrite Hv. simpl. unfold deposited, eroded, slopeAt. rewrite Hs. simpl.
  done.
Qed.

Lemma simulateErosion_slopesOfDataset w tw rs years g h G :
  width tw = width tb → height tw = height tb →
  owns h0 h w tw rs G →
  slopesOfDataset this h0 tb h w years g.
Proof using wf.
  intros HW HH Hown.
  pose proof (proj1 (proj1 (proj2 Hown))) as Ht.
  destruct (applyErosion_spec this h0 tb rsb G0 wf w tw rs HW HH years h G Hown)
    as (h1 & Hero & Hown1).
  destruct (applyDeposition_spec this h0 tb rsb G0 wf w tw rs HW HH years h1 _ Hown1)
    as (h2 & Hdep & Hown2).
  destruct (calculateFlowDirections_total h w tw g Ht) as (d & g' & Hd & _).
  pose proof (proj1 Hown) as Hsub.
  pose proof (proj1 Hown1) as Hsub1.
  pose proof (proj1 Hown2) as Hsub2.
  pose proof (proj1 (proj1 wf)) as Htb.
  exists tw, h1, h2, g'. split; [exact Ht|]. split; [exact Hero|].
  split; [exact Hdep|]. split.
  { unfold simulateErosion. rewrite Hd. simpl.
    rewrite (calculateFlowAccumulation_ones _ _ _ _ Ht). simpl.
    unfold ones in Hero, Hdep. rewrite Hero. simpl. by rewrite Hdep. }
  split; [exact Hsub|]. split; [exact Hsub1|]. split; [exact Hsub2|].
  split; [exact (getTerrain_weaken _ _ _ _ Htb Hsub)|].
  split; [exact (getTerrain_weaken _ _ _ _ Htb Hsub1)|].
  split; [exact (getTerrain_weaken _ _ _ _ Htb Hsub2)|].
  intros x y Hx Hy.
  destruct (calculateSlope_total this h0 tb rsb G0 wf x y) as [s Hs]; [lia..|].
  destruct (represents_readCell _ _ _ _ _ y x (proj1 wf)) as (e & _ & He);
    [lia..|].
  destruct (represents_readCell _ _ _ _ _ y x (proj1 (proj2 Hown)) Hx Hy)
    as (v & Hv & Hr).
  exists e, s, v.
  split; [exact He|].
  split; [exact (readCell_weaken _ _ _ _ _ _ He Hsub)|].
  split; [exact (readCell_weaken _ _ _ _ _ _ He Hsub1)|].
  split; [exact (readCell_weaken _ _ _ _ _ _ He Hsub2)|].
  split; [exact Hs|].
  split; [exact (calculateSlope_weaken _ _ _ _ _ _ Hs Hsub)|].
  split; [exact (calculateSlope_weaken _ _ _ _ _ _ Hs Hsub1)|].
  split; [exact Hr|]. split.
  { rewrite (represents_readCell_cell _ _ _ _ _ _ _ (proj1 (proj2 Hown1))).
    rewrite (cell_alterCells_all _ _ (width tw) (height tw));
      [|apply NoDup_rowMajor|apply elem_of_rowMajor|lia|lia].
    rewrite Hv. simpl. unfold eroded, slopeAt. by rewrite Hs. }
  rewrite (represents_readCell_cell _ _ _ _ _ _ _ (proj1 (proj2 Hown2))).
  rewrite (cell_alterCells_all _ _ (width tw) (height tw));
    [|apply NoDup_rowMajor|apply elem_of_rowMajor|lia|lia].
  rewrite (cell_alterCells_all _ _ (width tw) (height tw));
    [|apply NoDup_rowMajor|apply elem_of_rowMajor|lia|lia].
  rewrite Hv. simpl. unfold deposited, eroded, slopeAt. rewrite Hs. simpl.
  done.
Qed.

(** The state in which [projectWeathering] calls [simulateErosion]. *)
Lemma projectWeathering_before_erosion years :
  ∃ w h1 tw rs h2,
    cloneTerrainModel h0 (elevation this) = Some (w, h1)
    ∧ getTerrain h1 w = Some tw
    ∧ width tw = width tb ∧ height tw = height tb ∧ cellSize tw = cellSize tb
    ∧ forEach (seq 0 (width tw)) (λ x,
        forEach (seq 0 (height tw)) (λ y,
          weatherCell this tw (years * calculateTotalWeatheringRate this) x y))
        h1 = Some h2
    ∧ owns h0 h2 w tw rs
        (alterCells (weathered this h0 (years * calculateTotalWeatheringRate this))
           (columnMajor (width tw) (height tw)) G0).
Proof using wf.
  destruct (cloneTerrainModel_owns h0 (elevation this) tb rsb G0 (proj1 wf))
    as (w & h1 & tw & rs & Hclone & Hown & HW & HH & Hcs).
  destruct (weatherLoop_spec this h0 tb rsb G0 wf w tw rs HW HH
              (years * calculateTotalWeatheringRate this)
              (columnMajor (width tw) (height tw)) h1 G0)
    as (h2 & Hloop & Hown2); [|done|].
  { intros x y. apply elem_of_columnMajor. }
  exists w, h1, tw, rs, h2. split; [done|]. split; [apply Hown|].
  do 3 (split; [done|]). split; [by rewrite forEach_columnMajor | done].
Qed.

End SimulateErosion.

(** ** The example sessions *)

Lemma example_wf :
  wfDataset exampleMap exampleHeap exampleTerrain exampleRows exampleGrid.
Proof.
  split; [|simpl; lra].
  split; [done|]. split; [done|]. split.
  - repeat constructor.
  - split; [done|]. repeat constructor.
Qed.

Lemma calculateElevationFactor_low e :
  e < 500 → calculateElevationFactor e = 1.
Proof.
  intros He. unfold calculateElevationFactor.
  destruct (Rlt_dec e 500); lra.
Qed.

Lemma calculateElevationFactor_high e :
  500 <= e → calculateElevationFactor e = 1 + (e - 500) / 2000 * 0.5.
Proof.
  intros He. unfold calculateElevationFactor.
  destruct (Rlt_dec e 500); lra.
Qed.

Lemma cellLoss_edge this (h : heap) t rs G x y e i :
  wfDataset this h t rs G →
  (x < width t)%nat → (y < height t)%nat →
  onEdge (width t) (height t) x y = true →
  cell G y x = Some e →
  cellLoss this h i x y = i * calculateElevationFactor e.
Proof.
  intros Hwf Hx Hy He Hcell.
  destruct (calculateCellWeathering_total this h t rs G Hwf x y i Hx Hy)
    as (s & a & e' & Hs & Ha & He' & Hc).
  rewrite (calculateSlope_edge this h t rs G Hwf x y Hx Hy He) in Hs.
  rewrite (calculateAspect_edge this h t rs G Hwf x y Hx Hy He) in Ha.
  unfold cellLoss. rewrite Hc. simplify_eq. simpl. rewrite sin_0. field.
Qed.

Lemma atan_sqrt_square a : 0 <= a → atan (sqrt (a * a + 0 * 0)) = atan a.
Proof.
  intros Ha. replace (a * a + 0 * 0) with (a * a) by lra.
  by rewrite sqrt_square.
Qed.

Lemma degrees_45 : atan 1 * (180 / PI) = 45.
Proof. rewrite atan_1. pose proof PI_RGT_0. field. lra. Qed.

Lemma example_intensity : 1000 * calculateTotalWeatheringRate exampleMap = 1.
Proof. unfold calculateTotalWeatheringRate. simpl. lra. Qed.

Lemma example_slope :
  calculateSlope exampleMap exampleHeap 1 1 = Some 45.
Proof.
  destruct (calculateSlope_interior _ _ _ _ _ example_wf 1 1)
    as (zE & zW & zS & zN & HE & HW & HS & HN & ->); [simpl; lia..|done|].
  unfold cell, exampleGrid in *. simpl in *. simplify_eq. f_equal.
  replace ((2500 - 500) / (2 * 1000)) with 1 by lra.
  replace ((0 - 0) / (2 * 1000)) with 0 by lra.
  rewrite atan_sqrt_square by lra. apply degrees_45.
Qed.

(** The slope of the example at its centre, taken on the snapshot after the
    weathering loop, is below the 45 degrees of the dataset. *)
Lemma example_snapshot_slope w tw rs h2 s :
  width tw = 3%nat → height tw = 3%nat → cellSize tw = 1000 →
  owns exampleHeap h2 w tw rs
    (alterCells (weathered exampleMap exampleHeap
                   (1000 * calculateTotalWeatheringRate exampleMap))
       (columnMajor (width tw) (height tw)) exampleGrid) →
  calculateSlope (withElevation exampleMap w) h2 1 1 = Some s →
  s < 45.
Proof.
  intros HW HH Hcs Hown Hs.
  assert (Hwf : wfDataset (withElevation exampleMap w) h2 tw rs
            (alterCells (weathered exampleMap exampleHeap
                           (1000 * calculateTotalWeatheringRate exampleMap))
               (columnMajor (width tw) (height tw)) exampleGrid)).
  { split; [apply Hown | lra]. }
  destruct (calculateSlope_interior _ _ _ _ _ Hwf 1 1)
    as (zE & zW & zS & zN & HE & HW' & HS & HN & Hs');
    [lia | lia | rewrite HW, HH; reflexivity |].
  rewrite Hs' in Hs. clear Hs' Hwf. simplify_eq.
  rewrite (cell_alterCells_all _ _ (width tw) (height tw)) in HE, HW', HS, HN;
    try (apply NoDup_columnMajor || apply elem_of_columnMajor || lia).
  unfold weathered in *.
  rewrite (cellLoss_edge _ _ _ _ _ 2 1 2500 _ example_wf) in HE
    by first [reflexivity | simpl; lia].
  rewrite (cellLoss_edge _ _ _ _ _ 0 1 500 _ example_wf) in HW'
    by first [reflexivity | simpl; lia].
  rewrite (cellLoss_edge _ _ _ _ _ 1 2 0 _ example_wf) in HS
    by first [reflexivity | simpl; lia].
  rewrite (cellLoss_edge _ _ _ _ _ 1 0 0 _ example_wf) in HN
    by first [reflexivity | simpl; lia].
  rewrite example_intensity in *.
  rewrite calculateElevationFactor_high in HE, HW' by lra.
  rewrite calculateElevationFactor_low in HS, HN by lra.
  unfold cell, exampleGrid in *. simpl in *. simplify_eq. rewrite Hcs.
  replace ((0 - 1 * 1 - (0 - 1 * 1)) / (2 * 1000)) with 0 by lra.
  rewrite atan_sqrt_square by lra.
  rewrite <- degrees_45. apply Rmult_lt_compat_r; [apply degrees_pos|].
  apply atan_increasing. lra.
Qed.

Lemma flat_wf :
  wfDataset exampleMap flatHeap exampleTerrain exampleRows flatGrid.
Proof.
  split; [|simpl; lra].
  split; [done|]. split; [done|]. split.
  - repeat constructor.
  - split; [done|]. repeat constructor.
Qed.

Lemma flatGrid_flat : flat 2500 flatGrid.
Proof. repeat constructor. Qed.

(** ** Flat grids *)

Lemma flat_cell e (G : grid) y x v : flat e G → cell G y x = Some v → v = e.
Proof.
  intros Hflat. unfold cell. intros Hc.
  apply bind_Some in Hc as (row & Hrow & Hv).
  pose proof (proj1 (Forall_lookup _ _) Hflat _ _ Hrow) as Hr.
  exact (proj1 (Forall_lookup _ _) Hr _ _ Hv).
Qed.

Section Flat.
Context (this : WeatheringMap) (h : heap) (t : terrain) (rs : list loc)
        (G : grid) (e : R).
Hypothesis wf : wfDataset this h t rs G.
Hypothesis Hflat : flat e G.

Lemma flat_slope x y :
  (x < width t)%nat → (y < height t)%nat →
  calculateSlope this h x y = Some 0.
Proof using wf Hflat.
  intros Hx Hy. destruct (onEdge (width t) (height t) x y) eqn:He.
  - by apply (calculateSlope_edge this h t rs G).
  - destruct (calculateSlope_interior this h t rs G wf x y Hx Hy He)
      as (zE & zW & zS & zN & HE & HW & HS & HN & ->).
    apply (flat_cell e) in HE, HW, HS, HN; try done. subst. f_equal.
    destruct wf as [_ Hcs].
    replace ((e - e) / (2 * cellSize t)) with 0 by (field; lra).
    replace (0 * 0 + 0 * 0) with 0 by lra.
    rewrite sqrt_0, atan_0. lra.
Qed.

Lemma flat_aspect x y :
  (x < width t)%nat → (y < height t)%nat →
  calculateAspect this h x y = Some 0.
Proof using wf Hflat.
  intros Hx Hy. destruct (onEdge (width t) (height t) x y) eqn:He.
  - by apply (calculateAspect_edge this h t rs G).
  - destruct (calculateAspect_interior this h t rs G wf x y Hx Hy He)
      as (zE & zW & zS & zN & HE & HW & HS & HN & ->).
    apply (flat_cell e) in HE, HW, HS, HN; try done. subst. f_equal.
    unfold Math_atan2.
    destruct (Rlt_dec 0 (e - e)); [lra|].
    destruct (Rlt_dec (e - e) 0); [lra|].
    destruct (Rlt_dec 0 (- (e - e))); [lra|].
    destruct (Rlt_dec (- (e - e)) 0); [lra|]. done.
Qed.

Lemma flat_cellWeathering x y i :
  (x < width t)%nat → (y < height t)%nat →
  calculateCellWeathering this h x y i
  = Some (i * calculateElevationFactor e).
Proof using wf Hflat.
  intros Hx Hy.
  destruct (calculateCellWeathering_total this h t rs G wf x y i Hx Hy)
    as (s & a & e' & Hs & Ha & He' & ->).
  rewrite flat_slope in Hs by done. rewrite flat_aspect in Ha by done.
  apply (flat_cell e) in He'; [|done]. simplify_eq. f_equal.
  rewrite sin_0. field.
Qed.

Lemma flat_projected years x y :
  (x < width t)%nat → (y < height t)%nat →
  projected this h years x y e
  = e - years * calculateTotalWeatheringRate this * calculateElevationFactor e
    + Rmax 0 (0.00002 * years).
Proof using wf Hflat.
  intros Hx Hy. unfold projected, deposited, eroded, weathered, cellLoss, slopeAt.
  rewrite flat_cellWeathering, flat_slope by done. simpl.
  destruct (Rlt_dec 0 10); [|lra].
  replace (0.00002 * years * 1 * (1 - 0 / 90)) with (0.00002 * years) by lra.
  lra.
Qed.

End Flat.

Lemma flat_projectWeathering this (h0 : heap) tb rsb G0 e years g :
  wfDataset this h0 tb rsb G0 → flat e G0 →
  uniformLoss this h0 e years g
    (years * calculateTotalWeatheringRate this * calculateElevationFactor e
     - Rmax 0 (0.00002 * years)).
Proof.
  intros Hwf Hflat.
  destruct (projectWeathering_cells this h0 tb rsb G0 Hwf years g)
    as (w & h' & g' & tw & Hrun & _ & Htw & HW & HH & _ & Hcells).
  exists w, h', g', tw. split; [done|]. split; [done|].
  intros x y Hx Hy. rewrite HW in Hx. rewrite HH in Hy.
  destruct (Hcells x y Hx Hy) as (v & Hv & ->).
  rewrite (represents_readCell_cell _ _ _ _ _ _ _ (proj1 Hwf)) in Hv.
  apply (flat_cell e) in Hv; [|done]. subst v. f_equal.
  rewrite (flat_projected this h0 tb rsb G0 e Hwf Hflat) by done. lra.
Qed.

Lemma uniformLoss_unique this (h0 : heap) e years g loss1 loss2 tb rsb G0 :
  wfDataset this h0 tb rsb G0 → (0 < width tb)%nat → (0 < height tb)%nat →
  uniformLoss this h0 e years g loss1 → uniformLoss this h0 e years g loss2 →
  loss1 = loss2.
Proof.
  intros Hwf HW HH (w & h' & g' & tw & Hrun & Htw & Hc)
    (w2 & h2 & g2 & tw2 & Hrun2 & Htw2 & Hc2).
  rewrite Hrun in Hrun2. injection Hrun2 as <- <- <-.
  rewrite Htw in Htw2. injection Htw2 as <-.
  destruct (projectWeathering_cells this h0 tb rsb G0 Hwf years g)
    as (w' & h'' & g'' & tw' & Hrun' & _ & Htw' & HW' & HH' & _ & _).
  rewrite Hrun in Hrun'. injection Hrun' as <- <- <-.
  rewrite Htw in Htw'. injection Htw' as <-.
  assert (Hx : (0 < width tw)%nat) by lia.
  assert (Hy : (0 < height tw)%nat) by lia.
  pose proof (Hc 0%nat 0%nat Hx Hy) as H1.
  pose proof (Hc2 0%nat 0%nat Hx Hy) as H2.
  rewrite H1 in H2. simplify_eq. lra.
Qed.

(** ** Zero years *)

Lemma projected_zero this (h : heap) t rs G x y v :
  wfDataset this h t rs G → (x < width t)%nat → (y < height t)%nat →
  projected this h 0 x y v = v.
Proof.
  intros Hwf Hx Hy. unfold projected, deposited, eroded, weathered, cellLoss.
  destruct (calculateCellWeathering_total this h t rs G Hwf x y
              (0 * calculateTotalWeatheringRate this) Hx Hy)
    as (s & a & e' & _ & _ & _ & ->). simpl.
  replace (0.00002 * 0 * 1 * (1 - slopeAt this h x y / 90)) with 0 by lra.
  rewrite Rmax_left by lra.
  destruct (Rlt_dec _ 10); lra.
Qed.

(** ** Mineral reactivity *)

Lemma recognized_table (mineral : string) :
  recognized (num := R) mineral =
    if String.eqb mineral "quartz" then Some 0.1
    else if String.eqb mineral "feldspar" then Some 0.7
    else if String.eqb mineral "mica" then Some 0.5
    else if String.eqb mineral "calcite" then Some 0.9
    else if String.eqb mineral "dolomite" then Some 0.8
    else None.
Proof.
  unfold recognized, reactivityIndex.
  repeat (destruct (String.eqb mineral _);
    [cbn; destruct (Req_dec_T _ 0) as [E|_]; [exfalso; lra | f_equal; lra]|]).
  done.
Qed.

Lemma weightedReactivity_cons m p (comp : list (string * R)) :
  weightedReactivity ((m, p) :: comp) =
    match recognized m with
    | Some r => r * p + weightedReactivity comp
    | None => weightedReactivity comp
    end.
Proof.
  unfold weightedReactivity, recognizedOnly. cbn [omap list_omap].
  by destruct (recognized m).
Qed.

Lemma totalAbundance_cons m p (comp : list (string * R)) :
  totalAbundance ((m, p) :: comp) =
    match recognized (num := R) m with
    | Some r => p + totalAbundance comp
    | None => totalAbundance comp
    end.
Proof.
  unfold totalAbundance, recognizedOnly. cbn [omap list_omap].
  by destruct (recognized m).
Qed.

Lemma mineral_fold (comp : list (string * R)) (a b : R) :
  fold_left (λ '(totalReactivity, totalPercentage) '(mineral, percentage),
      match recognized mineral with
      | Some r =>
          (plus totalReactivity (times r percentage),
           plus totalPercentage percentage)
      | None => (totalReactivity, totalPercentage)
      end) comp (a, b)
  = (a + weightedReactivity comp, b + totalAbundance comp).
Proof.
  revert a b. induction comp as [|[m p] comp IH]; intros a b.
  - unfold weightedReactivity, totalAbundance. simpl. f_equal; lra.
  - cbn [fold_left]. rewrite weightedReactivity_cons, totalAbundance_cons.
    destruct (recognized m) as [r|]; rewrite IH; [|done].
    cbn [plus times realNumber]. f_equal; lra.
Qed.

Lemma calculateMineralReactivity_real (comp : list (string * R)) :
  calculateMineralReactivity comp =
    if Rlt_dec 0 (totalAbundance comp)
    then weightedReactivity comp / totalAbundance comp
    else 0.5.
Proof.
  unfold calculateMineralReactivity. rewrite mineral_fold. cbn.
  replace (0 / 1 + totalAbundance comp) with (totalAbundance comp) by lra.
  replace (0 / 1 + weightedReactivity comp) with (weightedReactivity comp) by lra.
  replace (0 / 1) with 0 by lra.
  destruct (Rlt_dec 0 (totalAbundance comp)); [done | lra].
Qed.

Lemma quartzFeldspar_real : calculateMineralReactivity (num := R) quartzFeldspar = 0.4.
Proof.
  rewrite calculateMineralReactivity_real.
  unfold totalAbundance, weightedReactivity, recognizedOnly, quartzFeldspar.
  cbn [omap list_omap]. rewrite !recognized_table. cbn.
  destruct (Rlt_dec 0 _) as [_|Hn]; [lra | exfalso; apply Hn; lra].
Qed.

Lemma quartzFeldspar_binary64 :
  calculateMineralReactivity (num := PrimFloat.float) quartzFeldspar
  = PrimFloat.next_down (decimal 4 10).
Proof. vm_compute. reflexivity. Qed.

Lemma quartzFeldspar_binary64_ne :
  PrimFloat.eqb (calculateMineralReactivity (num := PrimFloat.float) quartzFeldspar)
                (decimal 4 10) = false.
Proof. vm_compute. reflexivity. Qed.

(** * The claims *)

(** ** Further lemmas used by the claims *)

Lemma generateWeatheringModels_total this (h0 : heap) tb rsb G0 years g :
  wfDataset this h0 tb rsb G0 →
  ∃ models h' g', generateWeatheringModels this h0 years g
                  = Some (models, h', g').
Proof.
  intros Hwf. unfold generateWeatheringModels.
  destruct (forEach_total
    (λ s : list (R * loc) * heap * Random, h0 ⊆ s.1.2)
    (determineTimeSteps years)
    (λ timeStep '(models, h, g),
       '(m, h', g') ← projectWeathering this h timeStep g;
       Some (models ++ [(timeStep, m)], h', g'))
    ([], h0, g)) as ([[models h'] g'] & Hrun & _); [|done|by exists models, h', g'].
  intros ts [[m h1] g1] _ Hsub. simpl in Hsub.
  destruct (projectWeathering_spec this h1 tb rsb G0
              (wfDataset_weaken this h0 tb rsb G0 Hwf h1 Hsub) ts g1)
    as (w & h2 & g2 & tw & rs & -> & _ & _ & _ & _ & Hown).
  eexists. split; [done|]. simpl. etrans; [exact Hsub | apply Hown].
Qed.

Lemma columnMajor_rowMajor W H : rowMajor W H ≡ₚ columnMajor W H.
Proof.
  apply NoDup_Permutation; [apply NoDup_rowMajor | apply NoDup_columnMajor|].
  intros [x y]. by rewrite elem_of_rowMajor, elem_of_columnMajor.
Qed.

(** *** C1 *)

(** C1 (as stated, refuted).  In the example session, at the state in which
    [projectWeathering] calls [simulateErosion], the passes do not read the
    slope of the snapshot as it stands when the pass starts: the erosion
    pass subtracts the amount of the dataset's 45 degrees at the centre
    cell, while the snapshot's slope there is smaller. *)
Lemma slope_of_pass_start_counterexample :
  ∃ w h1 tw h2,
    cloneTerrainModel exampleHeap (elevation exampleMap) = Some (w, h1)
    ∧ getTerrain h1 w = Some tw
    ∧ forEach (seq 0 (width tw)) (λ x,
        forEach (seq 0 (height tw)) (λ y,
          weatherCell exampleMap tw
            (1000 * calculateTotalWeatheringRate exampleMap) x y)) h1
      = Some h2
    ∧ ¬ slopeSourced exampleMap w h2 w 1000 noRandom.
Proof.
  destruct (projectWeathering_before_erosion exampleMap exampleHeap _ _ _
              example_wf 1000)
    as (w & h1 & tw & rs & h2 & Hclone & Htw & HW & HH & Hcs & Hloop & Hown).
  exists w, h1, tw, h2. do 3 (split; [done|]).
  intros (t & e1 & e2 & g' & Ht & Hero & _ & _ & Hcells).
  destruct (simulateErosion_slopeSourced exampleMap exampleHeap _ _ _
              example_wf w tw rs 1000 noRandom h2 _ HW HH Hown)
    as (t' & e1' & e2' & g'' & Ht' & Hero' & _ & _ & Hcells').
  pose proof (proj1 (proj1 (proj2 Hown))) as Htw2.
  assert (t = tw) as -> by congruence.
  assert (t' = tw) as -> by congruence.
  assert (e1' = e1) as -> by congruence.
  assert (Hx : (1 < width tw)%nat) by (rewrite HW; simpl; lia).
  assert (Hy : (1 < height tw)%nat) by (rewrite HH; simpl; lia).
  destruct (Hcells 1%nat 1%nat Hx Hy) as (v & s & v1 & s1 & Hv & Hs & Hv1 & Heq & _).
  destruct (Hcells' 1%nat 1%nat Hx Hy)
    as (v' & s' & v1' & s1' & Hv' & Hs' & Hv1' & Heq' & _).
  rewrite calculateSlope_withElevation in Hs'.
  rewrite (calculateSlope_weaken _ _ _ _ _ _ example_slope (proj1 Hown)) in Hs'.
  simplify_eq.
  pose proof (example_snapshot_slope w tw rs h2 s HW HH Hcs Hown Hs).
  lra.
Qed.

(** C1 (amended).  For every well-formed dataset and every years value, at
    the state in which [projectWeathering] calls [simulateErosion], the
    erosion pass runs to its end before the deposition pass, and in both
    passes the slope of a cell is the one [calculateSlope] computes on the
    loaded dataset [this.datasets.elevation] (recomputed per cell), not on
    the snapshot being eroded.  The dataset is written by neither pass:
    the dataset object and each of its cells read the same before, between
    and after the passes, and nothing that existed before the projection
    is changed.  So both passes see the same slope [s] at every cell: the
    erosion pass subtracts [0.00005 * years * s / 45], and the deposition
    pass tests that same [s] against 10 and adds
    [max(0, 0.00002 * years * (1 - s / 90))]. *)
Theorem simulateErosion_slope_of_dataset this (h0 : heap) tb rsb G0 years g :
  wfDataset this h0 tb rsb G0 →
  ∃ w h1 tw h2,
    cloneTerrainModel h0 (elevation this) = Some (w, h1)
    ∧ getTerrain h1 w = Some tw
    ∧ forEach (seq 0 (width tw)) (λ x,
        forEach (seq 0 (height tw)) (λ y,
          weatherCell this tw (years * calculateTotalWeatheringRate this) x y))
        h1 = Some h2
    ∧ slopeSourced this (elevation this) h2 w years g
    ∧ slopesOfDataset this h0 tb h2 w years g.
Proof.
  intros Hwf.
  destruct (projectWeathering_before_erosion this h0 tb rsb G0 Hwf years)
    as (w & h1 & tw & rs & h2 & Hclone & Htw & HW & HH & Hcs & Hloop & Hown).
  exists w, h1, tw, h2. do 3 (split; [done|]). split.
  - by eapply (simulateErosion_slopeSourced this h0 tb rsb G0 Hwf w tw rs).
  - by eapply (simulateErosion_slopesOfDataset this h0 tb rsb G0 Hwf w tw rs).
Qed.

Lemma simulateErosion_slope_of_dataset_witness :
  wfDataset exampleMap exampleHeap exampleTerrain exampleRows exampleGrid
  ∧ ∃ w h1 tw h2,
      cloneTerrainModel exampleHeap (elevation exampleMap) = Some (w, h1)
      ∧ getTerrain h1 w = Some tw
      ∧ forEach (seq 0 (width tw)) (λ x,
          forEach (seq 0 (height tw)) (λ y,
            weatherCell exampleMap tw
              (1000 * calculateTotalWeatheringRate exampleMap) x y)) h1
        = Some h2
      ∧ slopeSourced exampleMap (elevation exampleMap) h2 w 1000 noRandom
      ∧ slopesOfDataset exampleMap exampleHeap exampleTerrain h2 w 1000
          noRandom.
Proof.
  split; [exact example_wf|].
  exact (simulateErosion_slope_of_dataset exampleMap exampleHeap exampleTerrain
           exampleRows exampleGrid 1000 noRandom example_wf).
Defined.

(** *** C2 *)

(** C2.  For every well-formed dataset and every years value the snapshot
    returned by [projectWeathering], and the models returned by
    [generateWeatheringModels], do not depend on the draws of
    [Math.random]: one and the same result is returned for every random
    source.  The accumulation array does not depend on the flow directions
    and holds [1] in every cell. *)
Theorem projection_deterministic this (h0 : heap) tb rsb G0 years :
  wfDataset this h0 tb rsb G0 →
  (∃ w h', ∀ g, ∃ g', projectWeathering this h0 years g = Some (w, h', g'))
  ∧ (∃ models h', ∀ g, ∃ g',
       generateWeatheringModels this h0 years g = Some (models, h', g'))
  ∧ (∀ h dirs1 dirs2 tm,
       calculateFlowAccumulation h dirs1 tm
       = calculateFlowAccumulation h dirs2 tm)
  ∧ (∀ h dirs tm, calculateFlowAccumulation h dirs tm = ones <$> getTerrain h tm).
Proof.
  intros Hwf. split; [|split; [|split]].
  - destruct (projectWeathering_spec this h0 tb rsb G0 Hwf years noRandom)
      as (w & h' & g0 & _ & _ & Hrun & _).
    exists w, h'. intros g.
    pose proof (projectWeathering_random this h0 years g noRandom) as Heq.
    rewrite Hrun in Heq.
    destruct (projectWeathering this h0 years g) as [[[w1 h1] g1]|];
      simpl in Heq; simplify_eq. by exists g1.
  - destruct (generateWeatheringModels_total this h0 tb rsb G0 years noRandom Hwf)
      as (models & h' & g0 & Hrun).
    exists models, h'. intros g.
    pose proof (generateWeatheringModels_random this h0 years g noRandom) as Heq.
    rewrite Hrun in Heq.
    destruct (generateWeatheringModels this h0 years g) as [[[m1 h1] g1]|];
      simpl in Heq; simplify_eq. by exists g1.
  - done.
  - intros h dirs tm. unfold calculateFlowAccumulation, ones.
    by destruct (getTerrain h tm).
Qed.

Lemma projection_deterministic_witness :
  wfDataset exampleMap exampleHeap exampleTerrain exampleRows exampleGrid
  ∧ ∃ w h', ∀ g, ∃ g',
      projectWeathering exampleMap exampleHeap 1000 g = Some (w, h', g').
Proof.
  split; [exact example_wf|].
  exact (proj1 (projection_deterministic exampleMap exampleHeap exampleTerrain
                  exampleRows exampleGrid 1000 example_wf)).
Defined.

(** *** C3 *)

(** C3 (as stated, refuted).  On the flat example (every cell at 2500 m,
    1000 years, intensity 1) the snapshot returned by [projectWeathering]
    is not the dataset less the intensity, and not the dataset less the
    intensity times the elevation factor either: the deposition pass adds
    [0.00002 * years] to every cell. *)
Lemma flat_loss_counterexample :
  flat 2500 flatGrid
  ∧ ¬ uniformLoss exampleMap flatHeap 2500 1000 noRandom
        (1000 * calculateTotalWeatheringRate exampleMap)
  ∧ ¬ uniformLoss exampleMap flatHeap 2500 1000 noRandom
        (1000 * calculateTotalWeatheringRate exampleMap
         * calculateElevationFactor 2500).
Proof.
  split; [exact flatGrid_flat|].
  pose proof (flat_projectWeathering exampleMap flatHeap _ _ _ 2500 1000
                noRandom flat_wf flatGrid_flat) as Htrue.
  assert (Hmax : Rmax 0 (0.00002 * 1000) = 0.02).
  { rewrite Rmax_right; lra. }
  rewrite example_intensity, calculateElevationFactor_high, Hmax in Htrue by lra.
  rewrite example_intensity, calculateElevationFactor_high by lra.
  split; intros Hclaim;
    pose proof (uniformLoss_unique _ _ _ _ _ _ _ _ _ _ flat_wf
                  ltac:(simpl; lia) ltac:(simpl; lia) Hclaim Htrue); lra.
Qed.

(** C3 (amended).  On a flat grid (every cell at the same elevation [e])
    slope and aspect are 0 at every cell, the per-cell weathering loss is
    [intensity * elevationFactor(e)] (slopeFactor = 1, aspectFactor = 1),
    and [projectWeathering] returns a snapshot every cell of which holds
    [e - intensity * elevationFactor(e) + max(0, 0.00002 * years)]: the
    erosion pass subtracts 0 and the deposition pass adds its amount at
    every cell, the slope being below 10. *)
Theorem flat_grid_projection this (h0 : heap) tb rsb G0 e years g :
  wfDataset this h0 tb rsb G0 → flat e G0 →
  (∀ x y, (x < width tb)%nat → (y < height tb)%nat →
     calculateSlope this h0 x y = Some 0
     ∧ calculateAspect this h0 x y = Some 0
     ∧ calculateCellWeathering this h0 x y
         (years * calculateTotalWeatheringRate this)
       = Some (years * calculateTotalWeatheringRate this
               * calculateElevationFactor e))
  ∧ uniformLoss this h0 e years g
      (years * calculateTotalWeatheringRate this * calculateElevationFactor e
       - Rmax 0 (0.00002 * years)).
Proof.
  intros Hwf Hflat. split.
  - intros x y Hx Hy. split; [|split].
    + by apply (flat_slope this h0 tb rsb G0 e).
    + by apply (flat_aspect this h0 tb rsb G0 e).
    + by apply (flat_cellWeathering this h0 tb rsb G0 e).
  - by apply (flat_projectWeathering this h0 tb rsb G0).
Qed.

Lemma flat_grid_projection_witness :
  wfDataset exampleMap flatHeap exampleTerrain exampleRows flatGrid
  ∧ flat 2500 flatGrid
  ∧ uniformLoss exampleMap flatHeap 2500 1000 noRandom
      (1000 * calculateTotalWeatheringRate exampleMap
       * calculateElevationFactor 2500 - Rmax 0 (0.00002 * 1000)).
Proof.
  split; [exact flat_wf|]. split; [exact flatGrid_flat|].
  exact (proj2 (flat_grid_projection exampleMap flatHeap exampleTerrain
                  exampleRows flatGrid 2500 1000 noRandom flat_wf
                  flatGrid_flat)).
Defined.

(** *** C4 *)

(** C4.  For every well-formed dataset and all rates, projecting 0 years
    returns a snapshot of the dataset's dimensions whose every elevation
    equals the dataset's: the per-cell weathering loss is 0, and the erosion
    and deposition amounts are 0. *)
Theorem zero_years_identity this (h0 : heap) tb rsb G0 g :
  wfDataset this h0 tb rsb G0 →
  ∃ w h' g' tw,
    projectWeathering this h0 0 g = Some (w, h', g')
    ∧ getTerrain h' w = Some tw
    ∧ width tw = width tb ∧ height tw = height tb
    ∧ ∀ x y, (x < width tb)%nat → (y < height tb)%nat →
        ∃ v, readCell h0 (elevationData tb) y x = Some v
             ∧ calculateCellWeathering this h0 x y
                 (0 * calculateTotalWeatheringRate this) = Some 0
             ∧ readCell h' (elevationData tw) y x = Some v.
Proof.
  intros Hwf.
  destruct (projectWeathering_cells this h0 tb rsb G0 Hwf 0 g)
    as (w & h' & g' & tw & Hrun & _ & Htw & HW & HH & _ & Hcells).
  exists w, h', g', tw. do 4 (split; [done|]).
  intros x y Hx Hy. destruct (Hcells x y Hx Hy) as (v & Hv & Hr).
  exists v. split; [done|]. split.
  - destruct (calculateCellWeathering_total this h0 tb rsb G0 Hwf x y
                (0 * calculateTotalWeatheringRate this) Hx Hy)
      as (s & a & e' & _ & _ & _ & ->). f_equal. ring.
  - rewrite Hr. f_equal. by apply (projected_zero this h0 tb rsb G0).
Qed.

Lemma zero_years_identity_witness :
  wfDataset exampleMap exampleHeap exampleTerrain exampleRows exampleGrid
  ∧ ∃ w h' g' tw,
      projectWeathering exampleMap exampleHeap 0 noRandom = Some (w, h', g')
      ∧ getTerrain h' w = Some tw
      ∧ readCell h' (elevationData tw) 1 2 = Some 2500.
Proof.
  split; [exact example_wf|].
  destruct (zero_years_identity exampleMap exampleHeap exampleTerrain
              exampleRows exampleGrid noRandom example_wf)
    as (w & h' & g' & tw & Hrun & Htw & _ & _ & Hcells).
  exists w, h', g', tw. split; [exact Hrun|]. split; [exact Htw|].
  destruct (Hcells 2%nat 1%nat ltac:(simpl; lia) ltac:(simpl; lia))
    as (v & Hv & _ & Hr).
  rewrite Hr. rewrite <- Hv. reflexivity.
Defined.

(** *** C5 *)

(** C5.  For every heap, terrain model, accumulation array and non-negative
    years value: when the erosion pass returns, every number stored in any
    array is at most what it was before the pass; when the deposition pass
    returns, every number is at least what it was (the amount added is
    [max(0, depositionAmount)], and it is added only where the slope is
    below 10). *)
Theorem erosion_lowers_deposition_raises this (h : heap) tm acc years :
  0 <= years →
  (∀ h', applyErosion this h tm acc years = Some h' →
     ∀ d y x v, readCell h d y x = Some v →
       ∃ v', readCell h' d y x = Some v' ∧ v' <= v)
  ∧ (∀ h', applyDeposition this h tm acc years = Some h' →
       ∀ d y x v, readCell h d y x = Some v →
         ∃ v', readCell h' d y x = Some v' ∧ v <= v').
Proof.
  intros Hyears. split; intros h' Hrun d y x v Hv.
  - eapply numsLe_readCell_r; [|exact Hv].
    by eapply applyErosion_numsLe.
  - eapply numsLe_readCell_l; [|exact Hv].
    by eapply applyDeposition_numsLe.
Qed.

Lemma erosion_lowers_deposition_raises_witness :
  0 <= 1000
  ∧ ∃ w h tw h1 h2,
      getTerrain h w = Some tw
      ∧ applyErosion exampleMap h w (ones tw) 1000 = Some h1
      ∧ applyDeposition exampleMap h1 w (ones tw) 1000 = Some h2
      ∧ (∀ d y x v, readCell h d y x = Some v →
           ∃ v', readCell h1 d y x = Some v' ∧ v' <= v)
      ∧ (∀ d y x v, readCell h1 d y x = Some v →
           ∃ v', readCell h2 d y x = Some v' ∧ v <= v').
Proof.
  split; [lra|].
  destruct (projectWeathering_before_erosion exampleMap exampleHeap _ _ _
              example_wf 1000)
    as (w & h1 & tw & rs & h & _ & _ & HW & HH & _ & _ & Hown).
  destruct (simulateErosion_slopeSourced exampleMap exampleHeap _ _ _
              example_wf w tw rs 1000 noRandom h _ HW HH Hown)
    as (t & e1 & e2 & g' & Ht & Hero & Hdep & _).
  exists w, h, t, e1, e2. split; [exact Ht|]. split; [exact Hero|].
  split; [exact Hdep|]. split.
  - exact (proj1 (erosion_lowers_deposition_raises exampleMap h w (ones t) 1000
                    ltac:(lra)) e1 Hero).
  - exact (proj2 (erosion_lowers_deposition_raises exampleMap e1 w (ones t) 1000
                    ltac:(lra)) e2 Hdep).
Defined.

(** *** C6 *)

(** C6.  When [projectWeathering] or [generateWeatheringModels] returns,
    every object that existed before the call is unchanged (the heap has
    only grown): in particular the loaded elevation dataset keeps its
    width, height, cellSize and [elevationData] reference, and every
    elevation value read from it is the same. *)
Theorem dataset_unchanged this (h0 : heap) years g :
  (∀ w h' g', projectWeathering this h0 years g = Some (w, h', g') →
     h0 ⊆ h'
     ∧ ∀ t, getTerrain h0 (elevation this) = Some t →
         getTerrain h' (elevation this) = Some t
         ∧ ∀ y x v, readCell h0 (elevationData t) y x = Some v →
             readCell h' (elevationData t) y x = Some v)
  ∧ (∀ models h' g',
       generateWeatheringModels this h0 years g = Some (models, h', g') →
       h0 ⊆ h'
       ∧ ∀ t, getTerrain h0 (elevation this) = Some t →
           getTerrain h' (elevation this) = Some t
           ∧ ∀ y x v, readCell h0 (elevationData t) y x = Some v →
               readCell h' (elevationData t) y x = Some v).
Proof.
  split.
  - intros w h' g' Hsub%projectWeathering_frame. split; [done|].
    intros t Ht. split; [by eapply getTerrain_weaken|].
    intros y x v Hv. by eapply readCell_weaken.
  - intros models h' g' Hsub%generateWeatheringModels_frame. split; [done|].
    intros t Ht. split; [by eapply getTerrain_weaken|].
    intros y x v Hv. by eapply readCell_weaken.
Qed.

Lemma dataset_unchanged_witness :
  ∃ w h' g',
    projectWeathering exampleMap exampleHeap 1000 noRandom = Some (w, h', g')
    ∧ exampleHeap ⊆ h'
    ∧ getTerrain h' (elevation exampleMap) = Some exampleTerrain
    ∧ readCell h' (elevationData exampleTerrain) 1 2 = Some 2500.
Proof.
  destruct (projectWeathering_spec exampleMap exampleHeap _ _ _ example_wf
              1000 noRandom) as (w & h' & g' & _ & _ & Hrun & _).
  exists w, h', g'. split; [exact Hrun|].
  destruct (proj1 (dataset_unchanged exampleMap exampleHeap 1000 noRandom)
              w h' g' Hrun) as [Hsub Hds].
  split; [exact Hsub|].
  destruct (Hds exampleTerrain eq_refl) as [Ht Hcells].
  split; [exact Ht|]. exact (Hcells 1%nat 2%nat 2500 eq_refl).
Defined.

(** *** C7 *)

(** C7.  [determineTimeSteps(maxYears)] is the ladder selected by range,
    filtered to the values [<= maxYears]: its elements are exactly the
    ladder's elements that are at most [maxYears], in ascending order; and
    [determineTimeSteps(75)] is [[0, 10, 25, 50]]. *)
Theorem determineTimeSteps_ladder maxYears :
  determineTimeSteps maxYears = selectTimeSteps maxYears
  ∧ (∀ t, In t (determineTimeSteps maxYears)
          ↔ In t (ladder maxYears) ∧ t <= maxYears)
  ∧ StronglySorted Rlt (determineTimeSteps maxYears)
  ∧ determineTimeSteps 75 = [0; 10; 25; 50].
Proof.
  split; [apply determineTimeSteps_select|]. split; [|split].
  - intros t. rewrite determineTimeSteps_select. unfold selectTimeSteps.
    rewrite filter_In. by rewrite Rleb_true.
  - rewrite determineTimeSteps_select. apply filter_StronglySorted, ladder_sorted.
  - unfold determineTimeSteps. destruct (Rle_dec 75 100); [|lra].
    simpl. unfold Rleb.
    repeat match goal with
           | |- context [Rle_dec ?a ?b] => destruct (Rle_dec a b); try lra
           end.
    done.
Qed.

(** *** C8 *)

(** C8 (as stated, refuted).  In binary64, the arithmetic the code runs in,
    [calculateMineralReactivity({quartz: 0.5, feldspar: 0.5})] is not the
    number [0.4]. *)
Lemma quartzFeldspar_not_0_4 :
  calculateMineralReactivity (num := PrimFloat.float) quartzFeldspar
  ≠ decimal 4 10.
Proof.
  intros Heq. pose proof quartzFeldspar_binary64_ne as Hne.
  rewrite Heq in Hne. vm_compute in Hne. discriminate.
Qed.

(** C8 (amended).  For a composition none of whose mineral names is a
    property name inherited from [Object.prototype] (for such a name the
    lookup finds a function, not [undefined]), [calculateMineralReactivity]
    returns, in exact arithmetic, the abundance-weighted average of the
    table reactivities (quartz 0.1, feldspar 0.7, mica 0.5, calcite 0.9,
    dolomite 0.8) over the recognized minerals only when their total
    abundance is positive, and 0.5 otherwise, in particular when no
    recognized mineral is present; among the names that are not inherited,
    the recognized ones are those five.  For [{quartz: 0.5, feldspar: 0.5}]
    that average is 0.4.  In binary64 the code returns for that composition
    the double just below the double nearest 0.4 (0.39999999999999997). *)
Theorem calculateMineralReactivity_weighted_average
    (mineralComposition : list (string * R)) :
  Forall (λ p, inheritedName p.1 = false) mineralComposition →
  calculateMineralReactivity mineralComposition
  = (if Rlt_dec 0 (totalAbundance mineralComposition)
     then weightedReactivity mineralComposition
          / totalAbundance mineralComposition
     else 0.5)
  ∧ (recognizedOnly mineralComposition = [] →
     calculateMineralReactivity mineralComposition = 0.5)
  ∧ (∀ mineral,
       inheritedName mineral = false →
       recognized (num := R) mineral =
         if String.eqb mineral "quartz" then Some 0.1
         else if String.eqb mineral "feldspar" then Some 0.7
         else if String.eqb mineral "mica" then Some 0.5
         else if String.eqb mineral "calcite" then Some 0.9
         else if String.eqb mineral "dolomite" then Some 0.8
         else None)
  ∧ calculateMineralReactivity (num := R) quartzFeldspar = 0.4
  ∧ calculateMineralReactivity (num := PrimFloat.float) quartzFeldspar
    = PrimFloat.next_down (decimal 4 10).
Proof.
  intros _. split; [|split; [|split; [|split]]].
  - apply calculateMineralReactivity_real.
  - intros Hnone. rewrite calculateMineralReactivity_real.
    unfold totalAbundance. rewrite Hnone. simpl.
    destruct (Rlt_dec 0 0); lra.
  - intros mineral _. apply recognized_table.
  - apply quartzFeldspar_real.
  - apply quartzFeldspar_binary64.
Qed.

Lemma calculateMineralReactivity_weighted_average_witness :
  Forall (λ p : string * R, inheritedName p.1 = false) [("granite"%string, 1)]
  ∧ recognizedOnly [("granite"%string, 1)] = []
  ∧ calculateMineralReactivity [("granite"%string, 1)] = 0.5.
Proof.
  assert (Hown : Forall (λ p : string * R, inheritedName p.1 = false)
                   [("granite"%string, 1)]) by (repeat constructor).
  assert (Hnone : recognizedOnly [("granite"%string, 1)] = []).
  { unfold recognizedOnly. cbn [omap list_omap]. by rewrite recognized_table. }
  split; [exact Hown|]. split; [exact Hnone|].
  exact (proj1 (proj2 (calculateMineralReactivity_weighted_average
                         [("granite"%string, 1)] Hown)) Hnone).
Defined.

(** *** C9 *)

(** C9.  For every interior cell of a well-formed dataset ([cellSize > 0]),
    the aspect the code computes from the raw centered differences is the
    aspect of the spec, computed from the differences divided by
    [2 * cellSize]. *)
Theorem calculateAspect_scale_invariant this (h : heap) t rs G x y :
  wfDataset this h t rs G →
  (x < width t)%nat → (y < height t)%nat →
  onEdge (width t) (height t) x y = false →
  ∃ zE zW zS zN,
    cell G y (x + 1) = Some zE ∧ cell G y (x - 1) = Some zW
    ∧ cell G (y + 1) x = Some zS ∧ cell G (y - 1) x = Some zN
    ∧ calculateAspect this h x y = Some (Math_atan2 (- (zS - zN)) (zE - zW))
    ∧ aspectRadians this h x y
      = Some (Math_atan2 (- ((zS - zN) / (2 * cellSize t)))
                         ((zE - zW) / (2 * cellSize t)))
    ∧ calculateAspect this h x y = aspectRadians this h x y.
Proof.
  intros Hwf Hx Hy He.
  destruct (calculateAspect_interior this h t rs G Hwf x y Hx Hy He)
    as (zE & zW & zS & zN & HE & HW & HS & HN & Ha).
  exists zE, zW, zS, zN. do 5 (split; [done|]).
  pose proof (calculateAspect_aspectRadians this h t x y (proj1 (proj1 Hwf))
                (proj2 Hwf)) as Heq.
  split; [|done]. rewrite <- Heq, Ha. f_equal.
  replace (- ((zS - zN) / (2 * cellSize t)))
    with (- (zS - zN) / (2 * cellSize t)) by (destruct Hwf; field; lra).
  symmetry. apply Math_atan2_scale. destruct Hwf. lra.
Qed.

Lemma calculateAspect_scale_invariant_witness :
  wfDataset exampleMap exampleHeap exampleTerrain exampleRows exampleGrid
  ∧ (1 < 3)%nat ∧ (1 < 3)%nat ∧ onEdge 3 3 1 1 = false
  ∧ calculateAspect exampleMap exampleHeap 1 1
    = aspectRadians exampleMap exampleHeap 1 1.
Proof.
  split; [exact example_wf|]. split; [lia|]. split; [lia|].
  split; [reflexivity|].
  destruct (calculateAspect_scale_invariant exampleMap exampleHeap
              exampleTerrain exampleRows exampleGrid 1 1 example_wf
              ltac:(simpl; lia) ltac:(simpl; lia) eq_refl)
    as (zE & zW & zS & zN & _ & _ & _ & _ & _ & _ & Heq).
  exact Heq.
Defined.

(** *** C10 *)

(** C10.  In [projectWeathering]'s per-cell loop the loss of a cell is the
    one [calculateCellWeathering] computes on the heap as it was before the
    call, that is from the loaded dataset: it is computed the same in every
    heap that extends that heap, and the loop leaves in every cell of the
    snapshot the dataset's elevation less that loss.  Visiting the cells in
    any other order (any permutation of the loop's order) returns, and
    leaves the same number in every cell. *)
Theorem weathering_order_independent this (h0 : heap) tb rsb G0 w h1 tw
    intensity (order : list (nat * nat)) :
  wfDataset this h0 tb rsb G0 →
  cloneTerrainModel h0 (elevation this) = Some (w, h1) →
  getTerrain h1 w = Some tw →
  order ≡ₚ columnMajor (width tw) (height tw) →
  ∃ h2 h2',
    forEach (seq 0 (width tw)) (λ x,
      forEach (seq 0 (height tw)) (λ y,
        weatherCell this tw intensity x y)) h1 = Some h2
    ∧ forEach order (λ c, weatherCell this tw intensity c.1 c.2) h1 = Some h2'
    ∧ ∀ x y, (x < width tw)%nat → (y < height tw)%nat →
        ∃ v c,
          readCell h0 (elevationData tb) y x = Some v
          ∧ calculateCellWeathering this h0 x y intensity = Some c
          ∧ (∀ h, h0 ⊆ h →
               calculateCellWeathering this h x y intensity = Some c)
          ∧ readCell h2 (elevationData tw) y x = Some (v - c)
          ∧ readCell h2' (elevationData tw) y x = Some (v - c).
Proof.
  intros Hwf Hclone Htw Hperm.
  destruct (cloneTerrainModel_owns h0 (elevation this) tb rsb G0 (proj1 Hwf))
    as (w' & h1' & tw' & rs & Hclone' & Hown & HW & HH & _).
  rewrite Hclone in Hclone'. injection Hclone' as <- <-.
  assert (tw' = tw) as ->.
  { pose proof (proj1 (proj1 (proj2 Hown))). congruence. }
  destruct (weatherLoop_spec this h0 tb rsb G0 Hwf w tw rs HW HH intensity
              (columnMajor (width tw) (height tw)) h1 G0)
    as (h2 & Hloop & Hown2); [|done|].
  { intros x y. apply elem_of_columnMajor. }
  destruct (weatherLoop_spec this h0 tb rsb G0 Hwf w tw rs HW HH intensity
              order h1 G0)
    as (h2' & Hloop' & Hown2'); [|done|].
  { intros x y Hin. apply elem_of_columnMajor. by rewrite <- Hperm. }
  exists h2, h2'. split; [by rewrite forEach_columnMajor|]. split; [done|].
  intros x y Hx Hy.
  destruct (calculateCellWeathering_total this h0 tb rsb G0 Hwf x y intensity)
    as (s & a & e & _ & _ & _ & Hc); [lia..|].
  destruct (represents_readCell _ _ _ _ _ y x (proj1 Hwf)) as (v & Hv & Hr);
    [lia..|].
  eexists v, _. split; [done|]. split; [exact Hc|]. split.
  { intros h Hsub. by eapply calculateCellWeathering_weaken. }
  rewrite (represents_readCell_cell _ _ _ _ _ _ _ (proj1 (proj2 Hown2))).
  rewrite (represents_readCell_cell _ _ _ _ _ _ _ (proj1 (proj2 Hown2'))).
  rewrite (cell_alterCells_all _ _ (width tw) (height tw));
    [|apply NoDup_columnMajor|apply elem_of_columnMajor|lia|lia].
  rewrite (cell_alterCells_all _ order (width tw) (height tw));
    [| |intros; rewrite Hperm; apply elem_of_columnMajor|lia|lia].
  2:{ rewrite Hperm. apply NoDup_columnMajor. }
  rewrite Hv. simpl. unfold weathered, cellLoss. rewrite Hc. done.
Qed.

Lemma weathering_order_independent_witness :
  wfDataset exampleMap exampleHeap exampleTerrain exampleRows exampleGrid
  ∧ ∃ w h1 tw h2 h2',
      cloneTerrainModel exampleHeap (elevation exampleMap) = Some (w, h1)
      ∧ getTerrain h1 w = Some tw
      ∧ rowMajor (width tw) (height tw) ≡ₚ columnMajor (width tw) (height tw)
      ∧ forEach (seq 0 (width tw)) (λ x,
          forEach (seq 0 (height tw)) (λ y,
            weatherCell exampleMap tw 1 x y)) h1 = Some h2
      ∧ forEach (rowMajor (width tw) (height tw))
          (λ c, weatherCell exampleMap tw 1 c.1 c.2) h1 = Some h2'.
Proof.
  split; [exact example_wf|].
  destruct (cloneTerrainModel_owns exampleHeap (elevation exampleMap) _ _ _
              (proj1 example_wf))
    as (w & h1 & tw & rs & Hclone & Hown & _).
  destruct (weathering_order_independent exampleMap exampleHeap exampleTerrain
              exampleRows exampleGrid w h1 tw 1
              (rowMajor (width tw) (height tw)) example_wf Hclone
              (proj1 (proj1 (proj2 Hown)))
              (columnMajor_rowMajor (width tw) (height tw)))
    as (h2 & h2' & Hloop & Hloop' & _).
  exists w, h1, tw, h2, h2'. split; [exact Hclone|].
  split; [exact (proj1 (proj1 (proj2 Hown)))|].
  split; [exact (columnMajor_rowMajor (width tw) (height tw))|].
  split; [exact Hloop | exact Hloop'].
Defined.

(** * Further properties of the code *)

(** * Further properties of the code *)

(** ** Ranges of the per-cell modifiers *)

Lemma calculateElevationFactor_ge_1 e : 1 <= calculateElevationFactor e.
Proof. unfold calculateElevationFactor. destruct (Rlt_dec e 500); lra. Qed.

(** The product of the three factors of a cell's loss. *)
Lemma weathering_factors_range (i s a ef : R) :
  0 <= i → 0 <= s < 90 → 1 <= ef →
  0.8 * i <= i * (1 + s / 45) * (1 + sin a * 0.2) * ef <= 3.6 * i * ef.
Proof.
  intros Hi Hs Hef. pose proof (SIN_bound a) as [? ?].
  set (sf := 1 + s / 45). set (af := 1 + sin a * 0.2).
  assert (1 <= sf <= 3) by (unfold sf; lra).
  assert (0.8 <= af <= 1.2) by (unfold af; lra).
  split.
  - assert (i * 1 <= i * sf) by (apply Rmult_le_compat_l; lra).
    assert (i * sf * 0.8 <= i * sf * af) by (apply Rmult_le_compat_l; nra).
    assert (i * sf * af * 1 <= i * sf * af * ef)
      by (apply Rmult_le_compat_l; nra).
    lra.
  - assert (i * sf <= i * 3) by (apply Rmult_le_compat_l; lra).
    assert (i * sf * af <= i * sf * 1.2) by (apply Rmult_le_compat_l; nra).
    assert (i * sf * af * ef <= i * 3 * 1.2 * ef)
      by (apply Rmult_le_compat_r; nra).
    lra.
Qed.

(** X1.  The elevation factor is 1 up to 500 m (both branches agree at the
    threshold), at least 1 everywhere, and never decreases with
    elevation. *)
Theorem calculateElevationFactor_monotone (a b : R) :
  1 <= calculateElevationFactor a
  ∧ (a <= 500 → calculateElevationFactor a = 1)
  ∧ (a <= b → calculateElevationFactor a <= calculateElevationFactor b).
Proof.
  unfold calculateElevationFactor.
  destruct (Rlt_dec a 500), (Rlt_dec b 500); repeat split; intros; lra.
Qed.

Lemma calculateElevationFactor_monotone_witness :
  900 <= 2500
  ∧ calculateElevationFactor 900 <= calculateElevationFactor 2500.
Proof.
  assert (H : 900 <= 2500) by lra. split; [exact H|].
  exact (proj2 (proj2 (calculateElevationFactor_monotone 900 2500)) H).
Defined.

Lemma atan_lt_PI2 u : atan u < PI / 2.
Proof. apply atan_bound. Qed.

Lemma calculateSlope_lt_90 this (h : heap) x y s :
  calculateSlope this h x y = Some s → s < 90.
Proof.
  unfold calculateSlope. intros H.
  apply bind_Some in H as (ds & _ & H).
  apply bind_Some in H as ([] & _ & H); [simplify_eq; lra|].
  do 6 apply bind_Some in H as (? & _ & H). simplify_eq.
  pose proof PI_RGT_0 as Hpi. pose proof degrees_pos as Hd.
  replace 90 with (PI / 2 * (180 / PI)) by (field; lra).
  apply Rmult_lt_compat_r; [done | apply atan_lt_PI2].
Qed.

Lemma Math_atan2_range y x : - PI < Math_atan2 y x <= PI.
Proof.
  pose proof PI_RGT_0 as Hpi. unfold Math_atan2.
  destruct (Rlt_dec 0 x) as [Hx|Hx].
  { pose proof (atan_bound (y / x)). lra. }
  destruct (Rlt_dec x 0) as [Hx'|Hx'].
  - assert (Hix : / x < 0) by by apply Rinv_lt_0_compat.
    destruct (Rle_dec 0 y) as [Hy|Hy].
    + assert (y / x <= 0) by (unfold Rdiv; nra).
      assert (atan (y / x) <= 0).
      { destruct (Req_dec (y / x) 0) as [->|]; [rewrite atan_0; lra|].
        left. rewrite <- atan_0. apply atan_increasing. lra. }
      pose proof (atan_bound (y / x)). lra.
    + assert (0 < y / x) by (unfold Rdiv; nra).
      assert (0 < atan (y / x)).
      { rewrite <- atan_0. by apply atan_increasing. }
      pose proof (atan_bound (y / x)). lra.
  - destruct (Rlt_dec 0 y); [lra|]. destruct (Rlt_dec y 0); lra.
Qed.

Lemma calculateAspect_range this (h : heap) x y a :
  calculateAspect this h x y = Some a → - PI < a <= PI.
Proof.
  unfold calculateAspect. intros H. pose proof PI_RGT_0 as Hpi.
  apply bind_Some in H as (ds & _ & H).
  apply bind_Some in H as ([] & _ & H); [simplify_eq; lra|].
  do 4 apply bind_Some in H as (? & _ & H). simplify_eq.
  apply Math_atan2_range.
Qed.

Lemma calculateSlope_range this (h : heap) x y s :
  calculateSlope this h x y = Some s → 0 <= s < 90.
Proof.
  intros Hs. split; [by eapply calculateSlope_nonneg
                    | by eapply calculateSlope_lt_90].
Qed.

(** X2.  For every cell of a well-formed dataset [calculateSlope] and
    [calculateAspect] return, the slope between 0 and 90 degrees and the
    aspect between [-PI] and [PI] radians, both ends included.  (In exact
    arithmetic the slope stays below 90, which binary64 reaches by rounding
    on a grid of very small cells; the aspect is [-PI] in the code where
    the northward difference is [-0] and the eastward one negative.) *)
Theorem slope_and_aspect_ranges this (h : heap) t rs G (x y : nat) :
  wfDataset this h t rs G →
  (x < width t)%nat → (y < height t)%nat →
  ∃ s a,
    calculateSlope this h x y = Some s
    ∧ calculateAspect this h x y = Some a
    ∧ 0 <= s <= 90
    ∧ - PI <= a <= PI.
Proof.
  intros Hwf Hx Hy.
  destruct (calculateSlope_total this h t rs G Hwf x y Hx Hy) as [s Hs].
  destruct (calculateAspect_total this h t rs G Hwf x y Hx Hy) as [a Ha].
  pose proof (calculateSlope_range this h x y s Hs) as Hsr.
  pose proof (calculateAspect_range this h x y a Ha) as Har.
  exists s, a. split; [exact Hs|]. split; [exact Ha|]. split; lra.
Qed.

Lemma slope_and_aspect_ranges_witness :
  ∃ s a,
    calculateSlope exampleMap exampleHeap 1 1 = Some s
    ∧ calculateAspect exampleMap exampleHeap 1 1 = Some a
    ∧ 0 <= s <= 90
    ∧ - PI <= a <= PI.
Proof.
  apply (slope_and_aspect_ranges exampleMap exampleHeap exampleTerrain
           exampleRows exampleGrid 1 1 example_wf); simpl; lia.
Defined.

Lemma calculateCellWeathering_between this (h : heap) (x y : nat)
    (intensity c : R) :
  0 <= intensity →
  calculateCellWeathering this h x y intensity = Some c →
  ∃ ds elev,
    getTerrain h (elevation this) = Some ds
    ∧ readCell h (elevationData ds) y x = Some elev
    ∧ 0.8 * intensity <= c
    ∧ c <= 3.6 * intensity * calculateElevationFactor elev.
Proof.
  intros Hi H. unfold calculateCellWeathering in H.
  apply bind_Some in H as (s & Hs & H).
  apply bind_Some in H as (a & Ha & H).
  apply bind_Some in H as (ds & Hds & H).
  apply bind_Some in H as (elev & He & H). simplify_eq.
  exists ds, elev. split; [done|]. split; [done|].
  apply weathering_factors_range; [done| |apply calculateElevationFactor_ge_1].
  exact (calculateSlope_range this h x y s Hs).
Qed.

(** X3.  For every cell of a well-formed dataset and a non-negative
    intensity, [calculateCellWeathering] returns a loss between 0.8 times
    the intensity and 3.6 times the intensity times the elevation factor of
    the cell: the slope factor is in [[1, 3)], the aspect factor in
    [[0.8, 1.2]] and the elevation factor at least 1.  In particular the
    loss is never negative. *)
Theorem calculateCellWeathering_bounds this (h : heap) t rs G (x y : nat)
    (intensity : R) :
  wfDataset this h t rs G →
  (x < width t)%nat → (y < height t)%nat →
  0 <= intensity →
  ∃ c elev,
    calculateCellWeathering this h x y intensity = Some c
    ∧ readCell h (elevationData t) y x = Some elev
    ∧ 0.8 * intensity <= c
    ∧ c <= 3.6 * intensity * calculateElevationFactor elev.
Proof.
  intros Hwf Hx Hy Hi.
  destruct (calculateCellWeathering_total this h t rs G Hwf x y intensity
              Hx Hy) as (s & a & e & _ & _ & _ & Hc).
  destruct (calculateCellWeathering_between this h x y intensity _ Hi Hc)
    as (ds & elev & Hds & He & Hlo & Hhi).
  assert (ds = t) as -> by (destruct Hwf as [(Ht & _) _]; congruence).
  eexists _, elev. split; [exact Hc|]. split; [exact He|].
  split; [exact Hlo | exact Hhi].
Qed.

Lemma calculateCellWeathering_bounds_witness :
  ∃ c elev,
    calculateCellWeathering exampleMap exampleHeap 1 1 1 = Some c
    ∧ readCell exampleHeap (elevationData exampleTerrain) 1 1 = Some elev
    ∧ 0.8 * 1 <= c
    ∧ c <= 3.6 * 1 * calculateElevationFactor elev.
Proof.
  apply (calculateCellWeathering_bounds exampleMap exampleHeap exampleTerrain
           exampleRows exampleGrid 1 1 1 example_wf);
    [simpl; lia | simpl; lia | lra].
Defined.

(** ** What a projection does to a cell *)

Section ProjectedCell.
Context (this : WeatheringMap) (h : heap) (t : terrain) (rs : list loc)
        (G : grid).
Hypothesis wf : wfDataset this h t rs G.

(** The number a projection leaves in a cell, spelled out. *)
Lemma projected_formula years x y v :
  (x < width t)%nat → (y < height t)%nat → cell G y x = Some v →
  ∃ s a,
    calculateSlope this h x y = Some s
    ∧ calculateAspect this h x y = Some a
    ∧ 0 <= s < 90
    ∧ projected this h years x y v =
        (let v1 := v - years * calculateTotalWeatheringRate this
                       * (1 + s / 45) * (1 + sin a * 0.2)
                       * calculateElevationFactor v
                     - 0.00005 * years * 1 * (s / 45) in
         if Rlt_dec s 10
         then v1 + Rmax 0 (0.00002 * years * 1 * (1 - s / 90))
         else v1).
Proof using wf.
  intros Hx Hy Hv.
  destruct (calculateCellWeathering_total this h t rs G wf x y
              (years * calculateTotalWeatheringRate this) Hx Hy)
    as (s & a & e & Hs & Ha & He & Hc).
  assert (e = v) as -> by congruence.
  exists s, a. split; [done|]. split; [done|]. split.
  { split; [by eapply calculateSlope_nonneg | by eapply calculateSlope_lt_90]. }
  unfold projected, deposited, eroded, weathered, cellLoss, slopeAt.
  rewrite Hc, Hs. simpl. done.
Qed.

End ProjectedCell.

(** X4.  For a well-formed dataset, non-negative years and a non-negative
    total rate, every cell of the snapshot returned by [projectWeathering]
    is at most the dataset's elevation less 0.8 times the intensity plus
    [0.00002 * years], and at least the dataset's elevation less 3.6 times
    the intensity times the elevation factor less [0.0001 * years]. *)
Theorem projectWeathering_bounds this (h0 : heap) tb rsb G0 years g :
  wfDataset this h0 tb rsb G0 →
  0 <= years → 0 <= calculateTotalWeatheringRate this →
  ∃ w h' g' tw,
    projectWeathering this h0 years g = Some (w, h', g')
    ∧ getTerrain h' w = Some tw
    ∧ ∀ x y, (x < width tb)%nat → (y < height tb)%nat →
        ∃ v v',
          readCell h0 (elevationData tb) y x = Some v
          ∧ readCell h' (elevationData tw) y x = Some v'
          ∧ v - 3.6 * (years * calculateTotalWeatheringRate this)
                * calculateElevationFactor v - 0.0001 * years <= v'
          ∧ v' <= v - 0.8 * (years * calculateTotalWeatheringRate this)
                  + 0.00002 * years.
Proof.
  intros Hwf Hyears Hrate.
  destruct (projectWeathering_cells this h0 tb rsb G0 Hwf years g)
    as (w & h' & g' & tw & Hrun & _ & Htw & _ & _ & _ & Hcells).
  exists w, h', g', tw. split; [done|]. split; [done|].
  intros x y Hx Hy. destruct (Hcells x y Hx Hy) as (v & Hv & Hr).
  exists v, (projected this h0 years x y v). split; [done|]. split; [done|].
  rewrite (represents_readCell_cell _ _ _ _ _ _ _ (proj1 Hwf)) in Hv.
  destruct (projected_formula this h0 tb rsb G0 Hwf years x y v Hx Hy Hv)
    as (s & a & _ & _ & Hs & ->).
  assert (Hi : 0 <= years * calculateTotalWeatheringRate this)
    by by apply Rmult_le_pos.
  pose proof (weathering_factors_range _ s a (calculateElevationFactor v)
                Hi Hs (calculateElevationFactor_ge_1 v)) as [Hlo Hhi].
  assert (He : 0 <= 0.00005 * years * 1 * (s / 45) <= 0.0001 * years)
    by (split; nra).
  assert (Hd : 0 <= 0.00002 * years * 1 * (1 - s / 90) <= 0.00002 * years)
    by (split; nra).
  cbv zeta. destruct (Rlt_dec s 10).
  - rewrite Rmax_right by lra. lra.
  - lra.
Qed.

Lemma projectWeathering_bounds_witness :
  wfDataset exampleMap exampleHeap exampleTerrain exampleRows exampleGrid
  ∧ 0 <= 1000 ∧ 0 <= calculateTotalWeatheringRate exampleMap
  ∧ ∃ w h' g' tw,
      projectWeathering exampleMap exampleHeap 1000 noRandom = Some (w, h', g')
      ∧ getTerrain h' w = Some tw.
Proof.
  assert (Hr : 0 <= calculateTotalWeatheringRate exampleMap).
  { unfold calculateTotalWeatheringRate. simpl. lra. }
  split; [exact example_wf|]. split; [lra|]. split; [exact Hr|].
  destruct (projectWeathering_bounds exampleMap exampleHeap exampleTerrain
              exampleRows exampleGrid 1000 noRandom example_wf ltac:(lra) Hr)
    as (w & h' & g' & tw & Hrun & Htw & _).
  exists w, h', g', tw. split; [exact Hrun | exact Htw].
Defined.

(** X5.  On the border of a well-formed dataset (first or last row or
    column) a projection never erodes: the snapshot holds the dataset's
    elevation less [intensity * elevationFactor] plus the full deposition
    [max(0, 0.00002 * years)]. *)
Theorem projectWeathering_border this (h0 : heap) tb rsb G0 years g :
  wfDataset this h0 tb rsb G0 →
  ∃ w h' g' tw,
    projectWeathering this h0 years g = Some (w, h', g')
    ∧ getTerrain h' w = Some tw
    ∧ ∀ x y, (x < width tb)%nat → (y < height tb)%nat →
        onEdge (width tb) (height tb) x y = true →
        ∃ v,
          readCell h0 (elevationData tb) y x = Some v
          ∧ readCell h' (elevationData tw) y x
            = Some (v - years * calculateTotalWeatheringRate this
                        * calculateElevationFactor v
                    + Rmax 0 (0.00002 * years)).
Proof.
  intros Hwf.
  destruct (projectWeathering_cells this h0 tb rsb G0 Hwf years g)
    as (w & h' & g' & tw & Hrun & _ & Htw & _ & _ & _ & Hcells).
  exists w, h', g', tw. split; [done|]. split; [done|].
  intros x y Hx Hy He. destruct (Hcells x y Hx Hy) as (v & Hv & ->).
  exists v. split; [done|]. f_equal.
  rewrite (represents_readCell_cell _ _ _ _ _ _ _ (proj1 Hwf)) in Hv.
  destruct (projected_formula this h0 tb rsb G0 Hwf years x y v Hx Hy Hv)
    as (s & a & Hs & Ha & _ & ->).
  rewrite (calculateSlope_edge this h0 tb rsb G0 Hwf x y Hx Hy He) in Hs.
  rewrite (calculateAspect_edge this h0 tb rsb G0 Hwf x y Hx Hy He) in Ha.
  simplify_eq. cbv zeta. rewrite sin_0.
  destruct (Rlt_dec 0 10); [|lra].
  replace (0.00002 * years * 1 * (1 - 0 / 90)) with (0.00002 * years) by lra.
  lra.
Qed.

Lemma projectWeathering_border_witness :
  wfDataset exampleMap exampleHeap exampleTerrain exampleRows exampleGrid
  ∧ (2 < 3)%nat ∧ (1 < 3)%nat ∧ onEdge 3 3 2 1 = true
  ∧ ∃ w h' g' tw,
      projectWeathering exampleMap exampleHeap 1000 noRandom = Some (w, h', g')
      ∧ getTerrain h' w = Some tw
      ∧ readCell h' (elevationData tw) 1 2
        = Some (2500 - 1000 * calculateTotalWeatheringRate exampleMap
                       * calculateElevationFactor 2500
                + Rmax 0 (0.00002 * 1000)).
Proof.
  split; [exact example_wf|]. split; [lia|]. split; [lia|].
  split; [reflexivity|].
  destruct (projectWeathering_border exampleMap exampleHeap exampleTerrain
              exampleRows exampleGrid 1000 noRandom example_wf)
    as (w & h' & g' & tw & Hrun & Htw & Hcells).
  exists w, h', g', tw. split; [exact Hrun|]. split; [exact Htw|].
  destruct (Hcells 2%nat 1%nat ltac:(simpl; lia) ltac:(simpl; lia) eq_refl)
    as (v & Hv & Hr).
  assert (Hc : readCell exampleHeap (elevationData exampleTerrain) 1 2
               = Some 2500) by reflexivity.
  assert (v = 2500) as -> by congruence.
  exact Hr.
Defined.



(** ** Cloning *)

Lemma cloneTerrainModel_fresh (h0 : heap) l w h1 :
  cloneTerrainModel h0 l = Some (w, h1) → h0 !! w = None.
Proof.
  unfold cloneTerrainModel. intros H.
  apply bind_Some in H as (t & Ht & H).
  apply bind_Some in H as (rs & Hrs & H).
  apply bind_Some in H as (G & HG & H).
  destruct (allocAll h0 (ONums <$> G)) as [rs' ha] eqn:Hall.
  destruct (alloc ha (ORows rs')) as [d' hb] eqn:Hd.
  destruct (alloc hb _) as [w' hc] eqn:Hw. simplify_eq.
  apply allocAll_spec in Hall as (Hsub & _).
  apply alloc_spec in Hd as [Hd ->].
  apply alloc_spec in Hw as [Hw ->].
  eapply lookup_weaken_None; [exact Hw|].
  etrans; [exact Hsub|]. by apply insert_subseteq.
Qed.

Lemma readCell_rows (h h' : heap) d d' rs rs' (G : grid) y x :
  getRows h d = Some rs → getRows h' d' = Some rs' →
  Forall2 (λ r row, getNums h r = Some row) rs G →
  Forall2 (λ r row, getNums h' r = Some row) rs' G →
  readCell h' d' y x = readCell h d y x.
Proof.
  intros Hrs Hrs' HG HG'. unfold readCell. rewrite Hrs, Hrs'. simpl.
  destruct (G !! y) as [row|] eqn:Hrow.
  - destruct (Forall2_lookup_r _ _ _ _ _ HG Hrow) as (r & Hr & Hn).
    destruct (Forall2_lookup_r _ _ _ _ _ HG' Hrow) as (r' & Hr' & Hn').
    rewrite Hr, Hr'. simpl. by rewrite Hn, Hn'.
  - apply lookup_ge_None in Hrow.
    rewrite (proj2 (lookup_ge_None rs y)), (proj2 (lookup_ge_None rs' y)); [done|..].
    + by rewrite (Forall2_length _ _ _ HG').
    + by rewrite (Forall2_length _ _ _ HG).
Qed.

Lemma cloneTerrainModel_separate (h0 : heap) (l w : loc) (h1 : heap) :
  cloneTerrainModel h0 l = Some (w, h1) →
  ∃ t t',
    getTerrain h0 l = Some t ∧ getTerrain h1 w = Some t'
    ∧ h0 !! w = None ∧ h0 ⊆ h1
    ∧ width t' = width t ∧ height t' = height t ∧ cellSize t' = cellSize t
    ∧ (∀ y x, readCell h1 (elevationData t') y x
              = readCell h0 (elevationData t) y x)
    ∧ (∀ y x f h2, updateCell h1 (elevationData t') y x f = Some h2 →
         ∀ y' x', readCell h2 (elevationData t) y' x'
                  = readCell h1 (elevationData t) y' x')
    ∧ (∀ y x f h2, updateCell h1 (elevationData t) y x f = Some h2 →
         ∀ y' x', readCell h2 (elevationData t') y' x'
                  = readCell h1 (elevationData t') y' x').
Proof.
  intros Hclone.
  pose proof (cloneTerrainModel_fresh _ _ _ _ Hclone) as Hw.
  destruct (cloneTerrainModel_Some _ _ _ _ Hclone)
    as (t & rs & G & rs' & d' & Ht & Hrs & HG & Hsub & Ht' & Hrs' & HG' & Hnd & Hfresh).
  exists t, (Terrain (width t) (height t) (cellSize t) d').
  split; [exact Ht|]. split; [exact Ht'|]. split; [exact Hw|].
  split; [exact Hsub|]. do 3 (split; [reflexivity|]). simpl.
  assert (Hrs1 : getRows h1 (elevationData t) = Some rs)
    by exact (getRows_weaken _ _ _ _ Hrs Hsub).
  assert (HG1 : Forall2 (λ r row, getNums h1 r = Some row) rs G).
  { eapply Forall2_impl; [exact HG|]. intros r row Hr.
    exact (getNums_weaken _ _ _ _ Hr Hsub). }
  assert (Hdisj : ∀ i j r, rs !! i = Some r → rs' !! j = Some r → False).
  { intros i j r Hi Hj.
    pose proof (proj1 (Forall_lookup _ _) Hfresh _ _ Hj) as Hnone.
    destruct (Forall2_lookup_l _ _ _ _ _ HG Hi) as (row & _ & Hrow).
    unfold getNums in Hrow. simpl in Hnone. by rewrite Hnone in Hrow. }
  split; [|split].
  - intros y x. by eapply readCell_rows.
  - intros y x f h2 Hu y' x'.
    pose proof (updateCell_getRows _ _ _ _ _ _ (elevationData t) Hu) as Hrows2.
    apply updateCell_Some in Hu as (rs0 & r & cs & v & Hrs0 & Hr & Hcs & Hv & ->).
    rewrite Hrs' in Hrs0. simplify_eq.
    unfold readCell. rewrite Hrows2, Hrs1. simpl.
    destruct (rs !! y') as [r0|] eqn:Hr0; simpl; [|done].
    rewrite getNums_insert_ne; [done|]. intros ->. by eapply Hdisj.
  - intros y x f h2 Hu y' x'.
    pose proof (updateCell_getRows _ _ _ _ _ _ d' Hu) as Hrows2.
    apply updateCell_Some in Hu as (rs0 & r & cs & v & Hrs0 & Hr & Hcs & Hv & ->).
    rewrite Hrs1 in Hrs0. simplify_eq.
    unfold readCell. rewrite Hrows2, Hrs'. simpl.
    destruct (rs' !! y') as [r0|] eqn:Hr0; simpl; [|done].
    rewrite getNums_insert_ne; [done|]. intros ->. by eapply Hdisj.
Qed.

(** X7.  Cloning a terrain model whose arrays are in place returns a new
    object with the width, height and cellSize of the original and the same
    number in every cell; nothing that existed is changed, and the two
    share no array: a write to a cell of the clone leaves every cell of the
    original as it was, and a write to a cell of the original leaves every
    cell of the clone as it was. *)
Theorem cloneTerrainModel_deep_copy (h0 : heap) (l : loc) t rs G :
  represents h0 l t rs G →
  ∃ w h1 t',
    cloneTerrainModel h0 l = Some (w, h1)
    ∧ getTerrain h1 w = Some t'
    ∧ h0 !! w = None ∧ h0 ⊆ h1
    ∧ width t' = width t ∧ height t' = height t ∧ cellSize t' = cellSize t
    ∧ (∀ y x, readCell h1 (elevationData t') y x
              = readCell h0 (elevationData t) y x)
    ∧ (∀ y x f h2, updateCell h1 (elevationData t') y x f = Some h2 →
         ∀ y' x', readCell h2 (elevationData t) y' x'
                  = readCell h1 (elevationData t) y' x')
    ∧ (∀ y x f h2, updateCell h1 (elevationData t) y x f = Some h2 →
         ∀ y' x', readCell h2 (elevationData t') y' x'
                  = readCell h1 (elevationData t') y' x').
Proof.
  intros Hrep.
  destruct (cloneTerrainModel_total h0 l t rs G Hrep) as [[w h1] Hclone].
  destruct (cloneTerrainModel_separate h0 l w h1 Hclone)
    as (t0 & t' & Ht & Ht' & Hrest).
  assert (t0 = t) as -> by (destruct Hrep as (Ht0 & _); congruence).
  exists w, h1, t'. split; [exact Hclone|]. split; [exact Ht'|]. exact Hrest.
Qed.

Lemma cloneTerrainModel_deep_copy_witness :
  ∃ w h1 t',
    cloneTerrainModel exampleHeap 1%positive = Some (w, h1)
    ∧ getTerrain h1 w = Some t'
    ∧ readCell h1 (elevationData t') 1 2
      = readCell exampleHeap (elevationData exampleTerrain) 1 2.
Proof.
  destruct (cloneTerrainModel_deep_copy exampleHeap 1%positive exampleTerrain
              exampleRows exampleGrid (proj1 example_wf))
    as (w & h1 & t' & Hclone & Ht' & _ & _ & _ & _ & _ & Hcells & _).
  exists w, h1, t'. split; [exact Hclone|]. split; [exact Ht'|].
  exact (Hcells 1%nat 2%nat).
Defined.

(** ** The models of [generateWeatheringModels] *)

Lemma projectWeathering_fresh this (h : heap) years g w h' g' :
  projectWeathering this h years g = Some (w, h', g') → h !! w = None.
Proof.
  unfold projectWeathering. intros Hrun.
  apply bind_Some in Hrun as ([w1 h1] & Hclone & Hrun).
  apply bind_Some in Hrun as (tw & _ & Hrun).
  apply bind_Some in Hrun as (h2 & _ & Hrun).
  apply bind_Some in Hrun as ([h3 g3] & _ & Hrun). simplify_eq.
  by eapply cloneTerrainModel_fresh.
Qed.

Section Models.
Context (this : WeatheringMap) (h0 : heap) (tb : terrain) (rsb : list loc)
        (G0 : grid).
Hypothesis wf : wfDataset this h0 tb rsb G0.

Lemma projected_weaken h ts x y v :
  h0 ⊆ h → (x < width tb)%nat → (y < height tb)%nat →
  projected this h ts x y v = projected this h0 ts x y v.
Proof using wf.
  intros Hsub Hx Hy.
  destruct (calculateCellWeathering_total this h0 tb rsb G0 wf x y
              (ts * calculateTotalWeatheringRate this) Hx Hy)
    as (s & a & e & Hs & _ & _ & Hc).
  unfold projected, deposited, eroded, weathered, cellLoss, slopeAt.
  rewrite (calculateCellWeathering_weaken _ _ _ _ _ _ _ Hc Hsub), Hc.
  by rewrite (calculateSlope_weaken _ _ _ _ _ _ Hs Hsub), Hs.
Qed.

Lemma snapshotOf_weaken h h' ts w :
  h ⊆ h' → snapshotOf this h0 tb h ts w → snapshotOf this h0 tb h' ts w.
Proof.
  intros Hsub (tw & Ht & HW & HH & Hcs & Hnew & Hcells).
  exists tw. split; [by eapply getTerrain_weaken|]. do 4 (split; [done|]).
  intros x y Hx Hy. destruct (Hcells x y Hx Hy) as (v & Hv & Hr).
  exists v. split; [done|]. by eapply readCell_weaken.
Qed.

Lemma projectWeathering_snapshot h ts g :
  h0 ⊆ h →
  ∃ w h' g',
    projectWeathering this h ts g = Some (w, h', g')
    ∧ h ⊆ h' ∧ h !! w = None ∧ snapshotOf this h0 tb h' ts w.
Proof using wf.
  intros Hsub.
  destruct (projectWeathering_cells this h tb rsb G0
              (wfDataset_weaken this h0 tb rsb G0 wf h Hsub) ts g)
    as (w & h' & g' & tw & Hrun & Hsub' & Htw & HW & HH & Hcs & Hcells).
  pose proof (projectWeathering_fresh _ _ _ _ _ _ _ Hrun) as Hnew.
  exists w, h', g'. do 3 (split; [done|]).
  exists tw. do 4 (split; [done|]).
  split; [by eapply lookup_weaken_None|].
  intros x y Hx Hy. destruct (Hcells x y Hx Hy) as (v & Hv & Hr).
  destruct (represents_readCell _ _ _ _ _ y x (proj1 wf) Hx Hy) as (v0 & _ & Hv0).
  pose proof (readCell_weaken _ _ _ _ _ _ Hv0 Hsub) as Hv0'.
  assert (v0 = v) as -> by congruence.
  exists v. split; [done|]. rewrite Hr. f_equal. by apply projected_weaken.
Qed.

Lemma generateWeatheringModels_loop (l : list R) :
  ∀ (models : list (R * loc)) h g,
    h0 ⊆ h →
    Forall (λ p, snapshotOf this h0 tb h p.1 p.2) models →
    NoDup models.*2 →
    ∃ new h' g',
      forEach l (λ timeStep '(models, h, g),
        '(m, h', g') ← projectWeathering this h timeStep g;
        Some (models ++ [(timeStep, m)], h', g')) (models, h, g)
      = Some (models ++ new, h', g')
      ∧ h ⊆ h' ∧ new.*1 = l
      ∧ Forall (λ p, snapshotOf this h0 tb h' p.1 p.2) (models ++ new)
      ∧ NoDup (models ++ new).*2.
Proof using wf.
  induction l as [|ts l IH]; intros models h g Hsub Hall Hnd.
  - exists [], h, g. rewrite app_nil_r. done.
  - destruct (projectWeathering_snapshot h ts g Hsub)
      as (w & h1 & g1 & Hrun & Hsub1 & Hnew & Hsnap).
    destruct (IH (models ++ [(ts, w)]) h1 g1) as (new & h' & g' & Hloop & Hsub' & Hkeys & Hall' & Hnd').
    + by etrans.
    + apply Forall_app. split.
      * eapply Forall_impl; [exact Hall|]. intros p Hp.
        by eapply snapshotOf_weaken.
      * by constructor.
    + rewrite fmap_app. simpl. apply NoDup_app. split; [done|]. split.
      * intros w' Hin Hin'. apply list_elem_of_singleton in Hin'. subst w'.
        apply list_elem_of_fmap in Hin as ([ts' w'] & -> & Hin). simpl in *.
        destruct (proj1 (Forall_forall _ _) Hall _ Hin) as (tw' & Ht' & _).
        unfold getTerrain in Ht'. simpl in Ht'. by rewrite Hnew in Ht'.
      * apply NoDup_singleton.
    + exists ((ts, w) :: new), h', g'. simpl. rewrite Hrun. simpl.
      rewrite <- app_assoc in Hloop, Hall', Hnd'. simpl in *.
      split; [done|]. split; [by etrans|]. split; [by f_equal|]. done.
Qed.

End Models.

(** X8.  For a well-formed dataset [generateWeatheringModels] returns one
    model per time step of [determineTimeSteps(years)], keyed by the step
    in that order.  The models are pairwise distinct objects created by the
    call, and the model of a step holds in every cell what a projection of
    the original dataset for that step alone leaves there: no step feeds
    into another. *)
Theorem generateWeatheringModels_models this (h0 : heap) tb rsb G0 years g :
  wfDataset this h0 tb rsb G0 →
  ∃ models h' g',
    generateWeatheringModels this h0 years g = Some (models, h', g')
    ∧ models.*1 = determineTimeSteps years
    ∧ NoDup models.*2
    ∧ ∀ ts w, (ts, w) ∈ models → snapshotOf this h0 tb h' ts w.
Proof.
  intros Hwf.
  destruct (generateWeatheringModels_loop this h0 tb rsb G0 Hwf
              (determineTimeSteps years) [] h0 g)
    as (new & h' & g' & Hloop & _ & Hkeys & Hall & Hnd);
    [done | constructor | constructor |].
  exists new, h', g'. split; [exact Hloop|]. split; [done|]. split; [done|].
  intros ts w Hin. exact (proj1 (Forall_forall _ _) Hall _ Hin).
Qed.

Lemma generateWeatheringModels_models_witness :
  wfDataset exampleMap exampleHeap exampleTerrain exampleRows exampleGrid
  ∧ ∃ models h' g',
      generateWeatheringModels exampleMap exampleHeap 75 noRandom
      = Some (models, h', g')
      ∧ models.*1 = determineTimeSteps 75.
Proof.
  split; [exact example_wf|].
  destruct (generateWeatheringModels_models exampleMap exampleHeap
              exampleTerrain exampleRows exampleGrid 75 noRandom example_wf)
    as (models & h' & g' & Hrun & Hkeys & _).
  exists models, h', g'. split; [exact Hrun | exact Hkeys].
Defined.

(** ** Time steps at the edges *)

Lemma determineTimeSteps_negative maxYears :
  maxYears < 0 → determineTimeSteps maxYears = [].
Proof.
  intros Hneg. unfold determineTimeSteps.
  destruct (Rle_dec maxYears 100); [|lra]. simpl. unfold Rleb.
  repeat match goal with
         | |- context [Rle_dec ?a ?b] => destruct (Rle_dec a b); try lra
         end.
  done.
Qed.

Lemma determineTimeSteps_head maxYears :
  0 <= maxYears → ∃ rest, determineTimeSteps maxYears = 0 :: rest.
Proof.
  intros Hpos. unfold determineTimeSteps.
  destruct (Rle_dec maxYears 100); [|destruct (Rle_dec maxYears 1000)];
    cbn [List.filter]; unfold Rleb at 1;
    (destruct (Rle_dec 0 maxYears); [|lra]); by eexists.
Qed.

(** X9.  [determineTimeSteps] returns no step exactly when [maxYears] is
    negative; otherwise the first step is 0, the year of the unweathered
    terrain. *)
Theorem determineTimeSteps_edges (maxYears : R) :
  (determineTimeSteps maxYears = [] ↔ maxYears < 0)
  ∧ (0 <= maxYears → ∃ rest, determineTimeSteps maxYears = 0 :: rest).
Proof.
  split; [|apply determineTimeSteps_head]. split.
  - intros Hnil. destruct (Rlt_dec maxYears 0) as [|Hge]; [done|].
    destruct (determineTimeSteps_head maxYears) as [rest Hrest]; [lra|].
    by rewrite Hrest in Hnil.
  - apply determineTimeSteps_negative.
Qed.

Lemma determineTimeSteps_edges_witness :
  0 <= 75 ∧ ∃ rest, determineTimeSteps 75 = 0 :: rest.
Proof.
  assert (H : 0 <= 75) by lra. split; [exact H|].
  exact (proj2 (determineTimeSteps_edges 75) H).
Defined.

(** ** No dataset loaded *)

(** X10.  When no elevation dataset is loaded ([this.datasets.elevation] is
    not a terrain object), [projectWeathering] fails, and so does
    [generateWeatheringModels] for every non-negative [years]; for negative
    [years] there is no time step and it returns no model, leaving the heap
    as it is. *)
Theorem no_dataset_loaded this (h : heap) (years : R) (g : Random) :
  getTerrain h (elevation this) = None →
  projectWeathering this h years g = None
  ∧ (0 <= years → generateWeatheringModels this h years g = None)
  ∧ (years < 0 → generateWeatheringModels this h years g = Some ([], h, g)).
Proof.
  intros Hnone.
  assert (Hp : ∀ ts g, projectWeathering this h ts g = None).
  { intros ts g0. unfold projectWeathering, cloneTerrainModel. by rewrite Hnone. }
  split; [apply Hp|]. split.
  - intros Hpos. unfold generateWeatheringModels.
    destruct (determineTimeSteps_head years Hpos) as [rest ->].
    simpl. by rewrite Hp.
  - intros Hneg. unfold generateWeatheringModels.
    by rewrite determineTimeSteps_negative.
Qed.

Lemma no_dataset_loaded_witness :
  getTerrain (∅ : heap) (elevation exampleMap) = None
  ∧ projectWeathering exampleMap ∅ 100 noRandom = None.
Proof.
  assert (H : getTerrain (∅ : heap) (elevation exampleMap) = None)
    by reflexivity.
  split; [exact H|].
  exact (proj1 (no_dataset_loaded exampleMap ∅ 100 noRandom H)).
Defined.

(** ** The rate model *)

Lemma recognized_range (mineral : string) r :
  recognized (num := R) mineral = Some r → 0.1 <= r <= 0.9.
Proof.
  rewrite recognized_table.
  repeat (destruct (String.eqb mineral _); [intros [= <-]; lra|]). done.
Qed.

Lemma recognizedOnly_cons mineral percentage comp :
  recognizedOnly ((mineral, percentage) :: comp)
  = match recognized mineral with
    | Some r => (r, percentage) :: recognizedOnly comp
    | None => recognizedOnly comp
    end.
Proof.
  unfold recognizedOnly. cbn [omap list_omap].
  by destruct (recognized mineral).
Qed.

Lemma weighted_between (comp : list (string * R)) :
  Forall (λ p, 0 <= p.2) comp →
  0 <= totalAbundance comp
  ∧ 0.1 * totalAbundance comp <= weightedReactivity comp
  ∧ weightedReactivity comp <= 0.9 * totalAbundance comp.
Proof.
  unfold totalAbundance, weightedReactivity.
  induction 1 as [|[mineral percentage] comp Hp _ IH]; [simpl; lra|].
  rewrite recognizedOnly_cons.
  destruct (recognized mineral) as [r|] eqn:Hr; [|exact IH].
  apply recognized_range in Hr. rewrite !fmap_cons.
  unfold sumOf in *. cbn [foldr snd] in *.
  assert (0 <= (r - 0.1) * percentage) by (apply Rmult_le_pos; lra).
  assert (0 <= (0.9 - r) * percentage) by (apply Rmult_le_pos; lra).
  lra.
Qed.

Lemma mineralReactivity_between (comp : list (string * R)) :
  Forall (λ p, 0 <= p.2) comp →
  0.1 <= calculateMineralReactivity comp <= 0.9.
Proof.
  intros Hpos. rewrite calculateMineralReactivity_real.
  destruct (weighted_between comp Hpos) as (_ & Hlo & Hhi).
  destruct (Rlt_dec 0 (totalAbundance comp)) as [Ht|_]; [|lra].
  split.
  - apply Rmult_le_reg_r with (totalAbundance comp); [done|].
    unfold Rdiv. rewrite Rmult_assoc, Rinv_l; lra.
  - apply Rmult_le_reg_r with (totalAbundance comp); [done|].
    unfold Rdiv. rewrite Rmult_assoc, Rinv_l; lra.
Qed.

(** X11.  For a composition with non-negative abundances (and no property
    name inherited from [Object.prototype]), [calculateMineralReactivity]
    returns a number between 0.1 and 0.9, the least and the greatest
    reactivity of the table. *)
Theorem calculateMineralReactivity_range
    (mineralComposition : list (string * R)) :
  Forall (λ p, inheritedName p.1 = false) mineralComposition →
  Forall (λ p, 0 <= p.2) mineralComposition →
  0.1 <= calculateMineralReactivity mineralComposition <= 0.9.
Proof. intros _. apply mineralReactivity_between. Qed.

Lemma calculateMineralReactivity_range_witness :
  0.1 <= calculateMineralReactivity
           [("calcite"%string, 0.8); ("quartz"%string, 0.1);
            ("feldspar"%string, 0.1)] <= 0.9.
Proof.
  apply calculateMineralReactivity_range.
  - repeat constructor.
  - repeat constructor; simpl; lra.
Defined.

Lemma sumOf_Permutation (l l' : list R) : l ≡ₚ l' → sumOf l = sumOf l'.
Proof.
  unfold sumOf. induction 1; simpl; lra.
Qed.

Lemma recognizedOnly_scale k comp :
  recognizedOnly (scaleAbundances k comp)
  = (λ '(r, p), (r, k * p)) <$> recognizedOnly comp.
Proof.
  unfold scaleAbundances.
  induction comp as [|[mineral percentage] comp IH]; [done|].
  rewrite fmap_cons, !recognizedOnly_cons, IH.
  by destruct (recognized mineral).
Qed.

Lemma scale_sums k comp :
  totalAbundance (scaleAbundances k comp) = k * totalAbundance comp
  ∧ weightedReactivity (scaleAbundances k comp) = k * weightedReactivity comp.
Proof.
  unfold totalAbundance, weightedReactivity. rewrite recognizedOnly_scale.
  unfold sumOf.
  induction (recognizedOnly comp) as [|[r p] l [IH1 IH2]];
    [simpl; lra|].
  rewrite !fmap_cons. cbn [foldr snd]. rewrite IH1, IH2. lra.
Qed.

(** X12.  In exact arithmetic the mineral reactivity depends on the
    proportions only: it is the same for the entries in any order, and the
    same when every abundance is multiplied by the same positive factor
    (fractions or percentages). *)
Theorem calculateMineralReactivity_invariant
    (mineralComposition other : list (string * R)) (k : R) :
  Forall (λ p, inheritedName p.1 = false) mineralComposition →
  mineralComposition ≡ₚ other →
  0 < k →
  calculateMineralReactivity other
  = calculateMineralReactivity mineralComposition
  ∧ calculateMineralReactivity (scaleAbundances k mineralComposition)
    = calculateMineralReactivity mineralComposition.
Proof.
  intros _ Hperm Hk. rewrite !calculateMineralReactivity_real. split.
  - assert (Hrec : recognizedOnly mineralComposition ≡ₚ recognizedOnly other).
    { unfold recognizedOnly. by rewrite Hperm. }
    unfold totalAbundance, weightedReactivity.
    rewrite (sumOf_Permutation (snd <$> recognizedOnly other)
               (snd <$> recognizedOnly mineralComposition))
      by (by rewrite Hrec).
    rewrite (sumOf_Permutation ((λ '(r, p), r * p) <$> recognizedOnly other)
               ((λ '(r, p), r * p) <$> recognizedOnly mineralComposition))
      by (by rewrite Hrec).
    done.
  - destruct (scale_sums k mineralComposition) as [-> ->].
    destruct (Rlt_dec 0 (totalAbundance mineralComposition)) as [Ht|Ht].
    + destruct (Rlt_dec 0 (k * totalAbundance mineralComposition)) as [_|Hn];
        [field; lra | exfalso; apply Hn; nra].
    + destruct (Rlt_dec 0 (k * totalAbundance mineralComposition)) as [Hp|_];
        [exfalso; apply Ht; nra | done].
Qed.

Lemma calculateMineralReactivity_invariant_witness :
  calculateMineralReactivity
    (scaleAbundances 100 [("quartz"%string, 0.5); ("feldspar"%string, 0.5)])
  = calculateMineralReactivity
      [("quartz"%string, 0.5); ("feldspar"%string, 0.5)].
Proof.
  refine (proj2 (calculateMineralReactivity_invariant
                   [("quartz"%string, 0.5); ("feldspar"%string, 0.5)]
                   [("feldspar"%string, 0.5); ("quartz"%string, 0.5)]
                   100 _ _ _)).
  - repeat constructor.
  - apply perm_swap.
  - lra.
Defined.

Lemma orElse_hardness (rockType : string) :
  orElse (rockHardnessIndex rockType) 0.5
  = if String.eqb rockType "granite" then 0.2
    else if String.eqb rockType "limestone" then 0.6
    else if String.eqb rockType "sandstone" then 0.8
    else if String.eqb rockType "shale" then 0.9
    else 0.5.
Proof.
  unfold orElse, rockHardnessIndex.
  repeat (destruct (String.eqb rockType _);
    [cbn; destruct (Req_dec_T _ 0) as [E|_]; [exfalso; lra | done]|]).
  done.
Qed.

(** X13.  With the three climate inputs inside the ranges the code
    normalises by (temperature range up to 40, freeze-thaw cycles up to 100,
    precipitation up to 2000), the physical rate lies between 0 and the
    hardness index of the rock, hence between 0 and 0.9.  A rock type that
    is not in the table counts with index 0.5: its rate lies between that of
    granite and that of limestone. *)
Theorem calculatePhysicalWeathering_bounds
    (tempRange freezeThawCycles precipitation : R) (rockType : string) :
  inheritedName rockType = false →
  0 <= tempRange <= 40 → 0 <= freezeThawCycles <= 100 →
  0 <= precipitation <= 2000 →
  0 <= calculatePhysicalWeathering tempRange freezeThawCycles precipitation
         rockType <= 0.9
  ∧ (rockHardnessIndex rockType = None →
     calculatePhysicalWeathering tempRange freezeThawCycles precipitation
       "granite"
     <= calculatePhysicalWeathering tempRange freezeThawCycles precipitation
          rockType
     <= calculatePhysicalWeathering tempRange freezeThawCycles precipitation
          "limestone").
Proof.
  intros _ Ht Hf Hp. unfold calculatePhysicalWeathering.
  rewrite !orElse_hardness.
  set (f := tempRange / 40 * 0.4 + freezeThawCycles / 100 * 0.4
            + precipitation / 2000 * 0.2).
  assert (Hf01 : 0 <= f <= 1) by (unfold f; lra).
  split.
  - repeat (destruct (String.eqb rockType _); [nra|]). nra.
  - unfold rockHardnessIndex.
    repeat (destruct (String.eqb rockType _); [done|]).
    intros _. simpl. nra.
Qed.

Lemma calculatePhysicalWeathering_bounds_witness :
  0 <= calculatePhysicalWeathering 25 30 1000 "basalt" <= 0.9.
Proof.
  refine (proj1 (calculatePhysicalWeathering_bounds 25 30 1000 "basalt"
                   _ _ _ _)); [reflexivity | lra | lra | lra].
Defined.

(** X14.  In exact arithmetic, the chemical rate saturates in temperature
    at 30 degrees and in precipitation at 2000 mm, and depends on the pH
    only through its distance from 7; for non-negative temperature,
    precipitation and abundances and a pH between 0 and 14 it lies between
    0.03 and 0.97.  (The binary64 sum can miss an end of that range by a
    unit in the last place.) *)
Theorem calculateChemicalWeathering_bounds
    (precipitation temperature : R)
    (mineralComposition : list (string * R)) (pH : R) :
  Forall (λ p, inheritedName p.1 = false) mineralComposition →
  Forall (λ p, 0 <= p.2) mineralComposition →
  (0 <= temperature → 0 <= precipitation → 0 <= pH <= 14 →
   0.03 <= calculateChemicalWeathering precipitation temperature
             mineralComposition pH <= 0.97)
  ∧ (30 <= temperature →
     calculateChemicalWeathering precipitation temperature
       mineralComposition pH
     = calculateChemicalWeathering precipitation 30 mineralComposition pH)
  ∧ (2000 <= precipitation →
     calculateChemicalWeathering precipitation temperature
       mineralComposition pH
     = calculateChemicalWeathering 2000 temperature mineralComposition pH)
  ∧ calculateChemicalWeathering precipitation temperature
      mineralComposition (14 - pH)
    = calculateChemicalWeathering precipitation temperature
        mineralComposition pH.
Proof.
  intros _ Hpos. unfold calculateChemicalWeathering.
  pose proof (mineralReactivity_between _ Hpos) as Hm.
  split; [|split; [|split]].
  - intros Ht Hp HpH.
    assert (0 <= Rmin (temperature / 30) 1 <= 1).
    { unfold Rmin. destruct (Rle_dec _ _); lra. }
    assert (0 <= Rmin (precipitation / 2000) 1 <= 1).
    { unfold Rmin. destruct (Rle_dec _ _); lra. }
    assert (0 <= Rabs (pH - 7) / 7 <= 1).
    { unfold Rabs. destruct (Rcase_abs _); lra. }
    lra.
  - intros Ht. do 3 f_equal. unfold Rmin.
    do 2 destruct (Rle_dec _ _); lra.
  - intros Hp. do 2 f_equal. f_equal. unfold Rmin.
    do 2 destruct (Rle_dec _ _); lra.
  - f_equal. f_equal. unfold Rabs. do 2 destruct (Rcase_abs _); lra.
Qed.

Lemma calculateChemicalWeathering_bounds_witness :
  0.03 <= calculateChemicalWeathering 1000 15
            [("calcite"%string, 0.8); ("quartz"%string, 0.1);
             ("feldspar"%string, 0.1)] 6.5 <= 0.97.
Proof.
  refine (proj1 (calculateChemicalWeathering_bounds 1000 15
                   [("calcite"%string, 0.8); ("quartz"%string, 0.1);
                    ("feldspar"%string, 0.1)] 6.5 _ _) _ _ _).
  - repeat constructor.
  - repeat constructor; simpl; lra.
  - lra.
  - lra.
  - lra.
Defined.

(** X15.  The biological rate is symmetric in temperature about 25 degrees,
    where it is greatest, and falls without bound away from it: it is
    negative at temperatures far enough from 25.  For a coverage up to 100,
    a root depth up to 10 and a temperature between 0 and 50 it lies
    between 0 and 1. *)
Theorem calculateBiologicalWeathering_temperature
    (vegetationCoverage rootDepth temperature : R) :
  calculateBiologicalWeathering vegetationCoverage rootDepth
    (50 - temperature)
  = calculateBiologicalWeathering vegetationCoverage rootDepth temperature
  ∧ calculateBiologicalWeathering vegetationCoverage rootDepth temperature
    <= calculateBiologicalWeathering vegetationCoverage rootDepth 25
  ∧ (0 <= vegetationCoverage <= 100 → 0 <= rootDepth <= 10 →
     (0 <= temperature <= 50 →
      0 <= calculateBiologicalWeathering vegetationCoverage rootDepth
             temperature <= 1)
     ∧ (25 * (1 + 7 / 3) < Rabs (temperature - 25) →
        calculateBiologicalWeathering vegetationCoverage rootDepth
          temperature < 0)).
Proof.
  unfold calculateBiologicalWeathering. split; [|split].
  - do 2 f_equal. unfold Rabs. do 2 destruct (Rcase_abs _); lra.
  - unfold Rabs. do 2 destruct (Rcase_abs _); lra.
  - intros Hc Hr. split.
    + intros Ht. unfold Rabs. destruct (Rcase_abs _); lra.
    + unfold Rabs. destruct (Rcase_abs _); lra.
Qed.

Lemma calculateBiologicalWeathering_temperature_witness :
  0 <= calculateBiologicalWeathering 70 3 15 <= 1.
Proof.
  refine (proj1 (proj2 (proj2 (calculateBiologicalWeathering_temperature
                                 70 3 15)) _ _) _); lra.
Defined.

(** ** Flow directions *)

Lemma Math_floor_direction r : 0 <= r < 1 → directionCode (Math_floor (r * 8)).
Proof.
  intros Hr. exists (Int_part (r * 8)). split; [done|].
  destruct (base_Int_part (r * 8)) as [Hlo Hhi].
  split.
  - assert (IZR (-1) < IZR (Int_part (r * 8))) as H%lt_IZR by (simpl; lra). lia.
  - assert (IZR (Int_part (r * 8)) < IZR 8) as H%lt_IZR by (simpl; lra). lia.
Qed.

(** X16.  For a terrain model of [height] rows and [width] columns and
    draws of [Math.random] in [0, 1), [calculateFlowDirections] returns an
    array of [height] rows of [width] numbers, each of them one of the
    integers 0 to 7. *)
Theorem calculateFlowDirections_codes (h : heap) terrainModel t g :
  getTerrain h terrainModel = Some t →
  unitDraws g →
  ∃ directions g',
    calculateFlowDirections h terrainModel g = Some (directions, g')
    ∧ length directions = height t
    ∧ Forall (λ row, length row = width t ∧ Forall directionCode row)
        directions.
Proof.
  intros Ht Hg. unfold calculateFlowDirections. rewrite Ht. simpl.
  rewrite forEach_rowMajor.
  destruct (forEach_total
    (λ s : list (list R) * Random,
       length s.1 = height t
       ∧ Forall (λ row, length row = width t ∧ Forall directionCode row) s.1
       ∧ stream s.2 = stream g)
    (rowMajor (width t) (height t))
    (λ c '(directions, g0),
       let '(r, g') := Math_random g0 in
       row ← directions !! c.2;
       Some (<[c.2 := <[c.1 := Math_floor (r * 8)]> row]> directions, g'))
    (replicate (height t) (replicate (width t) 0), g))
    as ([dirs g'] & Hrun & Hlen & Hall & _).
  - intros [x y] [dirs g0] [Hx Hy]%elem_of_rowMajor (Hlen & Hall & Hg0).
    simpl in *.
    destruct (lookup_lt_is_Some_2 dirs y) as [row Hrow]; [lia|].
    rewrite Hrow. simpl. eexists. split; [done|]. simpl.
    split; [by rewrite length_insert|]. split; [|done].
    apply Forall_insert; [done|].
    destruct (proj1 (Forall_lookup _ _) Hall _ _ Hrow) as [Hw Hcodes].
    split; [by rewrite length_insert|].
    apply Forall_insert; [done|].
    apply Math_floor_direction. rewrite Hg0. apply Hg.
  - simpl. split; [by rewrite length_replicate|]. split; [|done].
    apply Forall_replicate. split; [by rewrite length_replicate|].
    apply Forall_replicate. exists 0%Z. split; [done | lia].
  - exists dirs, g'. split; [exact Hrun|]. done.
Qed.

Lemma calculateFlowDirections_codes_witness :
  ∃ directions g',
    calculateFlowDirections exampleHeap 1%positive noRandom
    = Some (directions, g')
    ∧ length directions = height exampleTerrain.
Proof.
  destruct (calculateFlowDirections_codes exampleHeap 1%positive
              exampleTerrain noRandom)
    as (directions & g' & Hrun & Hlen & _).
  - reflexivity.
  - intros n. simpl. lra.
  - exists directions, g'. split; [exact Hrun | exact Hlen].
Defined.

(** ** The mock elevation dataset *)

Lemma squares_nonneg (a b : R) : 0 <= a * a + b * b.
Proof.
  pose proof (Rle_0_sqr a). pose proof (Rle_0_sqr b). unfold Rsqr in *. lra.
Qed.

Lemma mockElevation_value gridSize x y g :
  (mockElevation gridSize x y g).1
  = 100
    + 500 * exp (- ((INR x - INR gridSize / 2) * (INR x - INR gridSize / 2)
                    + (INR y - INR gridSize / 2) * (INR y - INR gridSize / 2))
                 / (INR gridSize * 5))
    + stream g (drawn g) * 10.
Proof.
  unfold mockElevation, Math_random. simpl.
  set (s := (INR x - INR gridSize / 2) * (INR x - INR gridSize / 2)
            + (INR y - INR gridSize / 2) * (INR y - INR gridSize / 2)).
  assert (Hs : 0 <= s) by apply squares_nonneg.
  replace (- sqrt s * sqrt s) with (- s); [done|].
  rewrite Ropp_mult_distr_l_reverse, sqrt_sqrt; [done | exact Hs].
Qed.

Lemma mockElevation_range gridSize x y g :
  (0 < gridSize)%nat → unitDraws g →
  100 < (mockElevation gridSize x y g).1 < 610.
Proof.
  intros Hn Hg. rewrite mockElevation_value.
  set (s := (INR x - INR gridSize / 2) * (INR x - INR gridSize / 2)
            + (INR y - INR gridSize / 2) * (INR y - INR gridSize / 2)).
  assert (Hs : 0 <= s) by apply squares_nonneg.
  assert (Hd : 0 < INR gridSize * 5).
  { apply lt_0_INR in Hn. lra. }
  assert (He : 0 < exp (- s / (INR gridSize * 5)) <= 1).
  { split; [apply exp_pos|]. rewrite <- exp_0.
    assert (Hle : - s / (INR gridSize * 5) <= 0).
    { unfold Rdiv. rewrite Ropp_mult_distr_l_reverse.
      apply Ropp_le_cancel. rewrite Ropp_involutive, Ropp_0.
      apply Rmult_le_pos; [done|]. left. by apply Rinv_0_lt_compat. }
    destruct Hle as [Hlt | ->]; [|lra]. left. by apply exp_increasing. }
  pose proof (Hg (drawn g)). lra.
Qed.

Section Build.
Context (s : nat → R).

Lemma forEach_snoc {A S : Type} (l : list A) (a : A)
    (body : A → S → option S) (st : S) :
  forEach (l ++ [a]) body st = forEach l body st ≫= body a.
Proof.
  rewrite forEach_app. destruct (forEach l body st) as [st'|]; [|done].
  simpl. by destruct (body a st').
Qed.

(** A row built by [push], one draw per element. *)
Lemma build_row (cellOf : nat → Random → R * Random) :
  (∀ x g, (cellOf x g).2 = MkRandom (stream g) (S (drawn g))) →
  ∀ (n : nat) (row : list R) (c : nat),
    forEach (seq 0 n) (λ x '(row, g),
      let '(e, g') := cellOf x g in Some (row ++ [e], g'))
      (row, MkRandom s c)
    = Some (row ++ ((λ x, (cellOf x (MkRandom s (c + x))).1) <$> seq 0 n),
            MkRandom s (c + n)).
Proof.
  intros Hnext n row c. induction n as [|n IH].
  - simpl. by rewrite app_nil_r, Nat.add_0_r.
  - rewrite seq_S, forEach_snoc, IH. simpl.
    pose proof (Hnext n (MkRandom s (c + n))) as Hn.
    destruct (cellOf n (MkRandom s (c + n))) as [e g'] eqn:He.
    simpl in Hn. subst g'.
    by rewrite fmap_app, app_assoc, Nat.add_succ_r; simpl; rewrite He.
Qed.

(** The rows, each using [w] draws. *)
Lemma build_rows (rowOf : nat → Random → option (list R * Random))
    (F : nat → nat → list R) (w : nat) :
  (∀ y c, rowOf y (MkRandom s c) = Some (F y c, MkRandom s (c + w))) →
  ∀ (n : nat) (rows : list (list R)) (c : nat),
    forEach (seq 0 n) (λ y '(elevationData, g),
      '(row, g') ← rowOf y g;
      Some (elevationData ++ [row], g')) (rows, MkRandom s c)
    = Some (rows ++ ((λ y, F y (c + w * y)%nat) <$> seq 0 n),
            MkRandom s (c + w * n)).
Proof.
  intros Hrow n rows c. induction n as [|n IH].
  - simpl. by rewrite app_nil_r, Nat.mul_0_r, Nat.add_0_r.
  - rewrite seq_S, forEach_snoc, IH. simpl. rewrite Hrow. simpl.
    by rewrite fmap_app, app_assoc, Nat.mul_succ_r, Nat.add_assoc.
Qed.

End Build.

Lemma mockElevation_next gridSize x y g :
  (mockElevation gridSize x y g).2 = MkRandom (stream g) (S (drawn g)).
Proof. reflexivity. Qed.

Lemma mockGrid_rect g : rect 50 50 (mockGrid 50 g).
Proof.
  unfold rect, mockGrid. split.
  - by rewrite length_fmap, length_seq.
  - apply Forall_fmap, Forall_forall. intros y _. unfold compose.
    rewrite length_fmap, length_seq. reflexivity.
Qed.

Lemma mockGrid_range g x y v :
  unitDraws g → cell (mockGrid 50 g) y x = Some v → 100 < v < 610.
Proof.
  intros Hg. unfold cell, mockGrid. intros Hc.
  apply bind_Some in Hc as (row & Hrow & Hv).
  apply list_lookup_fmap_Some in Hrow as (y' & -> & _).
  apply list_lookup_fmap_Some in Hv as (x' & -> & _).
  apply mockElevation_range; [lia|]. intros n. apply Hg.
Qed.

Lemma fetch_grid (s : nat → R) (c : nat) :
  forEach (seq 0 50) (λ y '(elevationData, g),
    '(row, g') ←
      forEach (seq 0 50) (λ x '(row, g),
        let '(e, g') := mockElevation 50 x y g in
        Some (row ++ [e], g'))
        ([], g);
    Some (elevationData ++ [row], g')) ([], MkRandom s c)
  = Some (mockGrid 50 (MkRandom s c), MkRandom s (c + 2500)).
Proof.
  rewrite (build_rows s
             (λ y g, forEach (seq 0 50) (λ x '(row, g),
                let '(e, g') := mockElevation 50 x y g in
                Some (row ++ [e], g')) ([], g))
             (λ y c, (λ x, (mockElevation 50 x y (MkRandom s (c + x))).1)
                     <$> seq 0 50) 50).
  - unfold mockGrid. cbn [stream drawn app].
    change (50 * 50)%nat with 2500%nat. reflexivity.
  - intros y c0.
    exact (build_row s (λ x g, mockElevation 50 x y g)
             (λ x g, mockElevation_next 50 x y g) 50 [] c0).
Qed.

Lemma fetchElevationData_spec (h : heap) (lat lng radius : R) (g : Random) :
  ∃ l h' t rs,
    fetchElevationData h lat lng radius g
    = Some (l, h', MkRandom (stream g) (drawn g + 2500))
    ∧ h ⊆ h' ∧ h !! l = None
    ∧ represents h' l t rs (mockGrid 50 g)
    ∧ width t = 50%nat ∧ height t = 50%nat ∧ cellSize t = radius / 25.
Proof.
  unfold fetchElevationData. destruct g as [s c].
  rewrite fetch_grid. cbn [mbind option_bind stream drawn].
  pose proof (mockGrid_rect (MkRandom s c)) as Hrect.
  generalize dependent (mockGrid 50 (MkRandom s c)). intros G Hrect.
  destruct (allocAll h (ONums <$> G)) as [rs ha] eqn:Hall.
  destruct (alloc ha (ORows rs)) as [d hb] eqn:Hd.
  destruct (alloc hb _) as [l hc] eqn:Hl.
  apply allocAll_spec in Hall as (Hsub & Hnd & Hfresh & Hrows).
  apply alloc_spec in Hd as [Hd ->].
  apply alloc_spec in Hl as [Hl ->].
  assert (Hsub1 : ha ⊆ <[d:=ORows rs]> ha) by by apply insert_subseteq.
  assert (Hsub2 : <[d:=ORows rs]> ha
                  ⊆ <[l:=OTerrain (Terrain 50 50 (radius * 2 / INR 50) d)]>
                      (<[d:=ORows rs]> ha))
    by by apply insert_subseteq.
  exists l, (<[l:=OTerrain (Terrain 50 50 (radius * 2 / INR 50) d)]>
               (<[d:=ORows rs]> ha)),
    (Terrain 50 50 (radius * 2 / INR 50) d), rs.
  split; [reflexivity|]. split; [|split; [|split; [|split; [|split]]]].
  - etrans; [exact Hsub|]. etrans; [exact Hsub1 | exact Hsub2].
  - eapply lookup_weaken_None; [exact Hl|]. etrans; [exact Hsub | exact Hsub1].
  - split; [|split; [|split]].
    + unfold getTerrain. rewrite lookup_insert_eq. reflexivity.
    + eapply getRows_weaken; [|exact Hsub2]. unfold getRows.
      cbn [elevationData]. rewrite lookup_insert_eq. reflexivity.
    + apply Forall2_fmap_r in Hrows.
      eapply Forall2_impl; [exact Hrows|]. intros r row Hr. cbv beta in Hr.
      unfold getNums.
      rewrite (lookup_weaken _ _ _ _ (lookup_weaken _ _ _ _ Hr Hsub1) Hsub2).
      reflexivity.
    + exact Hrect.
  - reflexivity.
  - reflexivity.
  - cbn [cellSize]. replace (INR 50) with 50; [lra|].
    rewrite (INR_IZR_INZ 50). reflexivity.
Qed.

(** X17.  [fetchElevationData] returns a new terrain object of 50 by 50
    cells with [cellSize = radius / 25], whatever the latitude and the
    longitude, and leaves what existed as it was.  It makes 2500 draws, one
    per cell in row order, and for draws in [0, 1) every elevation is above
    100 and at most 610.  (In exact arithmetic it is below 610; the
    binary64 sum reaches 610 by rounding at the centre cell.) *)
Theorem fetchElevationData_dataset (h : heap) (lat lng radius : R)
    (g : Random) :
  ∃ l h' t rs,
    fetchElevationData h lat lng radius g
    = Some (l, h', MkRandom (stream g) (drawn g + 2500))
    ∧ h ⊆ h' ∧ h !! l = None
    ∧ represents h' l t rs (mockGrid 50 g)
    ∧ width t = 50%nat ∧ height t = 50%nat ∧ cellSize t = radius / 25
    ∧ (unitDraws g →
       ∀ x y v, cell (mockGrid 50 g) y x = Some v → 100 < v <= 610).
Proof.
  destruct (fetchElevationData_spec h lat lng radius g)
    as (l & h' & t & rs & Hrun & Hsub & Hnew & Hrep & HW & HH & Hcs).
  exists l, h', t, rs.
  split; [exact Hrun|]. split; [exact Hsub|]. split; [exact Hnew|].
  split; [exact Hrep|]. split; [exact HW|]. split; [exact HH|].
  split; [exact Hcs|].
  intros Hg x y v Hv. pose proof (mockGrid_range g x y v Hg Hv). lra.
Qed.

Lemma fetchElevationData_dataset_witness :
  unitDraws noRandom
  ∧ ∀ x y v, cell (mockGrid 50 noRandom) y x = Some v → 100 < v <= 610.
Proof.
  assert (Hg : unitDraws noRandom) by (intros n; simpl; lra).
  split; [exact Hg|].
  destruct (fetchElevationData_dataset ∅ 0 0 10 noRandom)
    as (l & h' & t & rs & _ & _ & _ & _ & _ & _ & _ & Hrange).
  exact (Hrange Hg).
Defined.

(** ** Loading and the end-to-end run *)

Lemma mock_rates elev lat lng radius :
  let this := calculateWeatheringRates elev (fetchGeologyData lat lng radius)
                (fetchClimateData lat lng radius)
                (fetchVegetationData lat lng radius) in
  elevation this = elev
  ∧ physical this = 0.282
  ∧ chemical this = 383 / 700
  ∧ biological this = 0.55.
Proof.
  simpl. split; [done|]. split; [|split].
  - unfold calculatePhysicalWeathering. rewrite orElse_hardness. simpl. lra.
  - unfold calculateChemicalWeathering.
    rewrite calculateMineralReactivity_real.
    unfold totalAbundance, weightedReactivity, recognizedOnly.
    cbn [omap list_omap]. rewrite !recognized_table. cbn.
    destruct (Rlt_dec 0 _) as [_|Hn]; [|exfalso; apply Hn; lra].
    unfold Rmin. do 2 (destruct (Rle_dec _ _); [|lra]).
    unfold Rabs. destruct (Rcase_abs _); [|lra]. lra.
  - unfold calculateBiologicalWeathering.
    unfold Rabs. destruct (Rcase_abs _); [|lra]. lra.
Qed.

Lemma loadDatasets_spec (h : heap) (lat lng radius : R) (g : Random) :
  0 < radius →
  ∃ this h' t rs,
    loadDatasets h lat lng radius g
    = Some (this, h', MkRandom (stream g) (drawn g + 2500))
    ∧ h ⊆ h'
    ∧ wfDataset this h' t rs (mockGrid 50 g)
    ∧ width t = 50%nat ∧ height t = 50%nat
    ∧ physical this = 0.282
    ∧ chemical this = 383 / 700
    ∧ biological this = 0.55.
Proof.
  intros Hr. unfold loadDatasets.
  destruct (fetchElevationData_spec h lat lng radius g)
    as (l & h' & t & rs & -> & Hsub & Hnew & Hrep & HW & HH & Hcs).
  cbn [mbind option_bind].
  destruct (mock_rates l lat lng radius) as (He & Hp & Hc & Hb).
  eexists _, h', t, rs. split; [reflexivity|]. split; [exact Hsub|].
  split; [|split; [exact HW|split; [exact HH|split; [exact Hp|split;
    [exact Hc | exact Hb]]]]].
  split; [rewrite He; exact Hrep | rewrite Hcs; lra].
Qed.

(** X18.  For a positive radius [loadDatasets] leaves [this] with a
    well-formed elevation dataset of 50 by 50 cells and with the rates
    0.282 (physical), 383/700 (chemical) and 0.55 (biological), hence the
    total rate 7729/17500000 (about 0.00044 per year): the rates do not
    depend on the latitude, the longitude, the radius or the draws. *)
Theorem loadDatasets_rates (h : heap) (lat lng radius : R) (g : Random) :
  0 < radius →
  ∃ this h' g' t rs G,
    loadDatasets h lat lng radius g = Some (this, h', g')
    ∧ h ⊆ h'
    ∧ wfDataset this h' t rs G
    ∧ width t = 50%nat ∧ height t = 50%nat
    ∧ physical this = 0.282
    ∧ chemical this = 383 / 700
    ∧ biological this = 0.55
    ∧ calculateTotalWeatheringRate this = 7729 / 17500000.
Proof.
  intros Hr.
  destruct (loadDatasets_spec h lat lng radius g Hr)
    as (this & h' & t & rs & Hrun & Hsub & Hwf & HW & HH & Hp & Hc & Hb).
  exists this, h', (MkRandom (stream g) (drawn g + 2500)), t, rs,
    (mockGrid 50 g).
  split; [exact Hrun|]. split; [exact Hsub|]. split; [exact Hwf|].
  split; [exact HW|]. split; [exact HH|]. split; [exact Hp|].
  split; [exact Hc|]. split; [exact Hb|].
  unfold calculateTotalWeatheringRate. rewrite Hp, Hc, Hb. lra.
Qed.

Lemma loadDatasets_rates_witness :
  ∃ this h' g',
    loadDatasets ∅ 37.7749 (-122.4194) 10 noRandom = Some (this, h', g')
    ∧ physical this = 0.282.
Proof.
  destruct (loadDatasets_rates ∅ 37.7749 (-122.4194) 10 noRandom)
    as (this & h' & g' & t & rs & G & Hrun & _ & _ & _ & _ & Hp & _); [lra|].
  exists this, h', g'. split; [exact Hrun | exact Hp].
Defined.

(** X19.  [createWeatheringMap] returns for every latitude, longitude and
    number of years, on any heap: it loads a dataset [map] of 50 by 50
    cells (in a heap [h1] extending the given one), and its models are keyed
    by the time steps of [determineTimeSteps(years)], each a new object
    holding the projection of that dataset for its step.  The
    visualization carries the same models and the rates of [map]. *)
Theorem createWeatheringMap_returns (h : heap) (latitude longitude years : R)
    (g : Random) :
  ∃ models visualization map h1 tb h2 g2,
    createWeatheringMap h latitude longitude years g
    = Some (models, visualization, map, h2, g2)
    ∧ h ⊆ h1 ∧ h1 ⊆ h2
    ∧ getTerrain h1 (elevation map) = Some tb
    ∧ width tb = 50%nat ∧ height tb = 50%nat
    ∧ models.*1 = determineTimeSteps years
    ∧ NoDup models.*2
    ∧ (∀ ts w, (ts, w) ∈ models → snapshotOf map h1 tb h2 ts w)
    ∧ vis_models visualization = models
    ∧ totalWeatheringRate visualization = 7729 / 17500000
    ∧ physicalRate visualization = physical map
    ∧ chemicalRate visualization = chemical map
    ∧ biologicalRate visualization = biological map.
Proof.
  unfold createWeatheringMap.
  destruct (loadDatasets_spec h latitude longitude 10 g)
    as (map & h1 & tb & rs & -> & Hsub & Hwf & HW & HH & Hp & Hc & Hb); [lra|].
  cbn [mbind option_bind].
  unfold generateWeatheringModels.
  destruct (generateWeatheringModels_loop map h1 tb rs _ Hwf
              (determineTimeSteps years) [] h1
              (MkRandom (stream g) (drawn g + 2500)))
    as (models & h2 & g2 & Hloop & Hsub2 & Hkeys & Hall & Hnd);
    [done | constructor | constructor |].
  simpl in Hloop, Hall, Hnd. rewrite Hloop. cbn [mbind option_bind].
  exists models, (visualizeWeathering map models), map, h1, tb, h2, g2.
  split; [reflexivity|]. split; [exact Hsub|]. split; [exact Hsub2|].
  split; [exact (proj1 (proj1 Hwf))|]. split; [exact HW|]. split; [exact HH|].
  split; [exact Hkeys|]. split; [exact Hnd|].
  split.
  { intros ts w Hin. exact (proj1 (Forall_forall _ _) Hall _ Hin). }
  split; [reflexivity|]. split; [|repeat split].
  cbn [totalWeatheringRate visualizeWeathering].
  unfold calculateTotalWeatheringRate. rewrite Hp, Hc, Hb. lra.
Qed.

(** ** The net effect of the erosion pass *)

Lemma erosion_net (years s v : R) :
  0 < years → 0 <= s →
  (s < 10 →
   v < v - 0.00005 * years * 1 * (s / 45)
       + Rmax 0 (0.00002 * years * 1 * (1 - s / 90)))
  ∧ (10 <= s → v - 0.00005 * years * 1 * (s / 45) < v).
Proof.
  intros Hy Hs. split.
  - intros Hlt.
    assert (Hd : 0 < years * (0.00002 * (1 - s / 90) - 0.00005 * (s / 45)))
      by (apply Rmult_lt_0_compat; lra).
    assert (Hp : 0 <= 0.00002 * years * 1 * (1 - s / 90)).
    { assert (0 <= years * (1 - s / 90)) by (apply Rmult_le_pos; lra). lra. }
    rewrite Rmax_right by exact Hp. lra.
  - intros Hge.
    assert (0 < years * (s / 45)) by (apply Rmult_lt_0_compat; lra). lra.
Qed.

(** X20.  In exact arithmetic: on a terrain model that is a separate copy
    of a well-formed dataset, with its dimensions, [simulateErosion] for a
    positive number of years returns and moves every cell: a cell whose
    slope (read from the dataset) is below 10 degrees ends higher than it
    was, deposition outweighing erosion, and every other cell ends lower.
    (In binary64 a change below half a unit in the last place of the cell
    is absorbed, and the cell keeps its number.) *)
Theorem simulateErosion_net this (h0 : heap) tb rsb G0 w tw rs G (h : heap)
    (years : R) (g : Random) :
  wfDataset this h0 tb rsb G0 →
  width tw = width tb → height tw = height tb →
  owns h0 h w tw rs G →
  0 < years →
  ∃ h' g',
    simulateErosion this h w years g = Some (h', g')
    ∧ ∀ x y, (x < width tb)%nat → (y < height tb)%nat →
        ∃ s v v',
          calculateSlope this h0 x y = Some s
          ∧ readCell h (elevationData tw) y x = Some v
          ∧ readCell h' (elevationData tw) y x = Some v'
          ∧ (s < 10 → v < v')
          ∧ (10 <= s → v' < v).
Proof.
  intros Hwf HW HH Hown Hyears.
  destruct (simulateErosion_spec this h0 tb rsb G0 Hwf w tw rs years g h G
              HW HH Hown) as (h' & g' & Hrun & _ & Hown').
  exists h', g'. split; [exact Hrun|].
  intros x y Hx Hy.
  destruct (calculateSlope_total this h0 tb rsb G0 Hwf x y Hx Hy) as [s Hs].
  pose proof (calculateSlope_nonneg this h0 x y s Hs) as Hs0.
  destruct (represents_readCell h w tw rs G y x (proj1 (proj2 Hown)))
    as (v & Hv & Hr); [lia | lia |].
  exists s, v,
    (deposited this h0 years x y (eroded this h0 years x y v)).
  split; [exact Hs|]. split; [exact Hr|]. split.
  - rewrite (represents_readCell_cell _ _ _ _ _ _ _ (proj1 (proj2 Hown'))).
    rewrite (cell_alterCells_all _ _ (width tw) (height tw));
      [|apply NoDup_rowMajor|apply elem_of_rowMajor|lia|lia].
    rewrite (cell_alterCells_all _ _ (width tw) (height tw));
      [|apply NoDup_rowMajor|apply elem_of_rowMajor|lia|lia].
    rewrite Hv. reflexivity.
  - unfold deposited, eroded, slopeAt. rewrite Hs.
    change (default 0 (Some s)) with s.
    destruct (erosion_net years s v Hyears Hs0) as [Hup Hdown].
    destruct (Rlt_dec s 10) as [Hlt|Hge].
    + split; [intros _; exact (Hup Hlt) | intros Hc; lra].
    + split; [intros Hc; lra | intros Hc; exact (Hdown Hc)].
Qed.

Lemma simulateErosion_net_witness :
  ∃ w h h' g',
    cloneTerrainModel exampleHeap (elevation exampleMap) = Some (w, h)
    ∧ simulateErosion exampleMap h w 100 noRandom = Some (h', g').
Proof.
  destruct (cloneTerrainModel_owns exampleHeap (elevation exampleMap)
              exampleTerrain exampleRows exampleGrid (proj1 example_wf))
    as (w & h & tw & rs & Hclone & Hown & HW & HH & _).
  destruct (simulateErosion_net exampleMap exampleHeap exampleTerrain
              exampleRows exampleGrid w tw rs exampleGrid h 100 noRandom
              example_wf HW HH Hown ltac:(lra))
    as (h' & g' & Hrun & _).
  exists w, h, h', g'. split; [exact Hclone | exact Hrun].
Defined.
